(** * Distance-transform energy maps: connectomics/data/utils/data_transform.py

    A shallow embedding of the label-map encoders ([edt_semantic],
    [edt_instance], [sdt_instance], [distance_transform],
    [skeleton_aware_distance_transform]), of the quantizer
    ([energy_quantize]) and of the decoder ([decode_quantize]).

    Modelling conventions.
    - A numpy array or torch tensor is a row-major buffer with a shape
      ([ndarray]).
    - Pixel energies are exact rationals ([Qc], canonical fractions, so
      that equality of arrays is Leibniz equality).  The comparisons,
      maxima and selections of the source are exact on IEEE doubles as
      well; the roundings of [/], [*] and [-] are not modelled, neither
      are NaN and the infinities.
    - Python exceptions are the constructors of [exn]; a function that can
      raise returns a [result].
    - The image-processing primitives of scipy and scikit-image
      (connected components, hole filling, erosion, Euclidean distance
      transform, skeletonization, Gaussian blur) and the transcendental
      functions are the fields of the class [Primitives]; what the
      proofs need from them is the class [PrimitivesSpec]. *)

From Stdlib Require Import String Ascii ZArith QArith Qcanon List Bool Lia Lqa Permutation Sorted.
Import ListNotations.

Local Open Scope Z_scope.

(** ** Exceptions *)

Inductive exn : Type :=
| AssertionError
| IndexError
| ValueError
| UnboundLocalError
| RuntimeError.

Inductive result (A : Type) : Type :=
| OK (a : A)
| Raise (e : exn).

Arguments OK {A} a.
Arguments Raise {A} e.

Definition bind {A B : Type} (r : result A) (k : A -> result B) : result B :=
  match r with
  | OK a => k a
  | Raise e => Raise e
  end.

Notation "x <- r ;; k" := (bind r (fun x => k))
  (at level 61, r at next level, right associativity).
Notation "' pat <- r ;; k" := (bind r (fun x => match x with pat => k end))
  (at level 61, pat pattern, r at next level, right associativity).

(** [assert c]: raises [AssertionError] when [c] is false. *)
Definition assert (c : bool) : result unit :=
  if c then OK tt else Raise AssertionError.

(** ** Numbers *)

(** [float(z)] for a Python integer [z]. *)
Definition py_float (z : Z) : Qc := Q2Qc (inject_Z z).

(** A decimal or fractional literal [n/d]. *)
Definition lit (n : Z) (d : positive) : Qc := Q2Qc (n # d).

Definition Qcltb (x y : Qc) : bool :=
  match (x ?= y)%Qc with Lt => true | _ => false end.

Definition Qcleb (x y : Qc) : bool :=
  match (x ?= y)%Qc with Gt => false | _ => true end.

Definition Qceqb (x y : Qc) : bool :=
  match (x ?= y)%Qc with Eq => true | _ => false end.

(** [range(n)] *)
Definition range (n : Z) : list Z := map Z.of_nat (seq 0 (Z.to_nat n)).

(** ** Energy quantization *)

(** The bin edges of [energy_quantize]:
    [bins = [-1.0]; for i in range(levels): bins.append(i / levels);
     bins.append(1.1)]. *)
Definition quantize_bins (levels : Z) : list Qc :=
  fold_left (fun bins i => bins ++ [(py_float i / py_float levels)%Qc])
            (range levels) [lit (-1) 1]
  ++ [lit 11 10].

Fixpoint nondecreasing (l : list Qc) : bool :=
  match l with
  | a :: (b :: _) as t => Qcleb a b && nondecreasing t
  | _ => true
  end.

Fixpoint nonincreasing (l : list Qc) : bool :=
  match l with
  | a :: (b :: _) as t => Qcleb b a && nonincreasing t
  | _ => true
  end.

(** numpy's check of the bins: 1 increasing, -1 decreasing, 0 neither. *)
Definition monotonicity (bins : list Qc) : Z :=
  if nondecreasing bins then 1
  else if nonincreasing bins then -1
  else 0.

(** [np.searchsorted(bins, x, side='right')] on increasing bins: the first
    index [i] with [x < bins[i]], the length when there is none. *)
Fixpoint searchsorted_right (bins : list Qc) (x : Qc) : nat :=
  match bins with
  | [] => O
  | b :: bs => if Qcltb x b then O else S (searchsorted_right bs x)
  end.

(** [np.digitize(x, bins)]: the index [i] with [bins[i-1] <= x < bins[i]]. *)
Definition np_digitize (x : Qc) (bins : list Qc) : result Z :=
  match monotonicity bins with
  | 0 => Raise ValueError
  | Zneg _ =>
      OK (Z.of_nat (length bins) - Z.of_nat (searchsorted_right (rev bins) x))
  | Zpos _ => OK (Z.of_nat (searchsorted_right bins x))
  end.

(** [energy_quantize] at one energy value. *)
Definition energy_quantize (energy : Qc) (levels : Z) : result Z :=
  let bins := quantize_bins levels in
  quantized <- np_digitize energy bins ;;
  OK (quantized - 1).

Definition default_levels : Z := 10.


(** ** Arrays *)

(** A numpy array (or torch tensor): its shape and its row-major buffer. *)
Record ndarray (A : Type) : Type := NdArray {
  shape : list nat;
  data : list A
}.

Arguments NdArray {A} shape data.
Arguments shape {A} n.
Arguments data {A} n.

(** The number of cells of an array of shape [sh]. *)
Definition size_of (sh : list nat) : nat := fold_right Nat.mul 1%nat sh.

(** The buffer has as many cells as the shape says. *)
Definition wf {A : Type} (a : ndarray A) : Prop :=
  length (data a) = size_of (shape a).

Definition ndim {A : Type} (a : ndarray A) : nat := length (shape a).

Fixpoint shape_eqb (s t : list nat) : bool :=
  match s, t with
  | [], [] => true
  | n :: s', m :: t' => Nat.eqb n m && shape_eqb s' t'
  | _, _ => false
  end.

(** [np.zeros(sh)], [np.ones(sh) * v]. *)
Definition full {A : Type} (sh : list nat) (v : A) : ndarray A :=
  NdArray sh (repeat v (size_of sh)).

(** A unary element-wise operation ([label != 0], [np.tanh(x)], [x / c]). *)
Definition amap {A B : Type} (f : A -> B) (a : ndarray A) : ndarray B :=
  NdArray (shape a) (map f (data a)).

Fixpoint zip_with {A B C : Type} (f : A -> B -> C) (l : list A) (r : list B)
  : list C :=
  match l, r with
  | x :: l', y :: r' => f x y :: zip_with f l' r'
  | _, _ => []
  end.

(** A binary element-wise operation on two arrays of one shape
    ([a - b], [a * b], [np.maximum(a, b)], [a += b]); operands of
    different shapes are rejected (numpy's broadcasting of unequal shapes
    is not modelled). *)
Definition azip {A B C : Type} (f : A -> B -> C) (a : ndarray A) (b : ndarray B)
  : result (ndarray C) :=
  if shape_eqb (shape a) (shape b)
  then OK (NdArray (shape a) (zip_with f (data a) (data b)))
  else Raise ValueError.

(** [np.atleast_1d(a)] *)
Definition atleast_1d {A : Type} (a : ndarray A) : ndarray A :=
  match shape a with
  | [] => NdArray [1%nat] (data a)
  | _ :: _ => a
  end.

(** [a.shape[0]] *)
Definition shape0 {A : Type} (a : ndarray A) : result nat :=
  match shape a with
  | [] => Raise IndexError
  | n :: _ => OK n
  end.

(** The [i]-th block of [inner] cells of a buffer. *)
Definition chunk {A : Type} (inner : nat) (d : list A) (i : nat) : list A :=
  firstn inner (skipn (i * inner) d).

(** [a[i]] along the leading axis. *)
Definition slice0 {A : Type} (a : ndarray A) (i : nat) : ndarray A :=
  let sh := tl (shape a) in
  NdArray sh (chunk (size_of sh) (data a) i).

(** [np.stack(arrays, 0)] *)
Definition np_stack {A : Type} (arrays : list (ndarray A)) : result (ndarray A) :=
  match arrays with
  | [] => Raise ValueError
  | a :: rest =>
      if forallb (fun b => shape_eqb (shape a) (shape b)) rest
      then OK (NdArray (length arrays :: shape a) (concat (map data arrays)))
      else Raise ValueError
  end.

(** [a.max()] *)
Definition amax (a : ndarray Qc) : result Qc :=
  match data a with
  | [] => Raise ValueError
  | x :: t => OK (fold_left (fun m y => if Qcltb m y then y else m) t x)
  end.

(** [np.maximum] on two energies. *)
Definition maximum (x y : Qc) : Qc := if Qcltb x y then y else x.

(** [np.unique(label)]: the distinct values, ascending. *)
Fixpoint insert_unique (z : Z) (l : list Z) : list Z :=
  match l with
  | [] => [z]
  | h :: t =>
      if z <? h then z :: l
      else if z =? h then l
      else h :: insert_unique z t
  end.

Definition np_unique (a : ndarray Z) : list Z :=
  fold_right insert_unique [] (data a).

(** [np.pad(a, m, mode='constant', constant_values=z)]: [m] cells of [z]
    before and after, on every axis. *)
Fixpoint pad_data {A : Type} (m : nat) (z : A) (sh : list nat) (d : list A)
  : list A :=
  match sh with
  | [] => d
  | n :: sh' =>
      let inner := size_of sh' in
      let inner' := size_of (map (fun k => k + 2 * m)%nat sh') in
      repeat z (m * inner')
      ++ flat_map (fun i => pad_data m z sh' (chunk inner d i)) (seq 0 n)
      ++ repeat z (m * inner')
  end.

Definition np_pad {A : Type} (a : ndarray A) (m : nat) (z : A) : ndarray A :=
  NdArray (map (fun k => k + 2 * m)%nat (shape a))
          (pad_data m z (shape a) (data a)).

(** Modelled from the spec: [get_padsize] of
    connectomics/data/utils/data_misc.py, which is not part of the sources
    at hand.  For an integer margin it gives the pair (margin, margin) for
    each of the [ndim] axes. *)
Definition get_padsize (pad_size : nat) (nd : nat) : list (nat * nat) :=
  repeat (pad_size, pad_size) nd.

(** Modelled from the spec: the buffer of [array_unpad], see below. *)
Fixpoint unpad_data {A : Type} (pads : list (nat * nat)) (sh : list nat)
  (d : list A) : list A :=
  match sh, pads with
  | n :: sh', (lo, hi) :: pads' =>
      let inner := size_of sh' in
      flat_map (fun i => unpad_data pads' sh' (chunk inner d i))
               (seq lo (n - hi - lo))
  | _, _ => d
  end.

Fixpoint unpad_shape (pads : list (nat * nat)) (sh : list nat) : list nat :=
  match sh, pads with
  | n :: sh', (lo, hi) :: pads' => (n - hi - lo)%nat :: unpad_shape pads' sh'
  | _, _ => sh
  end.

(** Modelled from the spec: [array_unpad] of
    connectomics/data/utils/data_misc.py, which is not part of the sources
    at hand.  It strips the margins (before, after) of every axis, that is
    it keeps the cells [lo <= i < n - hi] of an axis of extent [n]. *)
Definition array_unpad {A : Type} (a : ndarray A) (pads : list (nat * nat))
  : ndarray A :=
  NdArray (unpad_shape pads (shape a)) (unpad_data pads (shape a) (data a)).

(** ** External primitives *)

Class Primitives : Type := {
  (** [skimage.measure.label] *)
  label_cc : ndarray Z -> ndarray Z;
  (** [skimage.morphology.remove_small_holes(mask, area, connectivity)] *)
  remove_small_holes : ndarray bool -> Z -> Z -> ndarray bool;
  (** [skimage.morphology.binary_erosion(mask, footprint)] *)
  binary_erosion : ndarray bool -> ndarray bool -> ndarray bool;
  (** [skimage.morphology.disk(radius)], [ball(radius)] *)
  disk : Z -> ndarray bool;
  ball : Z -> ndarray bool;
  (** [scipy.ndimage.distance_transform_edt] on a mask whose rank is the
      length of the sampling *)
  edt : ndarray bool -> list Qc -> ndarray Qc;
  (** [skimage.morphology.skeletonize] *)
  skeletonize : ndarray bool -> ndarray bool;
  (** [skimage.filters.gaussian(image, sigma, preserve_range=True)] *)
  gaussian : ndarray Qc -> Qc -> ndarray Qc;
  (** [np.tanh], [np.exp], [x ** alpha] on one value *)
  np_tanh : Qc -> Qc;
  np_exp : Qc -> Qc;
  np_power : Qc -> Qc -> Qc
}.

(** Two arrays of the same shape and buffer length. *)
Definition same_shape {A B : Type} (a : ndarray A) (b : ndarray B) : Prop :=
  shape a = shape b /\ length (data a) = length (data b).

(** The contracts of the primitives that the proofs rely on: each one
    returns an array of the shape of its argument, connected-component
    labelling leaves background cells at 0, and the distance transform is
    0 on background cells. *)
Class PrimitivesSpec (P : Primitives) : Prop := {
  label_cc_shape : forall a, same_shape (label_cc a) a;
  label_cc_zero : forall a i,
    nth i (data a) 0 = 0 -> nth i (data (label_cc a)) 0 = 0;
  remove_small_holes_shape : forall m area c,
    same_shape (remove_small_holes m area c) m;
  binary_erosion_shape : forall m fp, same_shape (binary_erosion m fp) m;
  edt_shape : forall m sampling, same_shape (edt m sampling) m;
  edt_background : forall m sampling i,
    nth i (data m) false = false -> nth i (data (edt m sampling)) 0%Qc = 0%Qc;
  skeletonize_shape : forall m, same_shape (skeletonize m) m;
  gaussian_shape : forall a sigma, same_shape (gaussian a sigma) a
}.

(** ** Loops in the exception monad *)

Fixpoint mapM {A B : Type} (f : A -> result B) (l : list A) : result (list B) :=
  match l with
  | [] => OK []
  | x :: t =>
      y <- f x ;;
      ys <- mapM f t ;;
      OK (y :: ys)
  end.

(** [for a in l: s = step(s, a)] *)
Definition foldM {S A : Type} (step : S -> A -> result S) (l : list A) (s : S)
  : result S :=
  fold_left (fun r a => s' <- r ;; step s' a) l (OK s).

(** [energy_quantize] on an array: element-wise. *)
Definition energy_quantize_array (energy : ndarray Qc) (levels : Z)
  : result (ndarray Z) :=
  quantized <- mapM (fun x => energy_quantize x levels) (data energy) ;;
  OK (NdArray (shape energy) quantized).

(** [mode in ['2d', '3d']] and the like. *)
Definition str_in (s : string) (l : list string) : bool :=
  existsb (String.eqb s) l.

Definition b2f (b : bool) : Qc := if b then 1%Qc else 0%Qc.

Definition b2u8 (b : bool) : Z := if b then 1 else 0.

(** Addition of [np.uint8] values. *)
Definition uint8_add (x y : Z) : Z := (x + y) mod 256.

Definition eps : Qc := lit 1 1000000.

Definition pad_size : nat := 2.

(** The head of both instance transforms after [np.unique]:
    [if indices[0] == 0: if len(indices) > 1: indices = indices[1:]
     else: all_bg_sample = True].  Returns the ids to visit and the
    flag. *)
Definition select_indices (indices : list Z) : result (list Z * bool) :=
  match indices with
  | [] => Raise IndexError
  | i0 :: rest =>
      if i0 =? 0 then
        match rest with
        | [] => OK (indices, true)
        | _ :: _ => OK (rest, false)
        end
      else OK (indices, false)
  end.

(** [distance[distance == 0] = bg_value], done when [bg_value != 0]. *)
Definition fill_background (bg_value : Qc) (distance : ndarray Qc) : ndarray Qc :=
  if Qceqb bg_value 0%Qc then distance
  else amap (fun d => if Qceqb d 0%Qc then bg_value else d) distance.

Section Transforms.

Context {P : Primitives}.

(** [scipy.ndimage.distance_transform_edt(mask, sampling)]: the mask is
    promoted to one axis when it has none, and the sampling must have one
    entry per axis. *)
Definition distance_transform_edt (mask : ndarray bool) (sampling : list Qc)
  : result (ndarray Qc) :=
  let input := atleast_1d mask in
  if Nat.eqb (length sampling) (ndim input)
  then OK (edt input sampling)
  else Raise RuntimeError.

(** *** Binary masks *)

Definition _edt_binary_mask (mask : ndarray bool) (resolution : list Qc)
  (alpha : Qc) : result (ndarray Qc) :=
  if forallb (fun b => b) (data mask)
  then OK (amap (fun _ => lit 5 1) mask)
  else
    d <- distance_transform_edt mask resolution ;;
    OK (amap (fun x => (x / alpha)%Qc) d).

Definition edt_semantic (label : ndarray Z) (mode : string)
  (alpha_fore alpha_back : Qc) : result (ndarray Qc) :=
  _ <- assert (str_in mode ["2d"; "3d"]%string) ;;
  let do_2d := Nat.eqb (ndim label) 2 in
  let resolution :=
    if String.eqb mode "2d" || do_2d
    then [1%Qc; 1%Qc]
    else [lit 6 1; 1%Qc; 1%Qc] in
  let fore := amap (fun l => negb (l =? 0)) label in
  let back := amap (fun l => l =? 0) label in
  ' (fore_edt, back_edt) <-
    (if String.eqb mode "3d" || do_2d then
       fore_edt <- _edt_binary_mask fore resolution alpha_fore ;;
       back_edt <- _edt_binary_mask back resolution alpha_back ;;
       OK (fore_edt, back_edt)
     else
       n <- shape0 label ;;
       fore_edt <- mapM (fun i => _edt_binary_mask (slice0 fore i)
                                    resolution alpha_fore) (seq 0 n) ;;
       back_edt <- mapM (fun i => _edt_binary_mask (slice0 back i)
                                    resolution alpha_back) (seq 0 n) ;;
       fore_edt <- np_stack fore_edt ;;
       back_edt <- np_stack back_edt ;;
       OK (fore_edt, back_edt)) ;;
  distance <- azip Qcminus fore_edt back_edt ;;
  OK (amap np_tanh distance).

(** *** Instance distance transform *)

(** [footprint], bound only when [erosion > 0] and the label map has 2 or
    3 axes. *)
Definition erosion_footprint (erosion : Z) (nd : nat) : option (ndarray bool) :=
  if 0 <? erosion then
    if Nat.eqb nd 2 then Some (disk erosion)
    else if Nat.eqb nd 3 then Some (ball erosion)
    else None
  else None.

(** One turn of the loop [for idx in indices] of [distance_transform]. *)
Definition distance_transform_step (label : ndarray Z) (resolution : list Qc)
  (erosion : Z) (footprint : option (ndarray bool))
  (st : ndarray Qc * ndarray Z) (idx : Z) : result (ndarray Qc * ndarray Z) :=
  let '(distance, semantic) := st in
  let temp2 := remove_small_holes (amap (fun l => l =? idx) label) 16 1 in
  temp2 <- (if 0 <? erosion then
              match footprint with
              | Some fp => OK (binary_erosion temp2 fp)
              | None => Raise UnboundLocalError
              end
            else OK temp2) ;;
  semantic <- azip uint8_add semantic (amap b2u8 temp2) ;;
  boundary_edt <- distance_transform_edt temp2 resolution ;;
  m <- amax boundary_edt ;;
  let energy := amap (fun d => (d / (m + eps))%Qc) boundary_edt in
  masked <- azip Qcmult energy (amap b2f temp2) ;;
  distance <- azip maximum distance masked ;;
  OK (distance, semantic).

(** The tail shared by both instance transforms: background value and
    unpadding. *)
Definition finish_transform (bg_value : Qc) (padding : bool)
  (st : ndarray Qc * ndarray Z) : ndarray Qc * ndarray Z :=
  let '(distance, semantic) := st in
  let distance := fill_background bg_value distance in
  if padding then
    let distance := array_unpad distance (get_padsize pad_size (ndim distance)) in
    let semantic := array_unpad semantic (get_padsize pad_size (ndim distance)) in
    (distance, semantic)
  else (distance, semantic).

(** The label map the loop works on: relabelled and padded on demand. *)
Definition prepare_label (label : ndarray Z) (relabel padding : bool)
  : ndarray Z :=
  let label := if relabel then label_cc label else label in
  if padding then np_pad label pad_size 0 else label.

(** [distance_transform] with the instance loop run over [visit indices]
    instead of [indices]; the source is the instance at [visit = id]. *)
Definition distance_transform_in_order (visit : list Z -> list Z)
  (label : ndarray Z) (bg_value : Qc) (relabel padding : bool)
  (resolution : list Qc) (erosion : Z) : result (ndarray Qc * ndarray Z) :=
  let label := prepare_label label relabel padding in
  let label_shape := shape label in
  let distance := full label_shape 0%Qc in
  let semantic := full label_shape 0 in
  ' (indices, all_bg_sample) <- select_indices (np_unique label) ;;
  st <- (if negb all_bg_sample then
           let footprint := erosion_footprint erosion (ndim label) in
           foldM (distance_transform_step label resolution erosion footprint)
                 (visit indices) (distance, semantic)
         else OK (distance, semantic)) ;;
  OK (finish_transform bg_value padding st).

Definition distance_transform (label : ndarray Z) (bg_value : Qc)
  (relabel padding : bool) (resolution : list Qc) (erosion : Z)
  : result (ndarray Qc * ndarray Z) :=
  distance_transform_in_order (fun indices => indices)
    label bg_value relabel padding resolution erosion.

(** *** Skeleton-aware distance transform *)

Definition smooth_round (smooth_sigma smooth_threshold : Qc)
  (binary : ndarray bool) : ndarray bool :=
  let blurred := gaussian (amap b2f binary) smooth_sigma in
  amap (fun v => Qcltb smooth_threshold v) blurred.

Definition smooth_edge (binary : ndarray bool)
  (smooth_sigma smooth_threshold : Qc) : ndarray bool :=
  smooth_round smooth_sigma smooth_threshold
    (smooth_round smooth_sigma smooth_threshold binary).

(** [binary.astype(int).sum()] *)
Definition mask_sum (binary : ndarray bool) : Z :=
  fold_left Z.add (map b2u8 (data binary)) 0.

(** The state of the loop: [skeleton], [distance], [semantic]. *)
Definition sdt_state : Type := (ndarray Z * ndarray Qc * ndarray Z)%type.

(** One turn of the loop of [skeleton_aware_distance_transform]. *)
Definition skeleton_aware_step (label : ndarray Z) (resolution : list Qc)
  (alpha : Qc) (smooth smooth_skeleton_only : bool)
  (st : sdt_state) (idx : Z) : result sdt_state :=
  let '(skeleton, distance, semantic) := st in
  let temp2 := remove_small_holes (amap (fun l => l =? idx) label) 16 1 in
  let binary := temp2 in
  ' (binary, temp2) <-
    (if smooth then
       let binary := smooth_edge binary (lit 2 1) (lit 1 2) in
       if mask_sum binary <=? 32 then OK (temp2, temp2)
       else if smooth_skeleton_only then
              binary <- azip andb binary temp2 ;;
              OK (binary, temp2)
            else OK (binary, binary)
     else OK (binary, temp2)) ;;
  semantic <- azip uint8_add semantic (amap b2u8 temp2) ;;
  let skeleton_mask := skeletonize binary in
  skeleton <- azip uint8_add skeleton (amap b2u8 skeleton_mask) ;;
  skeleton_edt <- distance_transform_edt (amap negb skeleton_mask) resolution ;;
  boundary_edt <- distance_transform_edt temp2 resolution ;;
  energy <- azip (fun b s => (b / (s + b + eps))%Qc) boundary_edt skeleton_edt ;;
  let energy := amap (fun e => np_power e alpha) energy in
  masked <- azip Qcmult energy (amap b2f temp2) ;;
  distance <- azip maximum distance masked ;;
  OK (skeleton, distance, semantic).

(** [skeleton_aware_distance_transform] with the instance loop run over
    [visit indices]; the source is the instance at [visit = id]. *)
Definition skeleton_aware_distance_transform_in_order
  (visit : list Z -> list Z) (label : ndarray Z) (bg_value : Qc)
  (relabel padding : bool) (resolution : list Qc) (alpha : Qc)
  (smooth smooth_skeleton_only : bool) : result (ndarray Qc * ndarray Z) :=
  let label := prepare_label label relabel padding in
  let label_shape := shape label in
  let skeleton := full label_shape 0 in
  let distance := full label_shape 0%Qc in
  let semantic := full label_shape 0 in
  ' (indices, all_bg_sample) <- select_indices (np_unique label) ;;
  st <- (if negb all_bg_sample then
           foldM (skeleton_aware_step label resolution alpha smooth
                                      smooth_skeleton_only)
                 (visit indices) (skeleton, distance, semantic)
         else OK (skeleton, distance, semantic)) ;;
  let '(_, distance, semantic) := st in
  OK (finish_transform bg_value padding (distance, semantic)).

Definition skeleton_aware_distance_transform (label : ndarray Z)
  (bg_value : Qc) (relabel padding : bool) (resolution : list Qc) (alpha : Qc)
  (smooth smooth_skeleton_only : bool) : result (ndarray Qc * ndarray Z) :=
  skeleton_aware_distance_transform_in_order (fun indices => indices)
    label bg_value relabel padding resolution alpha smooth smooth_skeleton_only.

(** *** Stacks of slices *)

(** What [edt_instance] and [sdt_instance] return: the energy map, or its
    quantized version when [quantize] is set. *)
Inductive energy_out : Type :=
| Continuous (e : ndarray Qc)
| Quantized (q : ndarray Z).

Definition quantize_out (quantize : bool) (vol_distance : ndarray Qc)
  : result energy_out :=
  if quantize then
    q <- energy_quantize_array vol_distance default_levels ;;
    OK (Quantized q)
  else OK (Continuous vol_distance).

Definition edt_instance (label : ndarray Z) (mode : string) (quantize : bool)
  (resolution : list Qc) (padding : bool) (erosion : Z) : result energy_out :=
  _ <- assert (str_in mode ["2d"; "3d"]%string) ;;
  if String.eqb mode "3d" then
    ' (vol_distance, vol_semantic) <-
      distance_transform label (lit (-1) 1) true padding resolution erosion ;;
    quantize_out quantize vol_distance
  else
    n <- shape0 label ;;
    slices <- mapM (fun i => distance_transform (slice0 label i) (lit (-1) 1)
                               true padding [1%Qc; 1%Qc] erosion) (seq 0 n) ;;
    vol_distance <- np_stack (map fst slices) ;;
    vol_semantic <- np_stack (map snd slices) ;;
    quantize_out quantize vol_distance.

Definition sdt_instance (label : ndarray Z) (mode : string) (quantize : bool)
  (resolution : list Qc) (padding : bool) : result energy_out :=
  _ <- assert (String.eqb mode "2d") ;;
  n <- shape0 label ;;
  slices <- mapM (fun i => skeleton_aware_distance_transform (slice0 label i)
                             (lit (-1) 1) true padding [1%Qc; 1%Qc]
                             (lit 8 10) true true) (seq 0 n) ;;
  vol_distance <- np_stack (map fst slices) ;;
  vol_semantic <- np_stack (map snd slices) ;;
  quantize_out quantize vol_distance.

End Transforms.

(** ** Decoding *)

(** The column [j] of a row-major (C, N) matrix: its class axis. *)
Definition column (C N : nat) (d : list Qc) (j : nat) : list Qc :=
  map (fun c => nth (c * N + j) d 0%Qc) (seq 0 C).

(** A reduction over axis 0 of a (C, N) matrix ([argmax], [sum]). *)
Definition reduce_axis0 {B : Type} (f : list Qc -> B) (C N : nat) (d : list Qc)
  : list B :=
  map (fun j => f (column C N d j)) (seq 0 N).

(** A map along axis 0 of a (C, N) matrix ([softmax]). *)
Definition along_axis0 (f : list Qc -> list Qc) (C N : nat) (d : list Qc)
  : list Qc :=
  flat_map (fun c => map (fun j => nth c (f (column C N d j)) 0%Qc) (seq 0 N))
           (seq 0 C).

Fixpoint argmax_from (best_i : nat) (best : Qc) (i : nat) (l : list Qc) : nat :=
  match l with
  | [] => best_i
  | x :: t =>
      if Qcltb best x then argmax_from i x (S i) t
      else argmax_from best_i best (S i) t
  end.

(** The index of the first maximum of a non-empty list. *)
Definition argmax (l : list Qc) : nat :=
  match l with
  | [] => O
  | x :: t => argmax_from 0 x 1 t
  end.

Definition qsum (l : list Qc) : Qc := fold_left Qcplus l 0%Qc.

(** The fixed bin centers of the 'mean' policy:
    [[0.1 * float(x - 1) for x in range(11)]]. *)
Definition mean_bins : list Qc :=
  map (fun x => (lit 1 10 * py_float (x - 1))%Qc) (range 11).

(** The number of rows of the product of a (C, N) matrix with a (K, 1)
    column under broadcasting; [None] when C and K do not match. *)
Definition broadcast_rows (C K : nat) : option nat :=
  if Nat.eqb C K then Some C
  else if Nat.eqb C 1 then Some K
  else if Nat.eqb K 1 then Some C
  else None.

(** The buffer of [pred * bins], [pred] of shape (C, N) and [bins] of
    shape (K, 1), with [R] rows after broadcasting. *)
Definition broadcast_mul (C N : nat) (pred : list Qc) (bins : list Qc) (R : nat)
  : list Qc :=
  flat_map (fun r =>
    map (fun j =>
           (nth ((if Nat.eqb C 1 then 0 else r) * N + j) pred 0%Qc
            * nth (if Nat.eqb (length bins) 1 then 0 else r)%nat bins 0%Qc)%Qc)
        (seq 0 N))
    (seq 0 R).

Section Decode.

Context {P : Primitives}.

(** [softmax] of one class vector: [exp(x - max) / sum(exp(x - max))]. *)
Definition softmax (l : list Qc) : list Qc :=
  match l with
  | [] => []
  | x :: t =>
      let m := fold_left maximum t x in
      let e := map (fun v => np_exp (v - m)%Qc) l in
      map (fun v => (v / qsum e)%Qc) e
  end.

(** [output] of shape (C, ...), the class axis first. *)
Definition _decode_quant_numpy (output : ndarray Qc) (mode : string)
  : result (ndarray Qc) :=
  if String.eqb mode "max" then
    match shape output with
    | [] => Raise IndexError
    | C :: rest =>
        if Nat.eqb C 0 then Raise ValueError
        else
          let pred := NdArray rest
                        (reduce_axis0 argmax C (size_of rest) (data output)) in
          let max_value := C in
          OK (amap (fun c => (py_float (Z.of_nat c)
                              / py_float (Z.of_nat max_value))%Qc) pred)
    end
  else if String.eqb mode "mean" then
    let out_shape := shape output in
    let bins := mean_bins in
    match out_shape with
    | [] => Raise IndexError
    | C :: rest =>
        if Nat.eqb C 0 then Raise ValueError
        else
          let N := size_of rest in
          let pred := along_axis0 softmax C N (data output) in
          match broadcast_rows C (length bins) with
          | None => Raise ValueError
          | Some R =>
              let prod := broadcast_mul C N pred bins R in
              if Nat.eqb (length prod) (size_of out_shape)
              then OK (NdArray rest (reduce_axis0 qsum C N prod))
              else Raise ValueError
          end
    end
  else Raise UnboundLocalError.

(** [output] of shape (B, C, ...), the class axis second: each of the [B]
    leading blocks is a (C, N) matrix. *)
Definition _decode_quant_torch (output : ndarray Qc) (mode : string)
  : result (ndarray Qc) :=
  if String.eqb mode "max" then
    match shape output with
    | B :: C :: rest =>
        if Nat.eqb C 0 then Raise IndexError
        else
          let N := size_of rest in
          let pred := NdArray (B :: rest)
                        (flat_map (fun b => reduce_axis0 argmax C N
                                              (chunk (C * N) (data output) b))
                                  (seq 0 B)) in
          let max_value := C in
          OK (amap (fun c => (py_float (Z.of_nat c)
                              / py_float (Z.of_nat max_value))%Qc) pred)
    | _ => Raise IndexError
    end
  else if String.eqb mode "mean" then
    let out_shape := shape output in
    let bins := mean_bins in
    match out_shape with
    | B :: C :: rest =>
        if Nat.eqb (B * C) 0 then Raise RuntimeError
        else
          let N := size_of rest in
          match broadcast_rows C (length bins) with
          | None => Raise RuntimeError
          | Some R =>
              let prod :=
                flat_map (fun b =>
                            let pred := along_axis0 softmax C N
                                          (chunk (C * N) (data output) b) in
                            broadcast_mul C N pred bins R)
                         (seq 0 B) in
              if Nat.eqb (length prod) (size_of out_shape)
              then OK (NdArray (B :: rest)
                         (flat_map (fun b => reduce_axis0 qsum C N
                                               (chunk (C * N) prod b))
                                   (seq 0 B)))
              else Raise RuntimeError
          end
    | _ => Raise IndexError
    end
  else Raise UnboundLocalError.

(** The value handed to [decode_quantize], by its runtime type. *)
Inductive container : Type :=
| TorchTensor (t : ndarray Qc)
| NumpyArray (a : ndarray Qc)
| OtherObject (type_name : string).

Definition decode_quantize (output : container) (mode : string)
  : result (ndarray Qc) :=
  _ <- assert (match output with OtherObject _ => false | _ => true end) ;;
  _ <- assert (str_in mode ["max"; "mean"]%string) ;;
  match output with
  | TorchTensor t => _decode_quant_torch t mode
  | NumpyArray a => _decode_quant_numpy a mode
  | OtherObject _ => Raise AssertionError
  end.

(** A one-hot encoding along the class axis, class axis first: cell
    (c, j) is 1 when [c] is the class [ks[j]] of position [j], else 0. *)
Definition one_hot_rows (C : nat) (ks : list nat) : list Qc :=
  flat_map (fun c => map (fun k => if Nat.eqb c k then 1%Qc else 0%Qc) ks)
           (seq 0 C).

Definition one_hot_numpy (C : nat) (rest : list nat) (ks : list nat)
  : ndarray Qc :=
  NdArray (C :: rest) (one_hot_rows C ks).

(** The same with the class axis second: one block of classes per batch
    entry. *)
Definition one_hot_torch (C : nat) (rest : list nat) (kss : list (list nat))
  : ndarray Qc :=
  NdArray (length kss :: C :: rest) (flat_map (one_hot_rows C) kss).

End Decode.

(** ** A concrete instance of the primitives

    Rational stand-ins for the external primitives, used to run the
    transforms on small inputs: labelling, hole filling, erosion,
    skeletonization and blurring return their argument, the distance
    transform is 1 on the mask and 0 off it, [softsign] stands for
    [tanh], [1 / (1 - x)] for [exp] (on [x <= 0]) and the identity for the
    power. *)

Definition Qcabs (x : Qc) : Qc := if Qcltb x 0%Qc then (- x)%Qc else x.

#[global] Instance stand_in : Primitives := {
  label_cc := fun a => a;
  remove_small_holes := fun m _ _ => m;
  binary_erosion := fun m _ => m;
  disk := fun _ => full [1%nat; 1%nat] true;
  ball := fun _ => full [1%nat; 1%nat; 1%nat] true;
  edt := fun m _ => amap b2f m;
  skeletonize := fun m => m;
  gaussian := fun a _ => a;
  np_tanh := fun x => (x / (1 + Qcabs x))%Qc;
  np_exp := fun x => (1 / (1 - x))%Qc;
  np_power := fun x _ => x
}.

(** Cell [c] of a one-hot class vector with the 1 at [k]. *)
Definition one_hot_cell (k c : nat) : Qc := if Nat.eqb c k then 1%Qc else 0%Qc.

(** The class index turned into an energy by the 'max' policy. *)
Definition class_energy (C k : nat) : Qc :=
  (py_float (Z.of_nat k) / py_float (Z.of_nat C))%Qc.

(** The [i]-th inner bin edge of the quantizer. *)
Definition bin_edge (levels i : Z) : Qc := (py_float i / py_float levels)%Qc.

(** ** What one instance adds to the running maps

    The loop bodies above, read as pure functions of the instance id:
    the mask and the masked energy of the instance, the merge of both
    into the state, and the exception every turn raises when the call is
    ill-formed.  The properties below show that the loop bodies compute
    exactly these. *)

Section Contributions.

Context {P : Primitives}.

Definition dt_mask (label : ndarray Z) (erosion : Z)
  (footprint : option (ndarray bool)) (idx : Z) : ndarray bool :=
  let temp2 := remove_small_holes (amap (fun l => l =? idx) label) 16 1 in
  if 0 <? erosion then
    match footprint with
    | Some fp => binary_erosion temp2 fp
    | None => temp2
    end
  else temp2.

Definition amax_value (a : ndarray Qc) : Qc :=
  match amax a with
  | OK m => m
  | Raise _ => 0%Qc
  end.

Definition dt_energy (label : ndarray Z) (resolution : list Qc) (erosion : Z)
  (footprint : option (ndarray bool)) (idx : Z) : list Qc :=
  let temp2 := dt_mask label erosion footprint idx in
  let boundary_edt := edt temp2 resolution in
  let m := amax_value boundary_edt in
  zip_with Qcmult (map (fun d => (d / (m + eps))%Qc) (data boundary_edt))
           (map b2f (data temp2)).

Definition dt_merge (label : ndarray Z) (resolution : list Qc) (erosion : Z)
  (footprint : option (ndarray bool)) (st : ndarray Qc * ndarray Z) (idx : Z)
  : ndarray Qc * ndarray Z :=
  (NdArray (shape (fst st))
     (zip_with maximum (data (fst st))
               (dt_energy label resolution erosion footprint idx)),
   NdArray (shape (snd st))
     (zip_with uint8_add (data (snd st))
               (map b2u8 (data (dt_mask label erosion footprint idx))))).

Definition dt_step_error (label : ndarray Z) (resolution : list Qc)
  (erosion : Z) (footprint : option (ndarray bool)) : option exn :=
  if (0 <? erosion) && (match footprint with None => true | Some _ => false end)
  then Some UnboundLocalError
  else if Nat.eqb (length resolution) (ndim (atleast_1d label)) then
         if Nat.eqb (ndim label) 0 then Some ValueError else None
  else Some RuntimeError.

Definition sdt_step_error (label : ndarray Z) (resolution : list Qc)
  : option exn :=
  if Nat.eqb (length resolution) (ndim (atleast_1d label)) then
    if Nat.eqb (ndim label) 0 then Some ValueError else None
  else Some RuntimeError.

(** The pair ([binary], [temp2]) of one turn of the skeleton-aware
    loop. *)
Definition sdt_masks (label : ndarray Z) (smooth smooth_skeleton_only : bool)
  (idx : Z) : ndarray bool * ndarray bool :=
  let temp2 := remove_small_holes (amap (fun l => l =? idx) label) 16 1 in
  if smooth then
    let binary := smooth_edge temp2 (lit 2 1) (lit 1 2) in
    if mask_sum binary <=? 32 then (temp2, temp2)
    else if smooth_skeleton_only then
           (NdArray (shape binary) (zip_with andb (data binary) (data temp2)),
            temp2)
         else (binary, binary)
  else (temp2, temp2).

Definition sdt_energy (label : ndarray Z) (resolution : list Qc) (alpha : Qc)
  (smooth smooth_skeleton_only : bool) (idx : Z) : list Qc :=
  let '(binary, temp2) := sdt_masks label smooth smooth_skeleton_only idx in
  let skeleton_mask := skeletonize binary in
  let skeleton_edt := edt (amap negb skeleton_mask) resolution in
  let boundary_edt := edt temp2 resolution in
  let energy := zip_with (fun b s => (b / (s + b + eps))%Qc)
                         (data boundary_edt) (data skeleton_edt) in
  zip_with Qcmult (map (fun e => np_power e alpha) energy) (map b2f (data temp2)).

Definition sdt_merge (label : ndarray Z) (resolution : list Qc) (alpha : Qc)
  (smooth smooth_skeleton_only : bool) (st : sdt_state) (idx : Z) : sdt_state :=
  let '(skeleton, distance, semantic) := st in
  let '(binary, temp2) := sdt_masks label smooth smooth_skeleton_only idx in
  (NdArray (shape skeleton)
     (zip_with uint8_add (data skeleton) (map b2u8 (data (skeletonize binary)))),
   NdArray (shape distance)
     (zip_with maximum (data distance)
               (sdt_energy label resolution alpha smooth smooth_skeleton_only idx)),
   NdArray (shape semantic)
     (zip_with uint8_add (data semantic) (map b2u8 (data temp2)))).

End Contributions.

(** ** Further contracts

    The distance transform returns distances: no cell is negative. *)
Definition edt_nonnegative (P : Primitives) : Prop :=
  forall (m : ndarray bool) (sampling : list Qc),
    Forall (fun v => (0 <= v)%Qc) (data (edt m sampling)).

(** The exponential, as far as the softmax uses it: not negative on
    arguments up to 0, and positive at 0. *)
Definition exp_contract (P : Primitives) : Prop :=
  (forall x : Qc, (x <= 0)%Qc -> (0 <= np_exp x)%Qc) /\ (0 < np_exp 0%Qc)%Qc.

(** An energy the 'max' policy can return for [C] classes: [k / C] for a
    class [k < C], hence at least 0 and below 1. *)
Definition decoded_energy (C : nat) (v : Qc) : Prop :=
  (exists k, (k < C)%nat
             /\ v = (py_float (Z.of_nat k) / py_float (Z.of_nat C))%Qc)
  /\ (0 <= v)%Qc /\ (v < 1)%Qc.

(** A normalized energy: at least 0 and below 1. *)
Definition unit_energy (v : Qc) : Prop := (0 <= v)%Qc /\ (v < 1)%Qc.

(** A value of a returned distance map: the background value, or an
    energy strictly between 0 and 1. *)
Definition distance_value (bg_value v : Qc) : Prop :=
  v = bg_value \/ ((0 < v)%Qc /\ (v < 1)%Qc).

(** A value of an [np.uint8] array. *)
Definition uint8_value (c : Z) : Prop := 0 <= c < 256.


(** * Properties *)

(** ** Comparisons on energies *)

Lemma Qcltb_true (x y : Qc) : Qcltb x y = true <-> (x < y)%Qc.
Proof.
  unfold Qcltb. rewrite Qclt_alt.
  destruct (x ?= y)%Qc; split; intros H; congruence.
Qed.

Lemma Qcltb_false (x y : Qc) : Qcltb x y = false <-> (y <= x)%Qc.
Proof.
  split; intros H.
  - apply Qcnot_lt_le. intros Hlt. apply Qcltb_true in Hlt. congruence.
  - destruct (Qcltb x y) eqn:E; [|reflexivity].
    apply Qcltb_true in E. exfalso. exact (Qcle_not_lt _ _ H E).
Qed.

Lemma Qcleb_true (x y : Qc) : Qcleb x y = true <-> (x <= y)%Qc.
Proof.
  unfold Qcleb. rewrite Qcle_alt.
  destruct (x ?= y)%Qc; split; intros H; congruence.
Qed.

Lemma Qceqb_true (x y : Qc) : Qceqb x y = true <-> x = y.
Proof.
  unfold Qceqb. rewrite Qceq_alt.
  destruct (x ?= y)%Qc; split; intros H; congruence.
Qed.

Lemma py_float_le (i j : Z) : i <= j -> (py_float i <= py_float j)%Qc.
Proof.
  intros H. unfold Qcle, py_float. cbn [this Q2Qc].
  rewrite !Qred_correct. now rewrite <- Zle_Qle.
Qed.

Lemma py_float_lt (i j : Z) : i < j -> (py_float i < py_float j)%Qc.
Proof.
  intros H. unfold Qclt, py_float. cbn [this Q2Qc].
  rewrite !Qred_correct. now rewrite <- Zlt_Qlt.
Qed.

Lemma py_float_inv_nonneg (n : Z) : 0 < n -> (0 <= / py_float n)%Qc.
Proof.
  intros H. unfold Qcle, Qcinv, py_float. cbn [this Q2Qc].
  rewrite !Qred_correct. apply Qinv_le_0_compat.
  change 0%Q with (inject_Z 0). rewrite <- Zle_Qle. lia.
Qed.

Lemma py_float_nonzero (n : Z) : n <> 0 -> py_float n <> 0%Qc.
Proof.
  intros H E. apply H.
  assert (E' : (py_float n == 0%Qc)%Q) by (now rewrite E).
  unfold py_float in E'. cbn [this Q2Qc] in E'. rewrite !Qred_correct in E'.
  unfold Qeq in E'. simpl in E'. lia.
Qed.

Lemma ratio_le (i j n : Z) :
  0 < n -> i <= j -> (py_float i / py_float n <= py_float j / py_float n)%Qc.
Proof.
  intros Hn Hij. unfold Qcdiv.
  apply Qcmult_le_compat_r; [now apply py_float_le | now apply py_float_inv_nonneg].
Qed.

Lemma ratio_self (n : Z) : n <> 0 -> (py_float n / py_float n)%Qc = 1%Qc.
Proof. intros H. unfold Qcdiv. apply Qcmult_inv_r. now apply py_float_nonzero. Qed.

Lemma ratio_zero (n : Z) : (py_float 0 / py_float n)%Qc = 0%Qc.
Proof. unfold Qcdiv. change (py_float 0) with 0%Qc. ring. Qed.

(** ** The quantizer *)

Lemma fold_left_snoc {A B : Type} (f : B -> A) (l : list B) (init : list A) :
  fold_left (fun acc i => acc ++ [f i]) l init = init ++ map f l.
Proof.
  revert init. induction l as [|b l IH]; intros init; simpl.
  - now rewrite app_nil_r.
  - rewrite IH. now rewrite <- app_assoc.
Qed.

Lemma quantize_bins_eq (levels : Z) :
  quantize_bins levels
  = lit (-1) 1 :: map (bin_edge levels) (range levels) ++ [lit 11 10].
Proof.
  unfold quantize_bins.
  rewrite (fold_left_snoc (fun i => (py_float i / py_float levels)%Qc)).
  reflexivity.
Qed.

Lemma in_range (n i : Z) : In i (range n) <-> 0 <= i < n.
Proof.
  unfold range. rewrite in_map_iff. split.
  - intros [k [<- Hk]]. apply in_seq in Hk. lia.
  - intros H. exists (Z.to_nat i). split; [lia|]. apply in_seq. lia.
Qed.

Lemma length_range (n : Z) : length (range n) = Z.to_nat n.
Proof. unfold range. now rewrite length_map, length_seq. Qed.

Lemma bin_edge_bounds (levels i : Z) :
  0 <= i < levels ->
  (0 <= bin_edge levels i)%Qc
  /\ (bin_edge levels i <= bin_edge levels (levels - 1))%Qc
  /\ (bin_edge levels i <= 1)%Qc.
Proof.
  intros H. unfold bin_edge. repeat split.
  - rewrite <- (ratio_zero levels). apply ratio_le; lia.
  - apply ratio_le; lia.
  - rewrite <- (ratio_self levels) by lia. apply ratio_le; lia.
Qed.

Lemma searchsorted_right_mono (bins : list Qc) (x y : Qc) :
  (x <= y)%Qc -> (searchsorted_right bins x <= searchsorted_right bins y)%nat.
Proof.
  intros Hxy. induction bins as [|b bs IH]; simpl; [lia|].
  destruct (Qcltb y b) eqn:Ey.
  - apply Qcltb_true in Ey.
    assert (Ex : Qcltb x b = true)
      by (apply Qcltb_true; eapply Qcle_lt_trans; eassumption).
    rewrite Ex. lia.
  - destruct (Qcltb x b); lia.
Qed.

Lemma searchsorted_right_length (bins : list Qc) (x : Qc) :
  (searchsorted_right bins x <= length bins)%nat.
Proof.
  induction bins as [|b bs IH]; simpl; [lia|].
  destruct (Qcltb x b); simpl; lia.
Qed.

Lemma searchsorted_right_app (l1 l2 : list Qc) (x : Qc) :
  Forall (fun b => (b <= x)%Qc) l1 ->
  searchsorted_right (l1 ++ l2) x = (length l1 + searchsorted_right l2 x)%nat.
Proof.
  induction 1 as [|b l1 Hb _ IH]; simpl; [reflexivity|].
  apply Qcltb_false in Hb. now rewrite Hb, IH.
Qed.

Lemma searchsorted_right_below (b : Qc) (bs : list Qc) (x : Qc) :
  (x < b)%Qc -> searchsorted_right (b :: bs) x = O.
Proof. intros H. simpl. apply Qcltb_true in H. now rewrite H. Qed.

Lemma nondecreasing_chain (g : nat -> Qc) (b : Qc) (n s : nat) (a : Qc) :
  (a <= b)%Qc ->
  (n <> O -> (a <= g s)%Qc) ->
  (forall k, (s <= k < s + n)%nat -> (g k <= g (S k))%Qc /\ (g k <= b)%Qc) ->
  nondecreasing (a :: map g (seq s n) ++ [b]) = true.
Proof.
  revert s a. induction n as [|n IH]; intros s a Hab Ha Hg.
  - simpl. apply andb_true_intro. split; [now apply Qcleb_true | reflexivity].
  - change (nondecreasing (a :: g s :: map g (seq (S s) n) ++ [b]))
      with (Qcleb a (g s) && nondecreasing (g s :: map g (seq (S s) n) ++ [b])).
    apply andb_true_intro. split.
    + apply Qcleb_true. apply Ha. discriminate.
    + apply IH.
      * apply Hg. lia.
      * intros _. apply Hg. lia.
      * intros k Hk. apply Hg. lia.
Qed.

Lemma minus_one_le_zero : (lit (-1) 1 <= 0)%Qc.
Proof. now apply Qcleb_true. Qed.

Lemma one_le_top : (1 <= lit 11 10)%Qc.
Proof. now apply Qcleb_true. Qed.

Lemma minus_one_lt_top : (lit (-1) 1 < lit 11 10)%Qc.
Proof. now apply Qcltb_true. Qed.

(** The bin edges are increasing for every [levels], so [np.digitize]
    accepts them. *)
Lemma quantize_bins_nondecreasing (levels : Z) :
  nondecreasing (quantize_bins levels) = true.
Proof.
  rewrite quantize_bins_eq. unfold range. rewrite map_map.
  apply nondecreasing_chain.
  - apply Qclt_le_weak, minus_one_lt_top.
  - intros Hn. cbv beta. unfold bin_edge. change (Z.of_nat 0) with 0.
    rewrite ratio_zero. apply minus_one_le_zero.
  - intros k Hk. cbv beta. split.
    + unfold bin_edge. apply ratio_le; lia.
    + eapply Qcle_trans; [|apply one_le_top].
      apply bin_edge_bounds. lia.
Qed.

Lemma energy_quantize_eq (x : Qc) (levels : Z) :
  energy_quantize x levels
  = OK (Z.of_nat (searchsorted_right (quantize_bins levels) x) - 1).
Proof.
  unfold energy_quantize, np_digitize, monotonicity.
  now rewrite quantize_bins_nondecreasing.
Qed.


Lemma inner_bins_below (levels : Z) (x : Qc) :
  (bin_edge levels (levels - 1) <= x)%Qc ->
  Forall (fun b => (b <= x)%Qc) (map (bin_edge levels) (range levels)).
Proof.
  intros Hx. apply Forall_forall. intros b Hb.
  apply in_map_iff in Hb. destruct Hb as [i [<- Hi]].
  apply in_range in Hi. eapply Qcle_trans; [|exact Hx].
  now apply bin_edge_bounds.
Qed.

(** Every energy from the last inner edge up to (not including) 1.1 falls
    into the top class. *)
Lemma energy_quantize_top (levels : Z) (x : Qc) :
  1 <= levels ->
  (bin_edge levels (levels - 1) <= x)%Qc -> (x < lit 11 10)%Qc ->
  energy_quantize x levels = OK levels.
Proof.
  intros HL Hlo Hhi. rewrite energy_quantize_eq, quantize_bins_eq.
  assert (H0 : (0 <= x)%Qc).
  { eapply Qcle_trans; [|exact Hlo]. apply bin_edge_bounds. lia. }
  change (lit (-1) 1 :: map (bin_edge levels) (range levels) ++ [lit 11 10])
    with ([lit (-1) 1] ++ map (bin_edge levels) (range levels) ++ [lit 11 10]).
  rewrite searchsorted_right_app.
  2:{ constructor; [|constructor].
      eapply Qcle_trans; [apply minus_one_le_zero | exact H0]. }
  rewrite searchsorted_right_app by now apply inner_bins_below.
  rewrite searchsorted_right_below by assumption.
  rewrite length_map, length_range. simpl length. f_equal. lia.
Qed.

Lemma energy_quantize_bottom (levels : Z) :
  energy_quantize (lit (-1) 1) levels = OK 0.
Proof.
  rewrite energy_quantize_eq, quantize_bins_eq.
  change (lit (-1) 1 :: map (bin_edge levels) (range levels) ++ [lit 11 10])
    with ([lit (-1) 1] ++ map (bin_edge levels) (range levels) ++ [lit 11 10]).
  rewrite searchsorted_right_app.
  2:{ constructor; [apply Qcle_refl | constructor]. }
  unfold range. destruct (Z.to_nat levels) as [|n] eqn:E.
  - reflexivity.
  - simpl map. unfold bin_edge at 1. change (Z.of_nat 0) with 0.
    rewrite ratio_zero. reflexivity.
Qed.

Lemma searchsorted_right_last (l : list Qc) (b x : Qc) :
  (x < b)%Qc -> (searchsorted_right (l ++ [b]) x <= length l)%nat.
Proof.
  intros H. induction l as [|a l IH]; simpl.
  - apply Qcltb_true in H. rewrite H. lia.
  - destruct (Qcltb x a); lia.
Qed.



Lemma energy_quantize_in_range (levels : Z) (x : Qc) :
  0 <= levels -> (lit (-1) 1 <= x)%Qc -> (x < lit 11 10)%Qc ->
  exists c, energy_quantize x levels = OK c /\ 0 <= c <= levels.
Proof.
  intros HL Hlo Hhi. rewrite energy_quantize_eq. eexists. split; [reflexivity|].
  rewrite quantize_bins_eq.
  pose proof (searchsorted_right_last
                (lit (-1) 1 :: map (bin_edge levels) (range levels))
                (lit 11 10) x Hhi) as Hup.
  simpl length in Hup. rewrite length_map, length_range in Hup.
  change ((lit (-1) 1 :: map (bin_edge levels) (range levels)) ++ [lit 11 10])
    with (lit (-1) 1 :: map (bin_edge levels) (range levels) ++ [lit 11 10])
    in Hup.
  assert (Hlow : (1 <= searchsorted_right
                     (lit (-1) 1 :: map (bin_edge levels) (range levels)
                                 ++ [lit 11 10]) x)%nat).
  { simpl. apply Qcltb_false in Hlo. rewrite Hlo. lia. }
  lia.
Qed.




(** C3.  For every [levels >= 1], -1.0 gets the class 0, 1.0 gets the
    class [levels], and so does every energy in
    [(levels-1)/levels, 1.1). *)
Theorem energy_quantize_endpoints (levels : Z) (H : 1 <= levels) :
  energy_quantize (lit (-1) 1) levels = OK 0
  /\ energy_quantize 1%Qc levels = OK levels
  /\ (forall x,
        (py_float (levels - 1) / py_float levels <= x)%Qc ->
        (x < lit 11 10)%Qc ->
        energy_quantize x levels = OK levels).
Proof.
  split; [|split].
  - apply energy_quantize_bottom.
  - apply energy_quantize_top; [assumption | | now apply Qcltb_true].
    apply bin_edge_bounds. lia.
  - intros x Hlo Hhi. now apply energy_quantize_top.
Qed.

Lemma energy_quantize_endpoints_witness :
  1 <= 10
  /\ energy_quantize (lit (-1) 1) 10 = OK 0
  /\ energy_quantize 1%Qc 10 = OK 10
  /\ energy_quantize (lit 95 100) 10 = OK 10.
Proof.
  split; [lia|].
  destruct (energy_quantize_endpoints 10 ltac:(lia)) as [H0 [H1 Htop]].
  split; [exact H0|]. split; [exact H1|].
  apply Htop; [now apply Qcleb_true | now apply Qcltb_true].
Defined.

(** ** Buffers cut into blocks *)

Section Blocks.

Context {A : Type}.

Lemma chunk_app_0 (n : nat) (b r : list A) :
  length b = n -> chunk n (b ++ r) 0 = b.
Proof.
  intros H. unfold chunk. simpl.
  rewrite firstn_app, H, Nat.sub_diag. simpl.
  rewrite app_nil_r. rewrite <- H. apply firstn_all.
Qed.

Lemma chunk_app_S (n : nat) (b r : list A) (i : nat) :
  length b = n -> chunk n (b ++ r) (S i) = chunk n r i.
Proof.
  intros H. unfold chunk. f_equal.
  rewrite skipn_app, H.
  replace (S i * n - n)%nat with (i * n)%nat by lia.
  rewrite skipn_all2 by lia. reflexivity.
Qed.

(** Cutting a concatenation of blocks of one length gives the blocks
    back. *)
Lemma chunks_concat (n : nat) (bs : list (list A)) :
  Forall (fun b => length b = n) bs ->
  map (chunk n (concat bs)) (seq 0 (length bs)) = bs.
Proof.
  induction 1 as [|b bs Hb _ IH]; [reflexivity|].
  simpl. rewrite chunk_app_0 by assumption. f_equal.
  rewrite <- seq_shift, map_map.
  rewrite <- IH at 2. apply map_ext. intros i. now apply chunk_app_S.
Qed.

Lemma flat_map_chunks {B : Type} (h : list A -> list B) (n : nat)
  (bs : list (list A)) :
  Forall (fun b => length b = n) bs ->
  flat_map (fun i => h (chunk n (concat bs) i)) (seq 0 (length bs))
  = flat_map h bs.
Proof.
  intros H. rewrite !flat_map_concat_map.
  rewrite <- (map_map (chunk n (concat bs)) h).
  now rewrite chunks_concat.
Qed.

Lemma nth_concat_block (n : nat) (bs : list (list A)) (c j : nat) (d : A) :
  Forall (fun b => length b = n) bs ->
  (j < n)%nat ->
  nth (c * n + j) (concat bs) d = nth j (nth c bs []) d.
Proof.
  intros H Hj. revert c. induction H as [|b bs Hb _ IH]; intros c.
  - simpl. destruct (c * n + j)%nat; destruct c; destruct j; reflexivity.
  - destruct c as [|c]; simpl.
    + apply app_nth1. lia.
    + rewrite app_nth2 by lia. rewrite Hb.
      replace (n + c * n + j - n)%nat with (c * n + j)%nat by lia.
      apply IH.
Qed.

Lemma length_concat_blocks (n : nat) (bs : list (list A)) :
  Forall (fun b => length b = n) bs ->
  length (concat bs) = (length bs * n)%nat.
Proof.
  induction 1 as [|b bs Hb _ IH]; [reflexivity|].
  simpl. rewrite length_app, IH, Hb. reflexivity.
Qed.

Lemma map_nth_seq (l : list A) (d : A) :
  map (fun j => nth j l d) (seq 0 (length l)) = l.
Proof.
  induction l as [|a l IH]; [reflexivity|].
  simpl. f_equal. rewrite <- seq_shift, map_map. exact IH.
Qed.

End Blocks.

(** ** Decoding a one-hot encoding *)

Lemma one_hot_cell_eq (k : nat) : one_hot_cell k k = 1%Qc.
Proof. unfold one_hot_cell. now rewrite Nat.eqb_refl. Qed.

Lemma one_hot_cell_ne (k c : nat) : c <> k -> one_hot_cell k c = 0%Qc.
Proof.
  intros H. unfold one_hot_cell. now destruct (Nat.eqb_spec c k).
Qed.

Lemma Qcltb_irrefl (x : Qc) : Qcltb x x = false.
Proof. apply Qcltb_false, Qcle_refl. Qed.

Lemma Qcltb_0_1 : Qcltb 0%Qc 1%Qc = true.
Proof. reflexivity. Qed.

Lemma Qcltb_1_0 : Qcltb 1%Qc 0%Qc = false.
Proof. reflexivity. Qed.

Lemma argmax_from_top (k bi i s n : nat) :
  argmax_from bi 1%Qc i (map (one_hot_cell k) (seq s n)) = bi.
Proof.
  revert i s. induction n as [|n IH]; intros i s; [reflexivity|].
  simpl. destruct (Nat.eq_dec s k) as [->|Hne].
  - rewrite one_hot_cell_eq, Qcltb_irrefl. apply IH.
  - rewrite one_hot_cell_ne by assumption. rewrite Qcltb_1_0. apply IH.
Qed.

Lemma argmax_from_zero (k bi i n : nat) :
  (i <= k < i + n)%nat ->
  argmax_from bi 0%Qc i (map (one_hot_cell k) (seq i n)) = k.
Proof.
  revert bi i. induction n as [|n IH]; intros bi i Hk; [lia|].
  simpl. destruct (Nat.eq_dec i k) as [->|Hne].
  - rewrite one_hot_cell_eq, Qcltb_0_1. apply argmax_from_top.
  - rewrite one_hot_cell_ne by assumption. rewrite Qcltb_irrefl.
    apply IH. lia.
Qed.

Lemma argmax_one_hot (C k : nat) :
  (k < C)%nat -> argmax (map (one_hot_cell k) (seq 0 C)) = k.
Proof.
  intros Hk. destruct C as [|C]; [lia|].
  simpl. destruct (Nat.eq_dec 0 k) as [<-|Hne].
  - rewrite one_hot_cell_eq. apply argmax_from_top.
  - rewrite one_hot_cell_ne by assumption. apply argmax_from_zero. lia.
Qed.

Lemma length_one_hot_rows (C : nat) (ks : list nat) :
  length (one_hot_rows C ks) = (C * length ks)%nat.
Proof.
  unfold one_hot_rows. rewrite flat_map_concat_map.
  rewrite (length_concat_blocks (length ks)).
  - now rewrite length_map, length_seq.
  - apply Forall_forall. intros b Hb. apply in_map_iff in Hb.
    destruct Hb as [c [<- _]]. apply length_map.
Qed.

Lemma column_one_hot (C : nat) (ks : list nat) (j : nat) :
  (j < length ks)%nat ->
  column C (length ks) (one_hot_rows C ks) j
  = map (one_hot_cell (nth j ks O)) (seq 0 C).
Proof.
  intros Hj. unfold column. apply map_ext_in. intros c Hc.
  apply in_seq in Hc. unfold one_hot_rows. rewrite flat_map_concat_map.
  rewrite (nth_concat_block (length ks)); [| |assumption].
  - rewrite (nth_indep _ [] (map (fun k => if Nat.eqb 0 k then 1%Qc else 0%Qc) ks))
      by (rewrite length_map, length_seq; lia).
    rewrite (map_nth (fun c => map (fun k => if Nat.eqb c k then 1%Qc else 0%Qc) ks)
                     (seq 0 C) O c).
    rewrite seq_nth by lia. simpl.
    rewrite (nth_indep _ 0%Qc ((fun k => if Nat.eqb c k then 1%Qc else 0%Qc) O))
      by (rewrite length_map; lia).
    rewrite (map_nth (fun k => if Nat.eqb c k then 1%Qc else 0%Qc) ks O j).
    reflexivity.
  - apply Forall_forall. intros b Hb. apply in_map_iff in Hb.
    destruct Hb as [c' [<- _]]. apply length_map.
Qed.

Lemma argmax_columns_one_hot (C : nat) (ks : list nat) :
  Forall (fun k => (k < C)%nat) ks ->
  reduce_axis0 argmax C (length ks) (one_hot_rows C ks) = ks.
Proof.
  intros H. unfold reduce_axis0.
  transitivity (map (fun j => nth j ks O) (seq 0 (length ks)));
    [|apply map_nth_seq].
  apply map_ext_in. intros j Hj. apply in_seq in Hj.
  rewrite column_one_hot by lia.
  apply argmax_one_hot.
  rewrite Forall_forall in H. apply H. apply nth_In. lia.
Qed.

Lemma flat_map_ext_in {A B : Type} (f g : A -> list B) (l : list A) :
  (forall x, In x l -> f x = g x) -> flat_map f l = flat_map g l.
Proof.
  intros H. induction l as [|a l IH]; [reflexivity|].
  simpl. rewrite (H a) by now left. f_equal.
  apply IH. intros x Hx. apply H. now right.
Qed.

Lemma map_flat_map {A B C : Type} (f : B -> C) (g : A -> list B) (l : list A) :
  map f (flat_map g l) = flat_map (fun x => map f (g x)) l.
Proof.
  induction l as [|a l IH]; [reflexivity|].
  simpl. now rewrite map_app, IH.
Qed.

Section DecodeFacts.

Context {P : Primitives}.

Lemma decode_max_one_hot_numpy (C : nat) (rest : list nat) (ks : list nat) :
  (0 < C)%nat ->
  length ks = size_of rest ->
  Forall (fun k => (k < C)%nat) ks ->
  decode_quantize (NumpyArray (one_hot_numpy C rest ks)) "max"
  = OK (NdArray rest (map (class_energy C) ks)).
Proof.
  intros HC Hlen Hks. unfold decode_quantize. simpl.
  unfold _decode_quant_numpy, one_hot_numpy. simpl.
  destruct (Nat.eqb_spec C 0) as [->|_]; [lia|].
  unfold amap. simpl. fold (size_of rest). rewrite <- Hlen.
  now rewrite argmax_columns_one_hot.
Qed.

Lemma decode_max_one_hot_torch (C : nat) (rest : list nat)
  (kss : list (list nat)) :
  (0 < C)%nat ->
  Forall (fun ks => length ks = size_of rest
                    /\ Forall (fun k => (k < C)%nat) ks) kss ->
  decode_quantize (TorchTensor (one_hot_torch C rest kss)) "max"
  = OK (NdArray (length kss :: rest) (flat_map (map (class_energy C)) kss)).
Proof.
  intros HC Hkss. unfold decode_quantize. simpl.
  unfold _decode_quant_torch, one_hot_torch. simpl.
  destruct (Nat.eqb_spec C 0) as [->|_]; [lia|].
  unfold amap. simpl. fold (size_of rest). do 2 f_equal.
  rewrite (flat_map_concat_map (one_hot_rows C) kss).
  rewrite <- (length_map (one_hot_rows C) kss) at 1.
  rewrite (flat_map_chunks (reduce_axis0 argmax C (size_of rest))).
  - rewrite flat_map_concat_map, map_map, <- flat_map_concat_map.
    rewrite map_flat_map. apply flat_map_ext_in. intros ks Hin.
    rewrite Forall_forall in Hkss. destruct (Hkss ks Hin) as [Hlen Hks].
    rewrite <- Hlen. now rewrite argmax_columns_one_hot.
  - apply Forall_forall. intros b Hb. apply in_map_iff in Hb.
    destruct Hb as [ks [<- Hin]].
    rewrite Forall_forall in Hkss. destruct (Hkss ks Hin) as [Hlen _].
    rewrite length_one_hot_rows. now rewrite Hlen.
Qed.

(** C4.  On a one-hot encoding along the class axis, the 'max' policy
    returns, at every position, the index of the 1 divided by the length
    [C] of the class axis: for a numpy array (class axis first) and for
    a torch tensor (class axis second). *)
Theorem decode_max_one_hot (C : nat) (rest : list nat) (HC : (0 < C)%nat) :
  (forall ks,
      length ks = size_of rest ->
      Forall (fun k => (k < C)%nat) ks ->
      decode_quantize (NumpyArray (one_hot_numpy C rest ks)) "max"
      = OK (NdArray rest
              (map (fun k => (py_float (Z.of_nat k) / py_float (Z.of_nat C))%Qc)
                   ks)))
  /\ (forall kss,
      Forall (fun ks => length ks = size_of rest
                        /\ Forall (fun k => (k < C)%nat) ks) kss ->
      decode_quantize (TorchTensor (one_hot_torch C rest kss)) "max"
      = OK (NdArray (length kss :: rest)
              (flat_map
                 (map (fun k => (py_float (Z.of_nat k)
                                 / py_float (Z.of_nat C))%Qc)) kss))).
Proof.
  split.
  - intros ks Hlen Hks. now apply decode_max_one_hot_numpy.
  - intros kss Hkss. now apply decode_max_one_hot_torch.
Qed.

End DecodeFacts.

(** C4 on a vector of 4 classes with the 1 at index 3, and on a batch of
    two such vectors. *)
Lemma decode_max_one_hot_witness :
  (0 < 4)%nat
  /\ decode_quantize (P := stand_in)
       (NumpyArray (NdArray [4%nat] [0%Qc; 0%Qc; 0%Qc; 1%Qc])) "max"
     = OK (NdArray [] [(py_float 3 / py_float 4)%Qc])
  /\ decode_quantize (P := stand_in)
       (TorchTensor (NdArray [2%nat; 4%nat]
                       [0%Qc; 0%Qc; 0%Qc; 1%Qc; 0%Qc; 1%Qc; 0%Qc; 0%Qc])) "max"
     = OK (NdArray [2%nat] [(py_float 3 / py_float 4)%Qc;
                            (py_float 1 / py_float 4)%Qc]).
Proof.
  split; [lia|].
  destruct (decode_max_one_hot (P := stand_in) 4 [] ltac:(lia)) as [Hn Ht].
  split.
  - apply (Hn [3%nat]); [reflexivity | repeat constructor].
  - apply (Ht [[3%nat]; [1%nat]]); repeat constructor.
Defined.

(** ** Where assertions can fail *)

Lemma bind_not_assertion {A B : Type} (r : result A) (k : A -> result B) :
  r <> Raise AssertionError ->
  (forall a, k a <> Raise AssertionError) ->
  bind r k <> Raise AssertionError.
Proof.
  intros Hr Hk. destruct r as [a|e]; simpl; [apply Hk|].
  intros H. apply Hr. congruence.
Qed.

Lemma mapM_not_assertion {A B : Type} (f : A -> result B) (l : list A) :
  (forall x, f x <> Raise AssertionError) ->
  mapM f l <> Raise AssertionError.
Proof.
  intros Hf. induction l as [|x l IH]; simpl; [discriminate|].
  apply bind_not_assertion; [apply Hf|]. intros y.
  apply bind_not_assertion; [exact IH|]. discriminate.
Qed.

Lemma foldM_not_assertion {S A : Type} (step : S -> A -> result S)
  (l : list A) (s : S) :
  (forall s a, step s a <> Raise AssertionError) ->
  foldM step l s <> Raise AssertionError.
Proof.
  intros Hstep. unfold foldM.
  assert (H : forall r : result S,
             r <> Raise AssertionError ->
             fold_left (fun r a => s' <- r ;; step s' a) l r
             <> Raise AssertionError).
  { induction l as [|a l IH]; intros r Hr; simpl; [exact Hr|].
    apply IH. apply bind_not_assertion; [exact Hr|]. intros s'. apply Hstep. }
  apply H. discriminate.
Qed.

Lemma azip_not_assertion {A B C : Type} (f : A -> B -> C)
  (a : ndarray A) (b : ndarray B) : azip f a b <> Raise AssertionError.
Proof. unfold azip. destruct (shape_eqb _ _); discriminate. Qed.

Lemma shape0_not_assertion {A : Type} (a : ndarray A) :
  shape0 a <> Raise AssertionError.
Proof. unfold shape0. destruct (shape a); discriminate. Qed.

Lemma np_stack_not_assertion {A : Type} (l : list (ndarray A)) :
  np_stack l <> Raise AssertionError.
Proof.
  unfold np_stack. destruct l; [discriminate|].
  destruct (forallb _ _); discriminate.
Qed.

Lemma amax_not_assertion (a : ndarray Qc) : amax a <> Raise AssertionError.
Proof. unfold amax. destruct (data a); discriminate. Qed.

Lemma energy_quantize_array_not_assertion (e : ndarray Qc) (levels : Z) :
  energy_quantize_array e levels <> Raise AssertionError.
Proof.
  unfold energy_quantize_array.
  apply bind_not_assertion; [|discriminate].
  apply mapM_not_assertion. intros x. rewrite energy_quantize_eq. discriminate.
Qed.

Lemma str_in_true (s : string) (l : list string) :
  str_in s l = true <-> In s l.
Proof.
  unfold str_in. rewrite existsb_exists. split.
  - intros [x [Hx E]]. apply String.eqb_eq in E. now subst.
  - intros H. exists s. split; [assumption | apply String.eqb_refl].
Qed.

Lemma str_in_false (s : string) (l : list string) :
  str_in s l = false <-> ~ In s l.
Proof.
  rewrite <- str_in_true. destruct (str_in s l); split; congruence.
Qed.

(** The steps of a [bind] chain that cannot raise [AssertionError]. *)
Ltac no_assertion :=
  repeat first
    [ apply azip_not_assertion
    | apply shape0_not_assertion
    | apply np_stack_not_assertion
    | apply amax_not_assertion
    | apply energy_quantize_array_not_assertion
    | discriminate
    | apply bind_not_assertion; [|intros]
    | apply mapM_not_assertion; intros
    | apply foldM_not_assertion; intros
    | match goal with
      | |- (if ?c then _ else _) <> _ => destruct c
      | |- (let (_, _) := ?p in _) <> _ => destruct p
      | |- match ?o with Some _ => _ | None => _ end <> _ => destruct o
      | |- match ?l with [] => _ | _ :: _ => _ end <> _ => destruct l
      end ].

Section AssertionFacts.

Context {P : Primitives}.

Lemma distance_transform_edt_not_assertion (m : ndarray bool) (s : list Qc) :
  distance_transform_edt m s <> Raise AssertionError.
Proof. unfold distance_transform_edt. no_assertion. Qed.

Lemma _edt_binary_mask_not_assertion (m : ndarray bool) (r : list Qc) (a : Qc) :
  _edt_binary_mask m r a <> Raise AssertionError.
Proof.
  unfold _edt_binary_mask. destruct (forallb _ _); [discriminate|].
  apply bind_not_assertion; [apply distance_transform_edt_not_assertion|].
  discriminate.
Qed.

Lemma select_indices_not_assertion (l : list Z) :
  select_indices l <> Raise AssertionError.
Proof. unfold select_indices. no_assertion. Qed.

Lemma distance_transform_step_not_assertion label resolution erosion fp st idx :
  distance_transform_step label resolution erosion fp st idx
  <> Raise AssertionError.
Proof.
  unfold distance_transform_step. destruct st as [distance semantic].
  apply bind_not_assertion; [no_assertion|]. intros temp2.
  apply bind_not_assertion; [no_assertion|]. intros semantic'.
  apply bind_not_assertion; [apply distance_transform_edt_not_assertion|].
  intros boundary_edt. no_assertion.
Qed.

Lemma distance_transform_not_assertion label bg relabel padding resolution erosion :
  distance_transform label bg relabel padding resolution erosion
  <> Raise AssertionError.
Proof.
  unfold distance_transform, distance_transform_in_order.
  apply bind_not_assertion; [apply select_indices_not_assertion|].
  intros [indices all_bg]. apply bind_not_assertion; [|discriminate].
  destruct (negb all_bg); [|discriminate].
  apply foldM_not_assertion. intros s a.
  apply distance_transform_step_not_assertion.
Qed.

Lemma quantize_out_not_assertion (q : bool) (d : ndarray Qc) :
  quantize_out q d <> Raise AssertionError.
Proof. unfold quantize_out. no_assertion. Qed.

Lemma _decode_quant_numpy_not_assertion (a : ndarray Qc) (mode : string) :
  _decode_quant_numpy a mode <> Raise AssertionError.
Proof. unfold _decode_quant_numpy. no_assertion. Qed.

Lemma _decode_quant_torch_not_assertion (a : ndarray Qc) (mode : string) :
  _decode_quant_torch a mode <> Raise AssertionError.
Proof.
  unfold _decode_quant_torch.
  destruct (String.eqb mode "max"); [|destruct (String.eqb mode "mean")];
    [| |discriminate];
    (destruct (shape a) as [|B [|C rest]]; [discriminate | discriminate |]);
    no_assertion.
Qed.

(** C8.  [decode_quantize] stops at its assertions exactly when the mode
    is neither 'max' nor 'mean' or the container is neither a torch tensor
    nor a numpy array; [edt_semantic] and [edt_instance] stop at their
    assertion exactly when the mode is neither '2d' nor '3d'.  With
    supported tags no assertion fails. *)
Theorem assertions_guard_exactly_the_tags :
  (forall output mode,
      decode_quantize output mode = Raise AssertionError
      <-> (~ In mode ["max"; "mean"]%string
           \/ exists type_name, output = OtherObject type_name))
  /\ (forall label mode alpha_fore alpha_back,
      edt_semantic label mode alpha_fore alpha_back = Raise AssertionError
      <-> ~ In mode ["2d"; "3d"]%string)
  /\ (forall label mode quantize resolution padding erosion,
      edt_instance label mode quantize resolution padding erosion
      = Raise AssertionError
      <-> ~ In mode ["2d"; "3d"]%string).
Proof.
  split; [|split].
  - intros output mode. unfold decode_quantize.
    destruct (str_in mode ["max"; "mean"]%string) eqn:E.
    + apply str_in_true in E. destruct output as [t|a|n]; simpl.
      * split; [intros H; now apply _decode_quant_torch_not_assertion in H|].
        intros [H|[n H]]; [contradiction | discriminate].
      * split; [intros H; now apply _decode_quant_numpy_not_assertion in H|].
        intros [H|[n H]]; [contradiction | discriminate].
      * split; [intros _; right; now exists n | reflexivity].
    + apply str_in_false in E. destruct output as [t|a|n]; simpl;
        (split; [intros _; now left | reflexivity]).
  - intros label mode af ab. unfold edt_semantic.
    destruct (str_in mode ["2d"; "3d"]%string) eqn:E.
    + apply str_in_true in E. simpl. split; [|intros H; contradiction].
      intros H. exfalso. revert H.
      apply bind_not_assertion.
      * destruct (_ || _).
        -- apply bind_not_assertion; [apply _edt_binary_mask_not_assertion|].
           intros fe. apply bind_not_assertion;
             [apply _edt_binary_mask_not_assertion | discriminate].
        -- apply bind_not_assertion; [apply shape0_not_assertion|]. intros n.
           apply bind_not_assertion;
             [apply mapM_not_assertion; intros;
              apply _edt_binary_mask_not_assertion|]. intros fs.
           apply bind_not_assertion;
             [apply mapM_not_assertion; intros;
              apply _edt_binary_mask_not_assertion|]. intros bs.
           no_assertion.
      * intros [fe be]. no_assertion.
    + apply str_in_false in E. simpl. split; [intros _; exact E | reflexivity].
  - intros label mode q res pad er. unfold edt_instance.
    destruct (str_in mode ["2d"; "3d"]%string) eqn:E.
    + apply str_in_true in E. simpl. split; [|intros H; contradiction].
      intros H. exfalso. revert H.
      destruct (String.eqb mode "3d").
      * apply bind_not_assertion; [apply distance_transform_not_assertion|].
        intros [d s]. apply quantize_out_not_assertion.
      * apply bind_not_assertion; [apply shape0_not_assertion|]. intros n.
        apply bind_not_assertion;
          [apply mapM_not_assertion; intros;
           apply distance_transform_not_assertion|]. intros sl.
        apply bind_not_assertion; [apply np_stack_not_assertion|]. intros vd.
        apply bind_not_assertion; [apply np_stack_not_assertion|]. intros vs.
        apply quantize_out_not_assertion.
    + apply str_in_false in E. simpl. split; [intros _; exact E | reflexivity].
Qed.

(** C9.  In mode '2d' the result of [edt_instance] is the same for any
    two resolution vectors: the per-slice call does not pass the
    resolution on. *)
Theorem edt_instance_2d_ignores_resolution
  (label : ndarray Z) (quantize : bool) (r1 r2 : list Qc)
  (padding : bool) (erosion : Z) :
  edt_instance label "2d" quantize r1 padding erosion
  = edt_instance label "2d" quantize r2 padding erosion.
Proof.
  unfold edt_instance.
  (* the mode passes the assertion and is not '3d' *)
  change (str_in "2d" ["2d"; "3d"]%string) with true.
  change (String.eqb "2d" "3d") with false.
  cbn [assert bind].
  (* what is left does not mention the resolution *)
  reflexivity.
Qed.

End AssertionFacts.

(** ** The 'mean' policy *)

Lemma length_mean_bins : length mean_bins = 11%nat.
Proof. reflexivity. Qed.

Lemma broadcast_rows_mismatch (C : nat) :
  C <> 11%nat -> C <> 1%nat -> broadcast_rows C 11 = None.
Proof.
  intros H11 H1. unfold broadcast_rows.
  destruct (Nat.eqb_spec C 11); [contradiction|].
  destruct (Nat.eqb_spec C 1); [contradiction|]. reflexivity.
Qed.

Lemma length_flat_map_const {A B : Type} (f : A -> list B) (n : nat) (l : list A) :
  (forall x, In x l -> length (f x) = n) ->
  length (flat_map f l) = (length l * n)%nat.
Proof.
  intros H. rewrite flat_map_concat_map.
  rewrite (length_concat_blocks n); [now rewrite length_map|].
  apply Forall_forall. intros b Hb. apply in_map_iff in Hb.
  destruct Hb as [x [<- Hx]]. now apply H.
Qed.

Lemma length_broadcast_mul (C N : nat) (pred bins : list Qc) (R : nat) :
  length (broadcast_mul C N pred bins R) = (R * N)%nat.
Proof.
  unfold broadcast_mul. rewrite (length_flat_map_const _ N).
  - now rewrite length_seq.
  - intros r _. now rewrite length_map, length_seq.
Qed.

Section MeanFacts.

Context {P : Primitives}.

(** C10.  The 'mean' policy multiplies by a fixed vector of 11 bin
    centers, [0.1 * (k - 1)] for [k] in 0..10.  An input whose class axis
    has a length other than 11 and 1 passes the assertions of
    [decode_quantize] and then fails in the product: [ValueError] for a
    numpy array, [RuntimeError] for a torch tensor.  With 11 classes the
    numpy path returns an array of the remaining axes. *)
Theorem decode_mean_needs_eleven_classes :
  mean_bins
  = [lit (-1) 10; 0%Qc; lit 1 10; lit 2 10; lit 3 10; lit 4 10; lit 5 10;
     lit 6 10; lit 7 10; lit 8 10; lit 9 10]
  /\ (forall C rest d,
        C <> 11%nat -> C <> 1%nat ->
        decode_quantize (NumpyArray (NdArray (C :: rest) d)) "mean"
        = Raise ValueError)
  /\ (forall B C rest d,
        C <> 11%nat -> C <> 1%nat ->
        decode_quantize (TorchTensor (NdArray (B :: C :: rest) d)) "mean"
        = Raise RuntimeError)
  /\ (forall rest d,
        exists e,
          decode_quantize (NumpyArray (NdArray (11%nat :: rest) d)) "mean"
          = OK (NdArray rest e)).
Proof.
  split; [|split; [|split]].
  - unfold mean_bins. simpl. repeat (f_equal; try (apply Qc_is_canon; reflexivity)).
  - intros C rest d H11 H1. unfold decode_quantize. simpl.
    unfold _decode_quant_numpy. simpl.
    destruct (Nat.eqb C 0); [reflexivity|].
    now rewrite broadcast_rows_mismatch.
  - intros B C rest d H11 H1. unfold decode_quantize. simpl.
    unfold _decode_quant_torch. simpl.
    destruct (Nat.eqb (B * C) 0); [reflexivity|].
    now rewrite broadcast_rows_mismatch.
  - intros rest d. unfold decode_quantize. simpl.
    unfold _decode_quant_numpy.
    cbn [String.eqb Ascii.eqb Bool.eqb shape data Nat.eqb].
    rewrite length_mean_bins.
    cbn [broadcast_rows Nat.eqb].
    rewrite length_broadcast_mul.
    change (size_of (11%nat :: rest)) with (11 * size_of rest)%nat.
    rewrite Nat.eqb_refl. eexists. reflexivity.
Qed.

End MeanFacts.

(** C10 at class axes of length 3: both containers fail in the
    product. *)
Lemma decode_mean_needs_eleven_classes_witness :
  decode_quantize (P := stand_in)
    (NumpyArray (NdArray [3%nat] [0%Qc; 1%Qc; 0%Qc])) "mean"
  = Raise ValueError
  /\ decode_quantize (P := stand_in)
       (TorchTensor (NdArray [1%nat; 3%nat] [0%Qc; 1%Qc; 0%Qc])) "mean"
     = Raise RuntimeError.
Proof.
  destruct (decode_mean_needs_eleven_classes (P := stand_in))
    as [_ [Hn [Ht _]]].
  split.
  - apply (Hn 3%nat []); discriminate.
  - apply (Ht 1%nat 3%nat []); discriminate.
Defined.

(** ** Padding and unpadding *)

Section Padding.

Context {A : Type}.

Lemma length_chunk (inner n : nat) (d : list A) (j : nat) :
  length d = (n * inner)%nat -> (j < n)%nat ->
  length (chunk inner d j) = inner.
Proof.
  intros Hd Hj. unfold chunk. rewrite length_firstn, length_skipn, Hd.
  apply Nat.min_l. nia.
Qed.





Lemma size_of_cons (n : nat) (sh : list nat) :
  size_of (n :: sh) = (n * size_of sh)%nat.
Proof. reflexivity. Qed.

Lemma length_pad_data (m : nat) (z : A) (sh : list nat) (d : list A) :
  length d = size_of sh ->
  length (pad_data m z sh d) = size_of (map (fun k => k + 2 * m)%nat sh).
Proof.
  revert d. induction sh as [|n sh IH]; intros d Hd; [exact Hd|].
  rewrite size_of_cons in Hd. cbn [pad_data map]. rewrite size_of_cons.
  rewrite !length_app, !repeat_length.
  rewrite (length_flat_map_const _ (size_of (map (fun k => (k + 2 * m)%nat) sh))).
  - rewrite length_seq. lia.
  - intros i Hi. apply in_seq in Hi. apply IH.
    apply (length_chunk _ n); [exact Hd | lia].
Qed.


Lemma seq_as_map (s n : nat) : seq s n = map (Nat.add s) (seq 0 n).
Proof.
  revert s. induction n as [|n IH]; intros s; [reflexivity|].
  cbn [seq map]. rewrite Nat.add_0_r. f_equal.
  rewrite (IH (S s)), (IH 1%nat), map_map.
  apply map_ext. intros j. lia.
Qed.



Lemma unpad_pad_shape (m : nat) (sh : list nat) :
  unpad_shape (repeat (m, m) (length sh)) (map (fun k => k + 2 * m)%nat sh) = sh.
Proof.
  induction sh as [|n sh IH]; [reflexivity|].
  cbn [map length repeat unpad_shape]. rewrite IH. f_equal. lia.
Qed.


Lemma chunk_repeat (inner n : nat) (v : A) (j : nat) :
  (j < n)%nat -> chunk inner (repeat v (n * inner)) j = repeat v inner.
Proof.
  intros Hj. unfold chunk.
  replace (n * inner)%nat with (j * inner + (inner + (n - j - 1) * inner))%nat
    by nia.
  rewrite !repeat_app.
  rewrite skipn_app, repeat_length, Nat.sub_diag.
  rewrite skipn_all2 by (rewrite repeat_length; lia). simpl.
  rewrite firstn_app, repeat_length, Nat.sub_diag. simpl.
  rewrite app_nil_r. rewrite <- (repeat_length v inner) at 1.
  apply firstn_all.
Qed.

Lemma flat_map_repeat {B : Type} (f : B -> list A) (l : list B) (v : A) (k : nat) :
  (forall x, In x l -> f x = repeat v k) ->
  flat_map f l = repeat v (length l * k).
Proof.
  intros H. induction l as [|x l IH]; [reflexivity|].
  simpl. rewrite (H x) by now left. rewrite IH by (intros y Hy; apply H; now right).
  now rewrite repeat_app.
Qed.



End Padding.

(** ** Element-wise operations and loops *)

Lemma shape_eqb_refl (s : list nat) : shape_eqb s s = true.
Proof. induction s as [|n s IH]; simpl; [reflexivity|]. now rewrite Nat.eqb_refl. Qed.

Lemma azip_same {A B C : Type} (f : A -> B -> C) (a : ndarray A) (b : ndarray B) :
  shape a = shape b ->
  azip f a b = OK (NdArray (shape a) (zip_with f (data a) (data b))).
Proof. intros H. unfold azip. now rewrite H, shape_eqb_refl. Qed.

Lemma zip_with_right_comm {A B : Type} (f : A -> B -> A) :
  (forall x a b, f (f x a) b = f (f x b) a) ->
  forall d a b,
    zip_with f (zip_with f d a) b = zip_with f (zip_with f d b) a.
Proof.
  intros Hf. induction d as [|x d IH]; intros a b; [reflexivity|].
  destruct a as [|u a], b as [|v b]; simpl; try reflexivity.
  now rewrite Hf, IH.
Qed.

Lemma zip_with_repeat {A B C : Type} (f : A -> B -> C) (x : A) (y : B) (n : nat) :
  zip_with f (repeat x n) (repeat y n) = repeat (f x y) n.
Proof. induction n as [|n IH]; simpl; [reflexivity | now rewrite IH]. Qed.

Lemma maximum_ub_l (x y : Qc) : (x <= maximum x y)%Qc.
Proof.
  unfold maximum. destruct (Qcltb x y) eqn:E.
  - apply Qclt_le_weak. now apply Qcltb_true.
  - apply Qcle_refl.
Qed.

Lemma maximum_ub_r (x y : Qc) : (y <= maximum x y)%Qc.
Proof.
  unfold maximum. destruct (Qcltb x y) eqn:E.
  - apply Qcle_refl.
  - now apply Qcltb_false.
Qed.

Lemma maximum_lub (x y z : Qc) :
  (x <= z)%Qc -> (y <= z)%Qc -> (maximum x y <= z)%Qc.
Proof. intros Hx Hy. unfold maximum. now destruct (Qcltb x y). Qed.

(** [np.maximum] may be applied to the instances in any order. *)
Lemma maximum_right_comm (x a b : Qc) :
  maximum (maximum x a) b = maximum (maximum x b) a.
Proof.
  apply Qcle_antisym; repeat apply maximum_lub.
  - eapply Qcle_trans; [apply (maximum_ub_l x b) | apply maximum_ub_l].
  - apply maximum_ub_r.
  - eapply Qcle_trans; [apply (maximum_ub_r x b) | apply maximum_ub_l].
  - eapply Qcle_trans; [apply (maximum_ub_l x a) | apply maximum_ub_l].
  - apply maximum_ub_r.
  - eapply Qcle_trans; [apply (maximum_ub_r x a) | apply maximum_ub_l].
Qed.

Lemma uint8_add_right_comm (x a b : Z) :
  uint8_add (uint8_add x a) b = uint8_add (uint8_add x b) a.
Proof.
  unfold uint8_add. rewrite !Zplus_mod_idemp_l. f_equal. lia.
Qed.

Lemma fold_left_perm {S A : Type} (f : S -> A -> S) (l l' : list A) :
  (forall s a b, f (f s a) b = f (f s b) a) ->
  Permutation l l' ->
  forall s, fold_left f l s = fold_left f l' s.
Proof.
  intros Hf Hp. induction Hp as [|a l l' _ IH|a b l|l l' l'' _ IH1 _ IH2];
    intros s; simpl.
  - reflexivity.
  - apply IH.
  - now rewrite Hf.
  - now rewrite IH1, IH2.
Qed.

Lemma fold_raise {S A : Type} (step : S -> A -> result S) (l : list A) (e : exn) :
  fold_left (fun r a => s' <- r ;; step s' a) l (Raise e) = Raise e.
Proof. induction l as [|a l IH]; simpl; [reflexivity | exact IH]. Qed.

Lemma foldM_cons {S A : Type} (step : S -> A -> result S) (a : A) (l : list A)
  (s : S) :
  foldM step (a :: l) s = (s' <- step s a ;; foldM step l s').
Proof.
  unfold foldM. simpl. destruct (step s a) as [s'|e]; simpl;
    [reflexivity | apply fold_raise].
Qed.

(** A loop whose turns all succeed and keep an invariant is the fold of
    the pure merge. *)
Lemma foldM_ok {S A : Type} (step : S -> A -> result S) (merge : S -> A -> S)
  (Inv : S -> Prop) :
  (forall s a, Inv s -> step s a = OK (merge s a) /\ Inv (merge s a)) ->
  forall l s, Inv s ->
    foldM step l s = OK (fold_left merge l s) /\ Inv (fold_left merge l s).
Proof.
  intros Hstep. induction l as [|a l IH]; intros s Hs.
  - split; [reflexivity | exact Hs].
  - rewrite foldM_cons. destruct (Hstep s a Hs) as [E Hi]. rewrite E. simpl.
    now apply IH.
Qed.

(** A loop whose turns all raise [e] raises [e] unless it has no turn. *)
Lemma foldM_raise {S A : Type} (step : S -> A -> result S) (e : exn) :
  (forall s a, step s a = Raise e) ->
  forall l s, l <> [] -> foldM step l s = Raise e.
Proof.
  intros Hstep l s Hl. destruct l as [|a l]; [contradiction|].
  rewrite foldM_cons, Hstep. reflexivity.
Qed.

Lemma insert_unique_nonempty (z : Z) (l : list Z) : insert_unique z l <> [].
Proof.
  destruct l as [|h t]; simpl; [discriminate|].
  destruct (z <? h); [discriminate|]. destruct (z =? h); discriminate.
Qed.

Lemma np_unique_nonempty (a : ndarray Z) : data a <> [] -> np_unique a <> [].
Proof.
  unfold np_unique. destruct (data a) as [|x t]; [contradiction|].
  intros _. simpl. apply insert_unique_nonempty.
Qed.

Lemma np_unique_empty (a : ndarray Z) : np_unique a <> [] -> data a <> [].
Proof. unfold np_unique. destruct (data a); [contradiction | discriminate]. Qed.


(** ** The loop bodies are the pure merges *)

Section TransformFacts.

Context {P : Primitives} {PS : PrimitivesSpec P}.

Lemma dt_mask_same_shape label erosion fp idx :
  same_shape (dt_mask label erosion fp idx) label.
Proof.
  unfold dt_mask.
  assert (H0 : same_shape
                 (remove_small_holes (amap (fun l => l =? idx) label) 16 1) label).
  { destruct (remove_small_holes_shape (amap (fun l => l =? idx) label) 16 1)
      as [Hs Hl].
    split; [exact Hs|]. rewrite Hl. apply length_map. }
  destruct (0 <? erosion); [|exact H0].
  destruct fp as [fp|]; [|exact H0].
  destruct (binary_erosion_shape
              (remove_small_holes (amap (fun l => l =? idx) label) 16 1) fp)
    as [Hs Hl].
  destruct H0 as [Hs0 Hl0]. split; congruence.
Qed.

Lemma amax_nonempty (a : ndarray Qc) :
  data a <> [] -> amax a = OK (amax_value a).
Proof.
  unfold amax_value, amax. destruct (data a); [contradiction | reflexivity].
Qed.

Lemma ndim_atleast_1d {A B : Type} (a : ndarray A) (b : ndarray B) :
  shape a = shape b -> ndim (atleast_1d a) = ndim (atleast_1d b).
Proof.
  intros H. unfold atleast_1d, ndim.
  destruct (shape a) eqn:Ea; destruct (shape b) eqn:Eb;
    try discriminate; cbn [shape]; congruence.
Qed.

Lemma atleast_1d_cases {A : Type} (a : ndarray A) :
  (ndim a = O /\ shape (atleast_1d a) = [1%nat] /\ shape a = []
   /\ data (atleast_1d a) = data a)
  \/ (ndim a <> O /\ atleast_1d a = a).
Proof.
  unfold atleast_1d, ndim. destruct (shape a) eqn:E.
  - left. repeat split.
  - right. split; [discriminate | reflexivity].
Qed.

Lemma distance_transform_step_spec label resolution erosion fp d s idx :
  shape d = shape label -> shape s = shape label -> data label <> [] ->
  distance_transform_step label resolution erosion fp (d, s) idx
  = match dt_step_error label resolution erosion fp with
    | Some e => Raise e
    | None => OK (dt_merge label resolution erosion fp (d, s) idx)
    end.
Proof.
  intros Hd Hs Hne.
  pose proof (dt_mask_same_shape label erosion fp idx) as [Hms Hml].
  unfold distance_transform_step, dt_step_error, dt_merge, dt_energy.
  revert Hms Hml. unfold dt_mask.
  destruct (0 <? erosion) eqn:Her; [destruct fp as [fp|]|]; cbn [andb];
    try reflexivity; intros Hms Hml; cbn [bind fst snd];
    match goal with
    | |- context [amap b2u8 ?t] => set (temp2 := t) in *
    end.
  all: rewrite azip_same by (cbn [amap shape]; congruence); cbn [bind].
  all: unfold distance_transform_edt; cbv zeta.
  all: rewrite (ndim_atleast_1d temp2 label Hms).
  all: destruct (Nat.eqb (length resolution) (ndim (atleast_1d label)));
    [|reflexivity]; cbn [bind].
  all: destruct (edt_shape (atleast_1d temp2) resolution) as [Hes Hel].
  all: assert (Hnd : ndim temp2 = ndim label) by (unfold ndim; now rewrite Hms).
  all: destruct (atleast_1d_cases temp2) as [[H0 [H1 [H2 H3]]]|[H0 H1]].
  all: rewrite amax_nonempty
    by (intros E; apply Hne; apply length_zero_iff_nil;
        rewrite <- Hml; first [rewrite <- H3 | rewrite <- H1 at 1];
        rewrite <- Hel, E; reflexivity).
  all: cbn [bind].
  all: rewrite <- Hnd.
  all: first
    [ rewrite H0; cbn [Nat.eqb]; unfold azip; cbn [amap shape];
      rewrite Hes, H1, H2; reflexivity
    | destruct (Nat.eqb_spec (ndim temp2) 0) as [E0|_]; [contradiction|];
      rewrite H1 in *;
      rewrite azip_same by (cbn [amap shape]; congruence); cbn [bind];
      rewrite azip_same by (cbn [amap shape]; congruence); cbn [bind];
      reflexivity ].
Qed.

Lemma smooth_round_shape sigma threshold (b : ndarray bool) :
  shape (smooth_round sigma threshold b) = shape b.
Proof.
  unfold smooth_round. cbn [amap shape].
  destruct (gaussian_shape (amap b2f b) sigma) as [Hs _]. exact Hs.
Qed.

Lemma smooth_edge_shape (b : ndarray bool) sigma threshold :
  shape (smooth_edge b sigma threshold) = shape b.
Proof. unfold smooth_edge. now rewrite !smooth_round_shape. Qed.

Lemma sdt_masks_shape label smooth sso idx :
  shape (fst (sdt_masks label smooth sso idx)) = shape label
  /\ shape (snd (sdt_masks label smooth sso idx)) = shape label.
Proof.
  destruct (remove_small_holes_shape (amap (fun l => l =? idx) label) 16 1)
    as [Hs _]. cbn [amap shape] in Hs.
  unfold sdt_masks. destruct smooth; [|now split].
  destruct (mask_sum _ <=? 32); [now split|].
  destruct sso; cbn [fst snd shape]; rewrite ?smooth_edge_shape; now split.
Qed.

Lemma skeleton_aware_step_spec label resolution alpha smooth sso sk d s idx :
  shape sk = shape label -> shape d = shape label -> shape s = shape label ->
  skeleton_aware_step label resolution alpha smooth sso (sk, d, s) idx
  = match sdt_step_error label resolution with
    | Some e => Raise e
    | None => OK (sdt_merge label resolution alpha smooth sso (sk, d, s) idx)
    end.
Proof.
  intros Hsk Hd Hs.
  destruct (sdt_masks_shape label smooth sso idx) as [Hb Ht].
  unfold skeleton_aware_step, sdt_step_error, sdt_merge, sdt_energy. cbv zeta.
  assert (Hmasks :
    (if smooth then
       if mask_sum (smooth_edge
                      (remove_small_holes (amap (fun l => l =? idx) label) 16 1)
                      (lit 2 1) (lit 1 2)) <=? 32
       then OK (remove_small_holes (amap (fun l => l =? idx) label) 16 1,
                remove_small_holes (amap (fun l => l =? idx) label) 16 1)
       else if sso then
              binary <- azip andb
                          (smooth_edge
                             (remove_small_holes
                                (amap (fun l => l =? idx) label) 16 1)
                             (lit 2 1) (lit 1 2))
                          (remove_small_holes
                             (amap (fun l => l =? idx) label) 16 1) ;;
              OK (binary,
                  remove_small_holes (amap (fun l => l =? idx) label) 16 1)
            else OK (smooth_edge
                       (remove_small_holes
                          (amap (fun l => l =? idx) label) 16 1)
                       (lit 2 1) (lit 1 2),
                     smooth_edge
                       (remove_small_holes
                          (amap (fun l => l =? idx) label) 16 1)
                       (lit 2 1) (lit 1 2))
     else OK (remove_small_holes (amap (fun l => l =? idx) label) 16 1,
              remove_small_holes (amap (fun l => l =? idx) label) 16 1))
    = OK (sdt_masks label smooth sso idx)).
  { unfold sdt_masks. destruct smooth; [|reflexivity].
    destruct (mask_sum _ <=? 32); [reflexivity|].
    destruct sso; [|reflexivity].
    rewrite azip_same by apply smooth_edge_shape. reflexivity. }
  rewrite Hmasks. cbn [bind].
  destruct (sdt_masks label smooth sso idx) as [binary temp2].
  cbn [fst snd] in Hb, Ht.
  destruct (skeletonize_shape binary) as [Hks _].
  rewrite azip_same by (cbn [amap shape]; congruence). cbn [bind].
  rewrite azip_same by (cbn [amap shape]; congruence). cbn [bind].
  unfold distance_transform_edt. cbv zeta.
  set (skm := amap negb (skeletonize binary)).
  assert (Hskm : shape skm = shape label)
    by (unfold skm; cbn [amap shape]; congruence).
  rewrite (ndim_atleast_1d skm label Hskm), (ndim_atleast_1d temp2 label Ht).
  destruct (Nat.eqb (length resolution) (ndim (atleast_1d label)));
    [|reflexivity]. cbn [bind].
  destruct (edt_shape (atleast_1d temp2) resolution) as [Hes _].
  destruct (edt_shape (atleast_1d skm) resolution) as [Hes' _].
  assert (Hnd : ndim temp2 = ndim label) by (unfold ndim; now rewrite Ht).
  assert (Hnd' : ndim skm = ndim label) by (unfold ndim; now rewrite Hskm).
  rewrite <- Hnd.
  destruct (atleast_1d_cases temp2) as [[H0 [H1 [H2 H3]]]|[H0 H1]];
    destruct (atleast_1d_cases skm) as [[K0 [K1 [K2 K3]]]|[K0 K1]];
    try (exfalso; congruence).
  - rewrite azip_same by congruence. cbn [bind].
    rewrite H0. cbn [Nat.eqb]. unfold azip at 1. cbn [amap shape].
    now rewrite Hes, H1, H2.
  - destruct (Nat.eqb_spec (ndim temp2) 0) as [E0|_]; [contradiction|].
    rewrite H1, K1 in *.
    rewrite azip_same by congruence. cbn [bind].
    rewrite azip_same by (cbn [amap shape]; congruence). cbn [bind].
    rewrite azip_same by (cbn [amap shape]; congruence). cbn [bind].
    reflexivity.
Qed.

Lemma dt_merge_right_comm label resolution erosion fp st a b :
  dt_merge label resolution erosion fp
    (dt_merge label resolution erosion fp st a) b
  = dt_merge label resolution erosion fp
      (dt_merge label resolution erosion fp st b) a.
Proof.
  unfold dt_merge. cbn [fst snd shape data]. f_equal; f_equal.
  - apply zip_with_right_comm, maximum_right_comm.
  - apply zip_with_right_comm, uint8_add_right_comm.
Qed.

Lemma sdt_merge_right_comm label resolution alpha smooth sso st a b :
  sdt_merge label resolution alpha smooth sso
    (sdt_merge label resolution alpha smooth sso st a) b
  = sdt_merge label resolution alpha smooth sso
      (sdt_merge label resolution alpha smooth sso st b) a.
Proof.
  destruct st as [[sk d] s]. unfold sdt_merge.
  destruct (sdt_masks label smooth sso a) as [ba ta].
  destruct (sdt_masks label smooth sso b) as [bb tb].
  cbn [shape data]. f_equal; [f_equal|]; f_equal.
  - apply zip_with_right_comm, uint8_add_right_comm.
  - apply zip_with_right_comm, maximum_right_comm.
  - apply zip_with_right_comm, uint8_add_right_comm.
Qed.

(** The instance loop of [distance_transform] gives the same state, or
    raises the same exception, on every permutation of the ids. *)
Lemma distance_transform_loop_perm label resolution erosion fp d s l l' :
  shape d = shape label -> shape s = shape label -> data label <> [] ->
  Permutation l l' ->
  foldM (distance_transform_step label resolution erosion fp) l' (d, s)
  = foldM (distance_transform_step label resolution erosion fp) l (d, s).
Proof.
  intros Hd Hs Hne Hp.
  destruct (dt_step_error label resolution erosion fp) as [e|] eqn:Herr.
  - destruct l as [|a l].
    + apply Permutation_nil in Hp. now subst.
    + destruct l' as [|a' l'];
        [apply Permutation_sym, Permutation_nil in Hp; discriminate|].
      rewrite !foldM_cons, !distance_transform_step_spec by assumption.
      now rewrite Herr.
  - set (Inv := fun st : ndarray Qc * ndarray Z =>
                  shape (fst st) = shape label /\ shape (snd st) = shape label).
    assert (Hstep : forall st a, Inv st ->
              distance_transform_step label resolution erosion fp st a
              = OK (dt_merge label resolution erosion fp st a)
              /\ Inv (dt_merge label resolution erosion fp st a)).
    { intros [d0 s0] a [H1 H2]. cbn [fst snd] in H1, H2. split.
      - rewrite distance_transform_step_spec by assumption. now rewrite Herr.
      - split; assumption. }
    assert (Hinv : Inv (d, s)) by (split; assumption).
    destruct (foldM_ok _ _ Inv Hstep l (d, s) Hinv) as [-> _].
    destruct (foldM_ok _ _ Inv Hstep l' (d, s) Hinv) as [-> _].
    f_equal. symmetry. apply fold_left_perm; [|assumption].
    intros st a b. apply dt_merge_right_comm.
Qed.

Lemma skeleton_aware_loop_perm label resolution alpha smooth sso sk d s l l' :
  shape sk = shape label -> shape d = shape label -> shape s = shape label ->
  Permutation l l' ->
  foldM (skeleton_aware_step label resolution alpha smooth sso) l' (sk, d, s)
  = foldM (skeleton_aware_step label resolution alpha smooth sso) l (sk, d, s).
Proof.
  intros Hsk Hd Hs Hp.
  destruct (sdt_step_error label resolution) as [e|] eqn:Herr.
  - destruct l as [|a l].
    + apply Permutation_nil in Hp. now subst.
    + destruct l' as [|a' l'];
        [apply Permutation_sym, Permutation_nil in Hp; discriminate|].
      rewrite !foldM_cons, !skeleton_aware_step_spec by assumption.
      now rewrite Herr.
  - set (Inv := fun st : sdt_state =>
                  shape (fst (fst st)) = shape label
                  /\ shape (snd (fst st)) = shape label
                  /\ shape (snd st) = shape label).
    assert (Hstep : forall st a, Inv st ->
              skeleton_aware_step label resolution alpha smooth sso st a
              = OK (sdt_merge label resolution alpha smooth sso st a)
              /\ Inv (sdt_merge label resolution alpha smooth sso st a)).
    { intros [[sk0 d0] s0] a [H1 [H2 H3]]. cbn [fst snd] in H1, H2, H3. split.
      - rewrite skeleton_aware_step_spec by assumption. now rewrite Herr.
      - unfold sdt_merge. destruct (sdt_masks label smooth sso a).
        repeat split; assumption. }
    assert (Hinv : Inv (sk, d, s)) by (repeat split; assumption).
    destruct (foldM_ok _ _ Inv Hstep l (sk, d, s) Hinv) as [-> _].
    destruct (foldM_ok _ _ Inv Hstep l' (sk, d, s) Hinv) as [-> _].
    f_equal. symmetry. apply fold_left_perm; [|assumption].
    intros st a b. apply sdt_merge_right_comm.
Qed.

Lemma select_indices_nonempty (l : list Z) (r : list Z * bool) :
  select_indices l = OK r -> l <> [].
Proof. destruct l; [discriminate | discriminate]. Qed.

(** C1.  Visiting the instance ids in any permuted order gives the same
    result as the ascending order of the source, for
    [distance_transform] and for [skeleton_aware_distance_transform]:
    the same distance map and semantic mask, or the same exception. *)
Theorem instance_order_irrelevant (visit : list Z -> list Z)
  (Hvisit : forall l, Permutation l (visit l)) :
  (forall label bg_value relabel padding resolution erosion,
      distance_transform_in_order visit label bg_value relabel padding
                                  resolution erosion
      = distance_transform label bg_value relabel padding resolution erosion)
  /\ (forall label bg_value relabel padding resolution alpha smooth
             smooth_skeleton_only,
      skeleton_aware_distance_transform_in_order visit label bg_value relabel
        padding resolution alpha smooth smooth_skeleton_only
      = skeleton_aware_distance_transform label bg_value relabel padding
          resolution alpha smooth smooth_skeleton_only).
Proof.
  split.
  - intros label bg relabel padding resolution erosion.
    unfold distance_transform, distance_transform_in_order.
    set (L := prepare_label label relabel padding).
    destruct (select_indices (np_unique L)) as [[indices all_bg]|e] eqn:Hsel;
      [|reflexivity].
    cbn [bind]. destruct all_bg; [reflexivity|]. cbn [negb].
    rewrite (distance_transform_loop_perm L resolution erosion _ _ _
               indices (visit indices)); try reflexivity.
    + apply np_unique_empty. eapply select_indices_nonempty. exact Hsel.
    + apply Hvisit.
  - intros label bg relabel padding resolution alpha smooth sso.
    unfold skeleton_aware_distance_transform,
      skeleton_aware_distance_transform_in_order.
    set (L := prepare_label label relabel padding).
    destruct (select_indices (np_unique L)) as [[indices all_bg]|e] eqn:Hsel;
      [|reflexivity].
    cbn [bind]. destruct all_bg; [reflexivity|]. cbn [negb].
    rewrite (skeleton_aware_loop_perm L resolution alpha smooth sso _ _ _
               indices (visit indices)); try reflexivity.
    apply Hvisit.
Qed.

(** *** Shapes under padding *)

Lemma size_of_padded_pos (m : nat) (sh : list nat) :
  (0 < m)%nat -> (0 < size_of (map (fun k => k + 2 * m)%nat sh))%nat.
Proof.
  intros Hm. induction sh as [|n sh IH]; [simpl; lia|].
  cbn [map]. rewrite size_of_cons. nia.
Qed.

Lemma wf_same_shape {A B : Type} (a : ndarray A) (b : ndarray B) :
  same_shape a b -> wf b -> wf a.
Proof. intros [Hs Hl] Hb. unfold wf in *. congruence. Qed.

Lemma prepare_label_unpadded (label : ndarray Z) (relabel : bool) :
  same_shape (prepare_label label relabel false) label.
Proof.
  unfold prepare_label. destruct relabel; [apply label_cc_shape|].
  now split.
Qed.

Lemma prepare_label_padded (label : ndarray Z) (relabel : bool) :
  prepare_label label relabel true
  = np_pad (prepare_label label relabel false) pad_size 0.
Proof. reflexivity. Qed.

Lemma prepare_label_padded_shape (label : ndarray Z) (relabel : bool) :
  shape (prepare_label label relabel true)
  = map (fun k => k + 2 * pad_size)%nat (shape label).
Proof.
  rewrite prepare_label_padded. cbn [np_pad shape].
  now destruct (prepare_label_unpadded label relabel) as [-> _].
Qed.

Lemma prepare_label_padded_nonempty (label : ndarray Z) (relabel : bool) :
  wf label -> data (prepare_label label relabel true) <> [].
Proof.
  intros Hwf E. apply (f_equal (@length Z)) in E.
  rewrite prepare_label_padded in E. cbn [np_pad data] in E.
  rewrite length_pad_data in E
    by (apply (wf_same_shape _ label);
        [apply prepare_label_unpadded | exact Hwf]).
  pose proof (size_of_padded_pos pad_size
                (shape (prepare_label label relabel false))) as Hpos.
  simpl length in E. unfold pad_size in *. lia.
Qed.

Lemma select_indices_ok (l : list Z) :
  l <> [] -> exists r, select_indices l = OK r.
Proof.
  destruct l as [|i0 rest]; [contradiction|]. intros _. simpl.
  destruct (i0 =? 0); [destruct rest|]; eexists; reflexivity.
Qed.

Lemma fill_background_shape (bg : Qc) (d : ndarray Qc) :
  shape (fill_background bg d) = shape d.
Proof. unfold fill_background. now destruct (Qceqb bg 0%Qc). Qed.

Lemma finish_transform_padded_shape (bg : Qc) (d : ndarray Qc) (s : ndarray Z)
  (sh : list nat) :
  shape d = map (fun k => k + 2 * pad_size)%nat sh ->
  shape s = map (fun k => k + 2 * pad_size)%nat sh ->
  shape (fst (finish_transform bg true (d, s))) = sh
  /\ shape (snd (finish_transform bg true (d, s))) = sh.
Proof.
  intros Hd Hs. unfold finish_transform. cbn [fst snd].
  unfold array_unpad, get_padsize, ndim. cbn [shape].
  rewrite fill_background_shape, Hd, Hs, length_map.
  rewrite !unpad_pad_shape. now split.
Qed.

Lemma atleast_1d_id {A : Type} (a : ndarray A) :
  ndim a <> O -> atleast_1d a = a.
Proof.
  intros H. destruct (atleast_1d_cases a) as [[H0 _]|[_ H1]];
    [contradiction | exact H1].
Qed.

Lemma sdt_step_error_none (label : ndarray Z) (resolution : list Qc) :
  ndim label <> O ->
  length resolution = ndim label ->
  sdt_step_error label resolution = None.
Proof.
  intros Hnd Hres. unfold sdt_step_error.
  rewrite atleast_1d_id by assumption.
  rewrite Hres, Nat.eqb_refl.
  now destruct (Nat.eqb_spec (ndim label) 0).
Qed.

Lemma dt_step_error_none (label : ndarray Z) (resolution : list Qc)
  (erosion : Z) :
  ndim label <> O ->
  length resolution = ndim label ->
  erosion <= 0 \/ ndim label = 2%nat \/ ndim label = 3%nat ->
  dt_step_error label resolution erosion
                (erosion_footprint erosion (ndim label)) = None.
Proof.
  intros Hnd Hres Her. unfold dt_step_error.
  fold (sdt_step_error label resolution).
  rewrite sdt_step_error_none by assumption.
  unfold erosion_footprint.
  destruct (0 <? erosion) eqn:E; [|reflexivity].
  apply Z.ltb_lt in E.
  destruct Her as [H|[->| ->]]; [lia| |]; reflexivity.
Qed.




(** *** A label map without instances *)









(** *** A mask without background *)

Lemma all_nth_const {A : Type} (v : A) (l : list A) :
  (forall i, nth i l v = v) -> l = repeat v (length l).
Proof.
  induction l as [|x l IH]; intros H; [reflexivity|].
  simpl. rewrite (H O : x = v). f_equal.
  apply IH. intros i. exact (H (S i)).
Qed.

Lemma map_const {A B : Type} (f : A -> B) (v : B) (l : list A) :
  (forall x, In x l -> f x = v) -> map f l = repeat v (length l).
Proof.
  intros H. induction l as [|x l IH]; [reflexivity|].
  simpl. rewrite (H x) by now left. f_equal.
  apply IH. intros y Hy. apply H. now right.
Qed.

Lemma map_repeat {A B : Type} (f : A -> B) (x : A) (n : nat) :
  map f (repeat x n) = repeat (f x) n.
Proof. induction n as [|n IH]; simpl; [reflexivity | now rewrite IH]. Qed.

Lemma forallb_repeat_true (n : nat) :
  forallb (fun b : bool => b) (repeat true n) = true.
Proof. induction n as [|n IH]; [reflexivity | exact IH]. Qed.

Lemma forallb_repeat_false (n : nat) :
  n <> O -> forallb (fun b : bool => b) (repeat false n) = false.
Proof. destruct n; [contradiction | reflexivity]. Qed.

Lemma edt_no_foreground (sh : list nat) (n : nat) (sampling : list Qc) :
  edt (NdArray sh (repeat false n)) sampling = NdArray sh (repeat 0%Qc n).
Proof.
  destruct (edt_shape (NdArray sh (repeat false n)) sampling) as [Hs Hl].
  cbn [shape data] in Hs, Hl. rewrite repeat_length in Hl.
  assert (Hd : data (edt (NdArray sh (repeat false n)) sampling)
               = repeat 0%Qc n).
  { rewrite <- Hl at 2. apply all_nth_const. intros i.
    apply edt_background. cbn [data].
    destruct (Nat.lt_ge_cases i n) as [Hi|Hi].
    - apply nth_repeat_lt. exact Hi.
    - apply nth_overflow. now rewrite repeat_length. }
  destruct (edt _ sampling) as [sh' d']. cbn [shape data] in *.
  now rewrite Hs, Hd.
Qed.

Lemma zero_div (alpha : Qc) : (0 / alpha)%Qc = 0%Qc.
Proof. unfold Qcdiv. ring. Qed.

Lemma _edt_binary_mask_all_true (sh : list nat) (n : nat) resolution alpha :
  _edt_binary_mask (NdArray sh (repeat true n)) resolution alpha
  = OK (NdArray sh (repeat (lit 5 1) n)).
Proof.
  unfold _edt_binary_mask. cbn [data]. rewrite forallb_repeat_true.
  unfold amap. cbn [shape data]. now rewrite map_repeat.
Qed.

Lemma _edt_binary_mask_all_false (sh : list nat) (n : nat) resolution alpha :
  n <> O -> sh <> [] -> length resolution = length sh ->
  _edt_binary_mask (NdArray sh (repeat false n)) resolution alpha
  = OK (NdArray sh (repeat 0%Qc n)).
Proof.
  intros Hn Hsh Hres. unfold _edt_binary_mask. cbn [data].
  rewrite forallb_repeat_false by assumption.
  unfold distance_transform_edt. cbv zeta.
  rewrite atleast_1d_id by (unfold ndim; cbn [shape]; now destruct sh).
  unfold ndim. cbn [shape].
  rewrite Hres, Nat.eqb_refl. cbn [bind].
  rewrite edt_no_foreground. unfold amap. cbn [shape data].
  now rewrite map_repeat, zero_div.
Qed.

Lemma mapM_ok {A B : Type} (f : A -> result B) (g : A -> B) (l : list A) :
  (forall x, In x l -> f x = OK (g x)) -> mapM f l = OK (map g l).
Proof.
  intros H. induction l as [|x l IH]; [reflexivity|].
  simpl. rewrite (H x) by now left. cbn [bind].
  rewrite IH by (intros y Hy; apply H; now right). reflexivity.
Qed.

Lemma forallb_all {A : Type} (f : A -> bool) (l : list A) :
  (forall x, In x l -> f x = true) -> forallb f l = true.
Proof. intros H. apply forallb_forall. exact H. Qed.

(** Stacking [n] copies of a constant block gives a constant array. *)
Lemma np_stack_constant {A : Type} (sh : list nat) (v : A) (inner n : nat) :
  n <> O ->
  np_stack (map (fun _ : nat => NdArray sh (repeat v inner)) (seq 0 n))
  = OK (NdArray (n :: sh) (repeat v (n * inner))).
Proof.
  intros Hn. destruct n as [|n]; [contradiction|].
  unfold np_stack. cbn [seq map].
  rewrite forallb_all.
  - f_equal. f_equal.
    + cbn [length]. now rewrite length_map, length_seq.
    + change (NdArray sh (repeat v inner)
              :: map (fun _ : nat => NdArray sh (repeat v inner)) (seq 1 n))
        with (map (fun _ : nat => NdArray sh (repeat v inner)) (seq 0 (S n))).
      rewrite map_map. cbn [data concat].
      rewrite <- flat_map_concat_map.
      rewrite (flat_map_repeat _ _ v inner) by reflexivity.
      rewrite length_seq, <- repeat_app. reflexivity.
  - intros b Hb. apply in_map_iff in Hb. destruct Hb as [i [<- _]].
    apply shape_eqb_refl.
Qed.

Lemma five_minus_zero : (lit 5 1 - 0)%Qc = lit 5 1.
Proof. ring. Qed.

Lemma edt_semantic_finish (sh : list nat) (n : nat) :
  (distance <- azip Qcminus (NdArray sh (repeat (lit 5 1) n))
                            (NdArray sh (repeat 0%Qc n)) ;;
   OK (amap np_tanh distance))
  = OK (NdArray sh (repeat (np_tanh (lit 5 1)) n)).
Proof.
  rewrite azip_same by reflexivity. cbn [bind shape data].
  rewrite zip_with_repeat, five_minus_zero.
  unfold amap. cbn [shape data]. now rewrite map_repeat.
Qed.

(** C5.  On a label array without background cells, [edt_semantic]
    returns the constant array of value tanh(5): the foreground mask
    takes the short cut to the constant 5 and the background mask has
    distance 0 everywhere.  The label array has 2 or 3 axes and at least
    one cell; [alpha_back] is not 0 (in IEEE arithmetic 0 / 0 is NaN,
    which the exact quotient of the model does not show). *)
Theorem edt_semantic_all_foreground label mode alpha_fore alpha_back :
  wf label ->
  Forall (fun x => x <> 0) (data label) ->
  In mode ["2d"; "3d"]%string ->
  ndim label = 2%nat \/ ndim label = 3%nat ->
  size_of (shape label) <> O ->
  alpha_back <> 0%Qc ->
  edt_semantic label mode alpha_fore alpha_back
  = OK (full (shape label) (np_tanh (lit 5 1))).
Proof.
  intros Hwf Hfg Hmode Hnd Hne _.
  destruct label as [sh d]. unfold wf, ndim in *. cbn [shape data] in *.
  assert (Hfore : amap (fun l => negb (l =? 0)) (NdArray sh d)
                  = NdArray sh (repeat true (size_of sh))).
  { unfold amap. cbn [shape data]. f_equal. rewrite <- Hwf.
    apply map_const. intros x Hx. rewrite Forall_forall in Hfg.
    destruct (Z.eqb_spec x 0) as [E|E]; [now apply Hfg in Hx | reflexivity]. }
  assert (Hback : amap (fun l => l =? 0) (NdArray sh d)
                  = NdArray sh (repeat false (size_of sh))).
  { unfold amap. cbn [shape data]. f_equal. rewrite <- Hwf.
    apply map_const. intros x Hx. rewrite Forall_forall in Hfg.
    destruct (Z.eqb_spec x 0) as [E|E]; [now apply Hfg in Hx | reflexivity]. }
  unfold edt_semantic. rewrite Hfore, Hback.
  apply str_in_true in Hmode. rewrite Hmode. cbn [assert bind].
  unfold ndim. cbn [shape]. unfold full.
  apply str_in_true in Hmode.
  destruct Hmode as [<-|[<-|[]]]; destruct Hnd as [Hnd|Hnd]; rewrite Hnd;
    cbn [String.eqb Ascii.eqb Bool.eqb Nat.eqb orb].
  - rewrite _edt_binary_mask_all_true.
    rewrite _edt_binary_mask_all_false
      by (first [ assumption
                | now rewrite Hnd
                | intros E; rewrite E in Hnd; discriminate ]).
    cbn [bind]. apply edt_semantic_finish.
  - destruct sh as [|n0 sh']; [discriminate|].
    cbn [shape0 shape bind]. rewrite size_of_cons in *.
    assert (Hn0 : n0 <> O) by (intros ->; now apply Hne).
    assert (Hin : size_of sh' <> O) by (intros E; apply Hne; rewrite E; lia).
    rewrite (mapM_ok _ (fun _ => NdArray sh' (repeat (lit 5 1) (size_of sh')))).
    2:{ intros i Hi. apply in_seq in Hi. unfold slice0. cbn [shape data tl].
        rewrite chunk_repeat by lia. apply _edt_binary_mask_all_true. }
    cbn [bind].
    rewrite (mapM_ok _ (fun _ => NdArray sh' (repeat 0%Qc (size_of sh')))).
    2:{ intros i Hi. apply in_seq in Hi. unfold slice0. cbn [shape data tl].
        rewrite chunk_repeat by lia.
        apply _edt_binary_mask_all_false; [assumption| |].
        - intros E. rewrite E in Hnd. discriminate.
        - cbn [length] in Hnd. cbn [length]. lia. }
    cbn [bind]. rewrite !np_stack_constant by assumption. cbn [bind].
    apply edt_semantic_finish.
  - rewrite _edt_binary_mask_all_true.
    rewrite _edt_binary_mask_all_false
      by (first [ assumption
                | now rewrite Hnd
                | intros E; rewrite E in Hnd; discriminate ]).
    cbn [bind]. apply edt_semantic_finish.
  - rewrite _edt_binary_mask_all_true.
    rewrite _edt_binary_mask_all_false
      by (first [ assumption
                | now rewrite Hnd
                | intros E; rewrite E in Hnd; discriminate ]).
    cbn [bind]. apply edt_semantic_finish.
Qed.

End TransformFacts.

(** ** The stand-in primitives meet the contracts *)

Lemma same_shape_refl {A : Type} (a : ndarray A) : same_shape a a.
Proof. now split. Qed.

#[global] Instance stand_in_spec : PrimitivesSpec stand_in.
Proof.
  constructor; cbn [label_cc remove_small_holes binary_erosion edt skeletonize
                    gaussian stand_in]; intros.
  - apply same_shape_refl.
  - assumption.
  - apply same_shape_refl.
  - apply same_shape_refl.
  - split; [reflexivity | apply length_map].
  - cbn [amap data]. change 0%Qc with (b2f false).
    rewrite map_nth. now rewrite H.
  - apply same_shape_refl.
  - apply same_shape_refl.
Qed.

Lemma fifty_nonzero : lit 50 1 <> 0%Qc.
Proof. intros E. apply Qceqb_true in E. discriminate. Qed.

(** C1 with the ids visited in descending order, on the 2x2 label map
    [[1, 0], [0, 2]]. *)
Lemma instance_order_irrelevant_witness :
  (forall l : list Z, Permutation l (rev l))
  /\ distance_transform_in_order (P := stand_in) (@rev Z)
       (NdArray [2%nat; 2%nat] [1; 0; 0; 2]) (lit (-1) 1) true false
       [1%Qc; 1%Qc] 0
     = distance_transform (P := stand_in)
         (NdArray [2%nat; 2%nat] [1; 0; 0; 2]) (lit (-1) 1) true false
         [1%Qc; 1%Qc] 0
  /\ skeleton_aware_distance_transform_in_order (P := stand_in) (@rev Z)
       (NdArray [2%nat; 2%nat] [1; 0; 0; 2]) (lit (-1) 1) true false
       [1%Qc; 1%Qc] (lit 8 10) true true
     = skeleton_aware_distance_transform (P := stand_in)
         (NdArray [2%nat; 2%nat] [1; 0; 0; 2]) (lit (-1) 1) true false
         [1%Qc; 1%Qc] (lit 8 10) true true.
Proof.
  split; [exact (@Permutation_rev Z)|].
  destruct (instance_order_irrelevant (P := stand_in) (PS := stand_in_spec)
              (@rev Z) (@Permutation_rev Z)) as [Hdt Hsdt].
  split; [apply Hdt | apply Hsdt].
Defined.

(** C5 on a 1x2 label map without background. *)
Lemma edt_semantic_all_foreground_witness :
  edt_semantic (P := stand_in) (NdArray [1%nat; 2%nat] [3; 7]) "2d"
               (lit 8 1) (lit 50 1)
  = OK (full [1%nat; 2%nat] (np_tanh (lit 5 1))).
Proof.
  apply (edt_semantic_all_foreground (P := stand_in) (PS := stand_in_spec)).
  - reflexivity.
  - repeat constructor; discriminate.
  - left. reflexivity.
  - left. reflexivity.
  - discriminate.
  - exact fifty_nonzero.
Defined.



(** ** The model at work

    The transforms run on small inputs with the stand-in primitives. *)

Example energy_quantize_default_levels :
  map (fun x => energy_quantize x default_levels)
      [lit (-1) 1; lit 0 1; lit 5 100; lit 1 10; lit 95 100; lit 1 1]
  = [OK 0; OK 1; OK 1; OK 2; OK 10; OK 10].
Proof. vm_compute. reflexivity. Qed.

Example energy_quantize_out_of_range :
  map (fun x => energy_quantize x default_levels) [lit (-2) 1; lit 11 10]
  = [OK (-1); OK 11].
Proof. vm_compute. reflexivity. Qed.

Example np_unique_sorted :
  np_unique (NdArray [2%nat; 3%nat] [5; 0; 3; 5; 0; -2]) = [-2; 0; 3; 5].
Proof. reflexivity. Qed.

Example np_pad_2x2 :
  np_pad (NdArray [2%nat; 2%nat] [1; 2; 3; 4]) 1 0
  = NdArray [4%nat; 4%nat] [0; 0; 0; 0; 0; 1; 2; 0; 0; 3; 4; 0; 0; 0; 0; 0].
Proof. reflexivity. Qed.

Example edt_instance_2d_stack :
  edt_instance (P := stand_in) (NdArray [1%nat; 2%nat; 2%nat] [1; 1; 0; 2])
               "2d" true [1%Qc; 1%Qc; 1%Qc] false 0
  = OK (Quantized (NdArray [1%nat; 2%nat; 2%nat] [10; 10; 0; 10])).
Proof. vm_compute. reflexivity. Qed.

(** In mode '3d' the resolution is passed on: a vector of the wrong
    length is refused by the distance transform. *)
Example edt_instance_3d_uses_resolution :
  edt_instance (P := stand_in) (NdArray [1%nat; 2%nat; 2%nat] [1; 1; 0; 2])
               "3d" true [1%Qc; 1%Qc; 1%Qc] false 0
  = OK (Quantized (NdArray [1%nat; 2%nat; 2%nat] [10; 10; 0; 10]))
  /\ edt_instance (P := stand_in) (NdArray [1%nat; 2%nat; 2%nat] [1; 1; 0; 2])
                  "3d" true [1%Qc; 1%Qc] false 0
     = Raise RuntimeError.
Proof. split; vm_compute; reflexivity. Qed.

(** An empty label map stops at [indices[0]]. *)
Example distance_transform_empty_label :
  distance_transform (P := stand_in) (NdArray [0%nat; 2%nat] []) (lit (-1) 1)
                     true false [1%Qc; 1%Qc] 0
  = Raise IndexError.
Proof. reflexivity. Qed.

(** Erosion of a label map with one axis finds no footprint. *)
Example distance_transform_erosion_1d :
  distance_transform (P := stand_in) (NdArray [2%nat] [1; 1]) (lit (-1) 1)
                     true true [1%Qc] 1
  = Raise UnboundLocalError.
Proof. vm_compute. reflexivity. Qed.

Example decode_mode_rejected :
  decode_quantize (P := stand_in) (NumpyArray (NdArray [1%nat] [0%Qc])) "median"
  = Raise AssertionError
  /\ decode_quantize (P := stand_in) (OtherObject "list") "max"
     = Raise AssertionError.
Proof. split; reflexivity. Qed.

(** * Further properties *)

(** ** The bins of the quantizer *)

Lemma range_split (a n : Z) :
  0 <= a <= n -> range n = range a ++ map (Z.add a) (range (n - a)).
Proof.
  intros H. unfold range.
  replace (Z.to_nat n) with (Z.to_nat a + Z.to_nat (n - a))%nat by lia.
  rewrite seq_app, map_app. f_equal.
  rewrite (seq_as_map (0 + Z.to_nat a)), !map_map.
  apply map_ext. intros k. lia.
Qed.

Lemma range_positive (n : Z) :
  0 < n -> range n = 0 :: map (Z.add 1) (range (n - 1)).
Proof.
  intros H. rewrite (range_split 1 n) by lia. reflexivity.
Qed.

(** An energy between two consecutive inner edges, the lower one
    included, gets the class of that interval. *)
Lemma energy_quantize_inner_bin (levels i : Z) (x : Qc) :
  0 <= i -> i + 1 < levels ->
  (bin_edge levels i <= x)%Qc -> (x < bin_edge levels (i + 1))%Qc ->
  energy_quantize x levels = OK (i + 1).
Proof.
  intros Hi HiL Hlo Hhi. rewrite energy_quantize_eq, quantize_bins_eq.
  rewrite (range_split (i + 1) levels) by lia.
  rewrite (range_positive (levels - (i + 1))) by lia.
  rewrite map_app. cbn [map]. rewrite Z.add_0_r.
  change (lit (-1) 1
          :: (map (bin_edge levels) (range (i + 1))
              ++ bin_edge levels (i + 1)
                 :: map (bin_edge levels)
                      (map (Z.add (i + 1))
                         (map (Z.add 1) (range (levels - (i + 1) - 1)))))
             ++ [lit 11 10])
    with ([lit (-1) 1]
          ++ (map (bin_edge levels) (range (i + 1))
              ++ bin_edge levels (i + 1)
                 :: map (bin_edge levels)
                      (map (Z.add (i + 1))
                         (map (Z.add 1) (range (levels - (i + 1) - 1)))))
             ++ [lit 11 10]).
  assert (H0 : (0 <= x)%Qc).
  { eapply Qcle_trans; [|exact Hlo]. apply bin_edge_bounds. lia. }
  rewrite searchsorted_right_app.
  2:{ constructor; [|constructor].
      eapply Qcle_trans; [apply minus_one_le_zero | exact H0]. }
  rewrite <- app_assoc. rewrite searchsorted_right_app.
  2:{ apply Forall_forall. intros b Hb. apply in_map_iff in Hb.
      destruct Hb as [k [<- Hk]]. apply in_range in Hk.
      eapply Qcle_trans; [|exact Hlo]. unfold bin_edge. apply ratio_le; lia. }
  cbn [app]. rewrite searchsorted_right_below by assumption.
  rewrite length_map, length_range. cbn [length]. f_equal. lia.
Qed.


Lemma ratio_le_cross (a c : Z) (p q : positive) :
  (py_float a / py_float (Zpos p) <= py_float c / py_float (Zpos q))%Qc
  <-> a * Zpos q <= c * Zpos p.
Proof.
  unfold Qcle, Qcdiv, Qcmult, Qcinv, py_float. cbn [this Q2Qc].
  rewrite !Qred_correct.
  change (inject_Z a * / inject_Z (Zpos p))%Q
    with (inject_Z a / inject_Z (Zpos p))%Q.
  change (inject_Z c * / inject_Z (Zpos q))%Q
    with (inject_Z c / inject_Z (Zpos q))%Q.
  rewrite <- !Qmake_Qdiv. unfold Qle. cbn [Qnum Qden]. reflexivity.
Qed.

Lemma ratio_lt_cross (a c : Z) (p q : positive) :
  (py_float a / py_float (Zpos p) < py_float c / py_float (Zpos q))%Qc
  <-> a * Zpos q < c * Zpos p.
Proof.
  unfold Qclt, Qcdiv, Qcmult, Qcinv, py_float. cbn [this Q2Qc].
  rewrite !Qred_correct.
  change (inject_Z a * / inject_Z (Zpos p))%Q
    with (inject_Z a / inject_Z (Zpos p))%Q.
  change (inject_Z c * / inject_Z (Zpos q))%Q
    with (inject_Z c / inject_Z (Zpos q))%Q.
  rewrite <- !Qmake_Qdiv. unfold Qlt. cbn [Qnum Qden]. reflexivity.
Qed.

Lemma ratio_le_iff (a b c d : Z) :
  0 < b -> 0 < d ->
  ((py_float a / py_float b <= py_float c / py_float d)%Qc <-> a * d <= c * b).
Proof.
  intros Hb Hd. destruct b as [|p|p]; try lia. destruct d as [|q|q]; try lia.
  apply ratio_le_cross.
Qed.

Lemma ratio_lt_iff (a b c d : Z) :
  0 < b -> 0 < d ->
  ((py_float a / py_float b < py_float c / py_float d)%Qc <-> a * d < c * b).
Proof.
  intros Hb Hd. destruct b as [|p|p]; try lia. destruct d as [|q|q]; try lia.
  apply ratio_lt_cross.
Qed.

Lemma ratio_lt_top (a b : Z) :
  0 < b -> a <= b -> (py_float a / py_float b < lit 11 10)%Qc.
Proof.
  intros Hb Hab. eapply Qcle_lt_trans.
  - apply (ratio_le a b b); [exact Hb | exact Hab].
  - rewrite ratio_self by lia. now apply Qcltb_true.
Qed.

Lemma energy_quantize_edge (levels i : Z) :
  0 <= i < levels ->
  energy_quantize (py_float i / py_float levels)%Qc levels = OK (i + 1).
Proof.
  intros Hi. destruct (Z.eq_dec (i + 1) levels) as [E|E].
  - assert (Ei : i = levels - 1) by lia. subst i.
    replace (levels - 1 + 1) with levels by lia.
    apply energy_quantize_top; [lia | apply Qcle_refl |].
    apply ratio_lt_top; lia.
  - apply energy_quantize_inner_bin; try lia.
    + apply Qcle_refl.
    + apply ratio_lt_iff; lia.
Qed.

(** A non-negative energy never gets the background class. *)
Lemma energy_quantize_foreground (levels : Z) (v : Qc) (c : Z) :
  1 <= levels -> (0 <= v)%Qc -> energy_quantize v levels = OK c -> 1 <= c.
Proof.
  intros HL Hv Hc.
  pose proof (energy_quantize_edge levels 0 ltac:(lia)) as H0.
  rewrite ratio_zero in H0. rewrite energy_quantize_eq in H0, Hc.
  injection H0 as H0. injection Hc as <-.
  pose proof (searchsorted_right_mono (quantize_bins levels) 0%Qc v Hv). lia.
Qed.



(** ** What the 'max' policy can return *)

Section DecodedClasses.

Context {P : Primitives}.

Lemma argmax_from_bound (bi : nat) (b : Qc) (i : nat) (l : list Qc) :
  argmax_from bi b i l = bi
  \/ (i <= argmax_from bi b i l < i + length l)%nat.
Proof.
  revert bi b i. induction l as [|x l IH]; intros bi b i; [now left|].
  cbn [argmax_from length]. destruct (Qcltb b x).
  - destruct (IH i x (S i)) as [E|H]; right; lia.
  - destruct (IH bi b (S i)) as [E|H]; [now left | right; lia].
Qed.

Lemma argmax_lt (l : list Qc) : l <> [] -> (argmax l < length l)%nat.
Proof.
  destruct l as [|x l]; [contradiction|]. intros _. cbn [argmax length].
  destruct (argmax_from_bound 0 x 1 l) as [E|H]; lia.
Qed.

Lemma length_column (C N : nat) (d : list Qc) (j : nat) :
  length (column C N d j) = C.
Proof. unfold column. now rewrite length_map, length_seq. Qed.

Lemma argmax_column_lt (C N : nat) (d : list Qc) (j : nat) :
  C <> O -> (argmax (column C N d j) < C)%nat.
Proof.
  intros HC. rewrite <- (length_column C N d j) at 2. apply argmax_lt.
  intros E. apply (f_equal (@length Qc)) in E.
  rewrite length_column in E. simpl in E. contradiction.
Qed.

Lemma class_energy_range (C k : nat) :
  (k < C)%nat -> (0 <= class_energy C k)%Qc /\ (class_energy C k < 1)%Qc.
Proof.
  intros H. unfold class_energy. split.
  - rewrite <- (ratio_zero (Z.of_nat C)). apply ratio_le; lia.
  - rewrite <- (ratio_self (Z.of_nat C)) by lia.
    apply ratio_lt_iff; nia.
Qed.

Lemma decoded_energy_class (C k : nat) :
  (k < C)%nat -> decoded_energy C (class_energy C k).
Proof.
  intros H. split; [exists k; now split | now apply class_energy_range].
Qed.

(** X3.  For a non-empty class axis of length [C], the 'max' policy
    returns an array of the remaining axes whose every value is [k / C]
    for some class [k < C]: never negative and never 1 or more, so the
    background value -1 and the saturated value 1 cannot be decoded. *)
Theorem decode_max_range (C : nat) (rest : list nat) (d : list Qc)
  (HC : C <> O) :
  (exists e,
      decode_quantize (NumpyArray (NdArray (C :: rest) d)) "max"
      = OK (NdArray rest e)
      /\ length e = size_of rest
      /\ Forall (decoded_energy C) e)
  /\ (forall B,
      exists e,
        decode_quantize (TorchTensor (NdArray (B :: C :: rest) d)) "max"
        = OK (NdArray (B :: rest) e)
        /\ length e = (B * size_of rest)%nat
        /\ Forall (decoded_energy C) e).
Proof.
  split.
  - unfold decode_quantize. cbn [assert bind str_in existsb String.eqb
                                  Ascii.eqb Bool.eqb orb].
    unfold _decode_quant_numpy. cbn [String.eqb Ascii.eqb Bool.eqb shape data].
    destruct (Nat.eqb_spec C 0) as [E|_]; [contradiction|].
    unfold amap. cbn [shape data]. eexists. split; [reflexivity|]. split.
    + unfold reduce_axis0. now rewrite !length_map, length_seq.
    + apply Forall_forall. intros v Hv. apply in_map_iff in Hv.
      destruct Hv as [k [<- Hk]]. unfold reduce_axis0 in Hk.
      apply in_map_iff in Hk. destruct Hk as [j [<- _]].
      apply decoded_energy_class. now apply argmax_column_lt.
  - intros B. unfold decode_quantize.
    cbn [assert bind str_in existsb String.eqb Ascii.eqb Bool.eqb orb].
    unfold _decode_quant_torch. cbn [String.eqb Ascii.eqb Bool.eqb shape data].
    destruct (Nat.eqb_spec C 0) as [E|_]; [contradiction|].
    unfold amap. cbn [shape data]. eexists. split; [reflexivity|]. split.
    + rewrite length_map.
      rewrite (length_flat_map_const _ (size_of rest)).
      * now rewrite length_seq.
      * intros b _. unfold reduce_axis0. now rewrite length_map, length_seq.
    + apply Forall_forall. intros v Hv. apply in_map_iff in Hv.
      destruct Hv as [k [<- Hk]]. apply in_flat_map in Hk.
      destruct Hk as [b [_ Hk]]. unfold reduce_axis0 in Hk.
      apply in_map_iff in Hk. destruct Hk as [j [<- _]].
      apply decoded_energy_class. now apply argmax_column_lt.
Qed.

(** X2.  Decoding a class and quantizing the result again, with a class
    axis of [levels + 1] entries: the 'max' policy turns the class [c]
    into [c / (levels + 1)], which lies in the bin of [c] for every
    foreground class [1 <= c <= levels]; the background class 0 is
    decoded as 0.0 and comes back as class 1. *)
Theorem requantize_decoded_class (levels c : Z)
  (HL : 1 <= levels) (Hc : 0 <= c <= levels) :
  decode_quantize
    (NumpyArray (one_hot_numpy (Z.to_nat levels + 1) [] [Z.to_nat c])) "max"
  = OK (NdArray [] [(py_float c / py_float (levels + 1))%Qc])
  /\ energy_quantize (py_float c / py_float (levels + 1))%Qc levels
     = OK (if c =? 0 then 1 else c).
Proof.
  split.
  - rewrite decode_max_one_hot_numpy;
      [| lia | reflexivity | repeat constructor; lia].
    cbn [map]. unfold class_energy.
    replace (Z.of_nat (Z.to_nat c)) with c by lia.
    replace (Z.of_nat (Z.to_nat levels + 1)) with (levels + 1) by lia.
    reflexivity.
  - destruct (Z.eqb_spec c 0) as [->|Hc0].
    + rewrite ratio_zero.
      rewrite <- (ratio_zero levels). apply (energy_quantize_edge levels 0). lia.
    + destruct (Z.eq_dec c levels) as [->|Hne].
      * apply energy_quantize_top; [assumption| |apply ratio_lt_top; lia].
        apply ratio_le_iff; nia.
      * replace c with ((c - 1) + 1) at 2 by lia.
        apply energy_quantize_inner_bin; try lia.
        -- apply ratio_le_iff; nia.
        -- replace (c - 1 + 1) with c by lia. apply ratio_lt_iff; nia.
Qed.

End DecodedClasses.

Lemma requantize_decoded_class_witness :
  1 <= 10 /\ 0 <= 7 <= 10
  /\ decode_quantize (P := stand_in)
       (NumpyArray (one_hot_numpy 11 [] [7%nat])) "max"
     = OK (NdArray [] [(py_float 7 / py_float 11)%Qc])
  /\ energy_quantize (py_float 7 / py_float 11)%Qc 10 = OK 7.
Proof.
  split; [lia|]. split; [lia|].
  exact (requantize_decoded_class (P := stand_in) 10 7 ltac:(lia) ltac:(lia)).
Defined.

Lemma decode_max_range_witness :
  3%nat <> O
  /\ (exists e,
         decode_quantize (P := stand_in)
           (NumpyArray (NdArray [3%nat; 2%nat]
                          [0%Qc; 1%Qc; 1%Qc; 0%Qc; 0%Qc; 1%Qc])) "max"
         = OK (NdArray [2%nat] e)
         /\ length e = size_of [2%nat]
         /\ Forall (decoded_energy 3) e).
Proof.
  split; [discriminate|].
  exact (proj1 (decode_max_range (P := stand_in) 3 [2%nat]
                  [0%Qc; 1%Qc; 1%Qc; 0%Qc; 0%Qc; 1%Qc] ltac:(discriminate))).
Defined.

(** ** The 'mean' policy on a single class *)

Section MeanSingleClass.

Context {P : Primitives}.

(** X4.  With a class axis of length 1 the product with the 11 bin
    centers broadcasts to 11 rows and no longer fits the shape of the
    input: the 'mean' policy raises [ValueError] on a non-empty numpy
    array and [RuntimeError] on a non-empty torch tensor. *)
Theorem decode_mean_single_class (rest : list nat) (d : list Qc)
  (Hrest : size_of rest <> O) :
  decode_quantize (NumpyArray (NdArray (1%nat :: rest) d)) "mean"
  = Raise ValueError
  /\ (forall B, B <> O ->
        decode_quantize (TorchTensor (NdArray (B :: 1%nat :: rest) d)) "mean"
        = Raise RuntimeError).
Proof.
  split.
  - unfold decode_quantize.
    cbn [assert bind str_in existsb String.eqb Ascii.eqb Bool.eqb orb].
    unfold _decode_quant_numpy.
    cbn [String.eqb Ascii.eqb Bool.eqb shape data Nat.eqb].
    rewrite length_mean_bins. cbn [broadcast_rows Nat.eqb].
    rewrite length_broadcast_mul, size_of_cons.
    destruct (Nat.eqb_spec (11 * size_of rest) (1 * size_of rest)) as [E|_];
      [lia | reflexivity].
  - intros B HB. unfold decode_quantize.
    cbn [assert bind str_in existsb String.eqb Ascii.eqb Bool.eqb orb].
    unfold _decode_quant_torch.
    cbn [String.eqb Ascii.eqb Bool.eqb shape data].
    destruct (Nat.eqb_spec (B * 1) 0) as [E|_]; [lia|].
    rewrite length_mean_bins. cbn [broadcast_rows Nat.eqb].
    rewrite (length_flat_map_const _ (11 * size_of rest)).
    + rewrite length_seq, !size_of_cons.
      destruct (Nat.eqb_spec (B * (11 * size_of rest))
                             (B * (1 * size_of rest))) as [E|_];
        [nia | reflexivity].
    + intros b _. apply length_broadcast_mul.
Qed.

End MeanSingleClass.

Lemma decode_mean_single_class_witness :
  size_of [2%nat] <> O
  /\ decode_quantize (P := stand_in)
       (NumpyArray (NdArray [1%nat; 2%nat] [0%Qc; 1%Qc])) "mean"
     = Raise ValueError.
Proof.
  split; [discriminate|].
  exact (proj1 (decode_mean_single_class (P := stand_in) [2%nat] [0%Qc; 1%Qc]
                  ltac:(discriminate))).
Defined.

(** ** Entry points on degenerate inputs *)

Section EntryPoints.

Context {P : Primitives}.

Lemma skeleton_aware_step_not_assertion label resolution alpha smooth sso st idx :
  skeleton_aware_step label resolution alpha smooth sso st idx
  <> Raise AssertionError.
Proof.
  unfold skeleton_aware_step. destruct st as [[skeleton distance] semantic].
  cbv zeta.
  apply bind_not_assertion; [no_assertion|]. intros [binary temp2].
  apply bind_not_assertion; [no_assertion|]. intros semantic'.
  apply bind_not_assertion; [no_assertion|]. intros skeleton'.
  apply bind_not_assertion; [apply distance_transform_edt_not_assertion|].
  intros skeleton_edt.
  apply bind_not_assertion; [apply distance_transform_edt_not_assertion|].
  intros boundary_edt. no_assertion.
Qed.

Lemma skeleton_aware_distance_transform_not_assertion
  label bg relabel padding resolution alpha smooth sso :
  skeleton_aware_distance_transform label bg relabel padding resolution alpha
                                    smooth sso
  <> Raise AssertionError.
Proof.
  unfold skeleton_aware_distance_transform,
    skeleton_aware_distance_transform_in_order.
  apply bind_not_assertion; [apply select_indices_not_assertion|].
  intros [indices all_bg]. apply bind_not_assertion.
  - destruct (negb all_bg); [|discriminate].
    apply foldM_not_assertion. intros s a.
    apply skeleton_aware_step_not_assertion.
  - intros [[sk d] s]. discriminate.
Qed.

(** X5.  [sdt_instance] stops at its assertion exactly when the mode is
    not '2d'; in particular it refuses the mode '3d' that
    [edt_instance] accepts. *)
Theorem sdt_instance_only_2d label mode quantize resolution padding :
  sdt_instance label mode quantize resolution padding = Raise AssertionError
  <-> mode <> "2d"%string.
Proof.
  unfold sdt_instance. destruct (String.eqb_spec mode "2d") as [->|Hne].
  - cbn [assert bind]. split; [|intros H; now contradiction H].
    intros H. exfalso. revert H.
    apply bind_not_assertion; [apply shape0_not_assertion|]. intros n.
    apply bind_not_assertion;
      [apply mapM_not_assertion; intros;
       apply skeleton_aware_distance_transform_not_assertion|]. intros sl.
    apply bind_not_assertion; [apply np_stack_not_assertion|]. intros vd.
    apply bind_not_assertion; [apply np_stack_not_assertion|]. intros vs.
    apply quantize_out_not_assertion.
  - cbn [assert bind]. split; [intros _; exact Hne | reflexivity].
Qed.

(** X6.  The per-slice entry points on a label array without slices:
    an array without axes has no [shape[0]] ([IndexError]), and a stack
    of zero slices leaves [np.stack] without arrays ([ValueError]). *)
Theorem per_slice_degenerate_stacks (label : ndarray Z) :
  (shape label = [] ->
   (forall quantize resolution padding erosion,
       edt_instance label "2d" quantize resolution padding erosion
       = Raise IndexError)
   /\ (forall quantize resolution padding,
       sdt_instance label "2d" quantize resolution padding = Raise IndexError)
   /\ (forall alpha_fore alpha_back,
       edt_semantic label "2d" alpha_fore alpha_back = Raise IndexError))
  /\ (forall sh, shape label = O :: sh ->
      (forall quantize resolution padding erosion,
          edt_instance label "2d" quantize resolution padding erosion
          = Raise ValueError)
      /\ (forall quantize resolution padding,
          sdt_instance label "2d" quantize resolution padding
          = Raise ValueError)
      /\ (length sh <> 1%nat ->
          forall alpha_fore alpha_back,
            edt_semantic label "2d" alpha_fore alpha_back = Raise ValueError)).
Proof.
  split.
  - intros Hsh. repeat split; intros.
    + unfold edt_instance, shape0. now rewrite Hsh.
    + unfold sdt_instance, shape0. now rewrite Hsh.
    + unfold edt_semantic, shape0, ndim. cbn [amap shape]. now rewrite Hsh.
  - intros sh Hsh. repeat split; intros.
    + unfold edt_instance, shape0. now rewrite Hsh.
    + unfold sdt_instance, shape0. now rewrite Hsh.
    + unfold edt_semantic, shape0, ndim. cbn [amap shape]. rewrite Hsh.
      cbn [length]. destruct (Nat.eqb_spec (S (length sh)) 2) as [E|_];
        [lia | reflexivity].
Qed.

End EntryPoints.

Lemma per_slice_degenerate_stacks_witness :
  edt_instance (P := stand_in) (NdArray [] [3]) "2d" true [1%Qc; 1%Qc] false 0
  = Raise IndexError
  /\ edt_semantic (P := stand_in) (NdArray [O; 2%nat; 2%nat] []) "2d"
                  (lit 8 1) (lit 50 1)
     = Raise ValueError.
Proof.
  destruct (per_slice_degenerate_stacks (P := stand_in) (NdArray [] [3]))
    as [H0 _].
  destruct (per_slice_degenerate_stacks (P := stand_in)
              (NdArray [O; 2%nat; 2%nat] [])) as [_ H1].
  split.
  - apply (H0 eq_refl).
  - apply (H1 [2%nat; 2%nat] eq_refl). discriminate.
Defined.

Section EmptyLabel.

Context {P : Primitives} {PS : PrimitivesSpec P}.

Lemma prepare_label_empty (label : ndarray Z) (relabel : bool) :
  data label = [] -> data (prepare_label label relabel false) = [].
Proof.
  intros H. destruct (prepare_label_unpadded label relabel) as [_ Hl].
  apply length_zero_iff_nil. rewrite Hl, H. reflexivity.
Qed.

(** X7.  Without padding, a label map without cells makes both instance
    transforms fail at [indices[0]] with [IndexError], and [edt_instance]
    in mode '3d' with them. *)
Theorem empty_label_index_error (label : ndarray Z) (Hempty : data label = []) :
  (forall bg_value relabel resolution erosion,
      distance_transform label bg_value relabel false resolution erosion
      = Raise IndexError)
  /\ (forall bg_value relabel resolution alpha smooth smooth_skeleton_only,
      skeleton_aware_distance_transform label bg_value relabel false
        resolution alpha smooth smooth_skeleton_only
      = Raise IndexError)
  /\ (forall quantize resolution erosion,
      edt_instance label "3d" quantize resolution false erosion
      = Raise IndexError).
Proof.
  assert (Hdt : forall bg relabel resolution erosion,
             distance_transform label bg relabel false resolution erosion
             = Raise IndexError).
  { intros. unfold distance_transform, distance_transform_in_order, np_unique.
    now rewrite (prepare_label_empty label relabel Hempty). }
  split; [exact Hdt|]. split.
  - intros. unfold skeleton_aware_distance_transform,
      skeleton_aware_distance_transform_in_order, np_unique.
    now rewrite (prepare_label_empty label relabel Hempty).
  - intros. unfold edt_instance.
    change (str_in "3d" ["2d"; "3d"]%string) with true.
    change (String.eqb "3d" "3d") with true. cbn [assert bind].
    now rewrite Hdt.
Qed.

End EmptyLabel.

Lemma empty_label_index_error_witness :
  distance_transform (P := stand_in) (NdArray [O; 2%nat] []) (lit (-1) 1)
                     true false [1%Qc; 1%Qc] 0
  = Raise IndexError.
Proof.
  destruct (empty_label_index_error (P := stand_in) (PS := stand_in_spec)
              (NdArray [O; 2%nat] []) eq_refl) as [H _].
  apply H.
Defined.

(** ** Label maps without foreground *)

Section NoForeground.

Context {P : Primitives} {PS : PrimitivesSpec P}.





Lemma minus_five : (0 - lit 5 1)%Qc = lit (-5) 1.
Proof. apply Qc_is_canon. reflexivity. Qed.

Lemma edt_semantic_finish_background (sh : list nat) (n : nat) :
  (distance <- azip Qcminus (NdArray sh (repeat 0%Qc n))
                            (NdArray sh (repeat (lit 5 1) n)) ;;
   OK (amap np_tanh distance))
  = OK (NdArray sh (repeat (np_tanh (lit (-5) 1)) n)).
Proof.
  rewrite azip_same by reflexivity. cbn [bind shape data].
  rewrite zip_with_repeat, minus_five.
  unfold amap. cbn [shape data]. now rewrite map_repeat.
Qed.

(** X9.  On a label array without foreground cells, [edt_semantic]
    returns the constant array of value tanh(-5): here the background
    mask takes the short cut to the constant 5 and the foreground mask
    has distance 0 everywhere.  The label array has 2 or 3 axes and at
    least one cell; [alpha_fore] is not 0. *)
Theorem edt_semantic_all_background label mode alpha_fore alpha_back :
  wf label ->
  Forall (fun x => x = 0) (data label) ->
  In mode ["2d"; "3d"]%string ->
  ndim label = 2%nat \/ ndim label = 3%nat ->
  size_of (shape label) <> O ->
  alpha_fore <> 0%Qc ->
  edt_semantic label mode alpha_fore alpha_back
  = OK (full (shape label) (np_tanh (lit (-5) 1))).
Proof.
  intros Hwf Hbg Hmode Hnd Hne _.
  destruct label as [sh d]. unfold wf, ndim in *. cbn [shape data] in *.
  assert (Hfore : amap (fun l => negb (l =? 0)) (NdArray sh d)
                  = NdArray sh (repeat false (size_of sh))).
  { unfold amap. cbn [shape data]. f_equal. rewrite <- Hwf.
    apply map_const. intros x Hx. rewrite Forall_forall in Hbg.
    now rewrite (Hbg x Hx). }
  assert (Hback : amap (fun l => l =? 0) (NdArray sh d)
                  = NdArray sh (repeat true (size_of sh))).
  { unfold amap. cbn [shape data]. f_equal. rewrite <- Hwf.
    apply map_const. intros x Hx. rewrite Forall_forall in Hbg.
    now rewrite (Hbg x Hx). }
  unfold edt_semantic. rewrite Hfore, Hback.
  apply str_in_true in Hmode. rewrite Hmode. cbn [assert bind].
  unfold ndim. cbn [shape]. unfold full.
  apply str_in_true in Hmode.
  destruct Hmode as [<-|[<-|[]]]; destruct Hnd as [Hnd|Hnd]; rewrite Hnd;
    cbn [String.eqb Ascii.eqb Bool.eqb Nat.eqb orb].
  - rewrite _edt_binary_mask_all_true.
    rewrite _edt_binary_mask_all_false
      by (first [ assumption
                | now rewrite Hnd
                | intros E; rewrite E in Hnd; discriminate ]).
    cbn [bind]. apply edt_semantic_finish_background.
  - destruct sh as [|n0 sh']; [discriminate|].
    cbn [shape0 shape bind]. rewrite size_of_cons in *.
    assert (Hn0 : n0 <> O) by (intros ->; now apply Hne).
    assert (Hin : size_of sh' <> O) by (intros E; apply Hne; rewrite E; lia).
    rewrite (mapM_ok _ (fun _ => NdArray sh' (repeat 0%Qc (size_of sh')))).
    2:{ intros i Hi. apply in_seq in Hi. unfold slice0. cbn [shape data tl].
        rewrite chunk_repeat by lia.
        apply _edt_binary_mask_all_false; [assumption| |].
        - intros E. rewrite E in Hnd. discriminate.
        - cbn [length] in Hnd. cbn [length]. lia. }
    cbn [bind].
    rewrite (mapM_ok _ (fun _ => NdArray sh' (repeat (lit 5 1) (size_of sh')))).
    2:{ intros i Hi. apply in_seq in Hi. unfold slice0. cbn [shape data tl].
        rewrite chunk_repeat by lia. apply _edt_binary_mask_all_true. }
    cbn [bind]. rewrite !np_stack_constant by assumption. cbn [bind].
    apply edt_semantic_finish_background.
  - rewrite _edt_binary_mask_all_true.
    rewrite _edt_binary_mask_all_false
      by (first [ assumption
                | now rewrite Hnd
                | intros E; rewrite E in Hnd; discriminate ]).
    cbn [bind]. apply edt_semantic_finish_background.
  - rewrite _edt_binary_mask_all_true.
    rewrite _edt_binary_mask_all_false
      by (first [ assumption
                | now rewrite Hnd
                | intros E; rewrite E in Hnd; discriminate ]).
    cbn [bind]. apply edt_semantic_finish_background.
Qed.

End NoForeground.


Lemma edt_semantic_all_background_witness :
  edt_semantic (P := stand_in) (NdArray [2%nat; 1%nat; 2%nat] [0; 0; 0; 0])
               "2d" (lit 8 1) (lit 50 1)
  = OK (full [2%nat; 1%nat; 2%nat] (np_tanh (lit (-5) 1))).
Proof.
  apply (edt_semantic_all_background (P := stand_in) (PS := stand_in_spec)).
  - reflexivity.
  - repeat constructor.
  - left. reflexivity.
  - right. reflexivity.
  - discriminate.
  - intros E. apply Qceqb_true in E. discriminate.
Defined.

(** ** The maps the instance transform returns *)

(** Order facts on [Qc], decided on the underlying fractions. *)
Ltac qc_lra :=
  unfold Qcle, Qclt, Qcminus in *; unfold Qcplus, Qcopp in *;
  cbn [this Q2Qc] in *; rewrite ?Qred_correct in *; lra.

Lemma Qcinv_pos (x : Qc) : (0 < x)%Qc -> (0 < / x)%Qc.
Proof.
  intros H. unfold Qclt in *. change (this 0%Qc) with 0%Q in *.
  unfold Qcinv. cbn [this Q2Qc]. rewrite Qred_correct.
  now apply Qinv_lt_0_compat.
Qed.

Lemma eps_pos : (0 < eps)%Qc.
Proof. now apply Qcltb_true. Qed.

(** [d / (m + eps)] for [0 <= d <= m]: the normalization of the loop. *)
Lemma normalized_unit (d m : Qc) :
  (0 <= d)%Qc -> (d <= m)%Qc -> unit_energy (d / (m + eps))%Qc.
Proof.
  intros H0 Hm. pose proof eps_pos as He.
  assert (Hpos : (0 < m + eps)%Qc) by qc_lra.
  pose proof (Qcinv_pos _ Hpos) as Hinv.
  unfold unit_energy, Qcdiv. split.
  - replace 0%Qc with (0 * / (m + eps))%Qc by ring.
    apply Qcmult_le_compat_r; [exact H0 | now apply Qclt_le_weak].
  - replace 1%Qc with ((m + eps) * / (m + eps))%Qc.
    + apply Qcmult_lt_compat_r; [exact Hinv | qc_lra].
    + apply Qcmult_inv_r. intros E. rewrite E in Hpos.
      exact (Qclt_not_le _ _ Hpos (Qcle_refl _)).
Qed.

Lemma fold_max_ge_init (t : list Qc) (m0 : Qc) :
  (m0 <= fold_left (fun m y => if Qcltb m y then y else m) t m0)%Qc.
Proof.
  revert m0. induction t as [|y t IH]; intros m0; [apply Qcle_refl|].
  cbn [fold_left]. destruct (Qcltb m0 y) eqn:E.
  - eapply Qcle_trans; [|apply IH]. apply Qclt_le_weak. now apply Qcltb_true.
  - apply IH.
Qed.

Lemma fold_max_ge_in (t : list Qc) (m0 y : Qc) :
  In y t ->
  (y <= fold_left (fun m y => if Qcltb m y then y else m) t m0)%Qc.
Proof.
  revert m0. induction t as [|z t IH]; intros m0 Hy; [contradiction|].
  cbn [fold_left]. destruct Hy as [->|Hy]; [|now apply IH].
  destruct (Qcltb m0 y) eqn:E.
  - apply fold_max_ge_init.
  - eapply Qcle_trans; [|apply fold_max_ge_init]. now apply Qcltb_false.
Qed.

(** [a.max()] is at least every cell. *)
Lemma amax_value_ge (a : ndarray Qc) (d : Qc) :
  In d (data a) -> (d <= amax_value a)%Qc.
Proof.
  unfold amax_value, amax. destruct (data a) as [|x t]; [contradiction|].
  intros [->|H]; [apply fold_max_ge_init | now apply fold_max_ge_in].
Qed.

Lemma Forall_zip_with {A B C : Type} (f : A -> B -> C)
  (PA : A -> Prop) (PB : B -> Prop) (PC : C -> Prop) (l : list A) (r : list B) :
  (forall x y, PA x -> PB y -> PC (f x y)) ->
  Forall PA l -> Forall PB r -> Forall PC (zip_with f l r).
Proof.
  intros Hf Hl. revert r. induction Hl as [|x l Hx _ IH]; intros r Hr.
  - constructor.
  - destruct Hr as [|y r Hy Hr]; [constructor|].
    cbn [zip_with]. constructor; [now apply Hf | now apply IH].
Qed.

Lemma unit_energy_maximum (x y : Qc) :
  unit_energy x -> unit_energy y -> unit_energy (maximum x y).
Proof. intros Hx Hy. unfold maximum. now destruct (Qcltb x y). Qed.

Lemma unit_energy_masked (v : Qc) (b : bool) :
  unit_energy v -> unit_energy (v * b2f b)%Qc.
Proof.
  intros Hv. destruct b; cbn [b2f].
  - now replace (v * 1)%Qc with v by ring.
  - replace (v * 0)%Qc with 0%Qc by ring.
    split; [apply Qcle_refl | now apply Qcltb_true].
Qed.

Lemma uint8_add_value (x y : Z) : uint8_value (uint8_add x y).
Proof. unfold uint8_value, uint8_add. apply Z.mod_pos_bound. lia. Qed.

Lemma Forall_repeat {A : Type} (Q : A -> Prop) (v : A) (n : nat) :
  Q v -> Forall Q (repeat v n).
Proof. intros H. induction n; simpl; constructor; assumption. Qed.

Lemma in_firstn {A : Type} (n : nat) (l : list A) (x : A) :
  In x (firstn n l) -> In x l.
Proof.
  revert l. induction n as [|n IH]; intros l H; [contradiction|].
  destruct l as [|a l]; [contradiction|].
  destruct H as [->|H]; [now left | right; now apply IH].
Qed.

Lemma in_skipn {A : Type} (n : nat) (l : list A) (x : A) :
  In x (skipn n l) -> In x l.
Proof.
  revert l. induction n as [|n IH]; intros l H; [exact H|].
  destruct l as [|a l]; [contradiction|]. right. now apply IH.
Qed.

Lemma unpad_data_incl {A : Type} (pads : list (nat * nat)) (sh : list nat)
  (d : list A) (x : A) :
  In x (unpad_data pads sh d) -> In x d.
Proof.
  revert pads d. induction sh as [|n sh IH]; intros pads d H.
  - destruct pads; exact H.
  - destruct pads as [|[lo hi] pads]; [exact H|].
    cbn [unpad_data] in H. apply in_flat_map in H.
    destruct H as [i [_ H]]. apply IH in H. unfold chunk in H.
    apply in_firstn, in_skipn in H. exact H.
Qed.

Lemma Forall_array_unpad {A : Type} (Q : A -> Prop) (a : ndarray A)
  (pads : list (nat * nat)) :
  Forall Q (data a) -> Forall Q (data (array_unpad a pads)).
Proof.
  intros H. apply Forall_forall. intros x Hx. cbn [array_unpad data] in Hx.
  apply unpad_data_incl in Hx. rewrite Forall_forall in H. now apply H.
Qed.

Lemma fill_background_values (bg : Qc) (d : ndarray Qc) :
  Forall unit_energy (data d) ->
  Forall (distance_value bg) (data (fill_background bg d)).
Proof.
  intros H. unfold fill_background. destruct (Qceqb bg 0%Qc) eqn:Ebg.
  - apply Qceqb_true in Ebg. subst bg.
    eapply Forall_impl; [|exact H]. intros v [H0 H1].
    apply Qcle_lt_or_eq in H0. destruct H0 as [H0|H0].
    + right. now split.
    + left. now symmetry.
  - cbn [amap data]. apply Forall_map.
    eapply Forall_impl; [|exact H]. intros v [H0 H1]. cbv beta.
    destruct (Qceqb v 0%Qc) eqn:Ev; [now left|].
    right. split; [|exact H1].
    apply Qcle_lt_or_eq in H0. destruct H0 as [H0|H0]; [exact H0|].
    symmetry in H0. apply Qceqb_true in H0. congruence.
Qed.

Section InstanceMaps.

Context {P : Primitives} {PS : PrimitivesSpec P}.

Lemma dt_energy_unit label resolution erosion fp idx :
  edt_nonnegative P ->
  Forall unit_energy (dt_energy label resolution erosion fp idx).
Proof.
  intros Hnn. unfold dt_energy.
  set (temp2 := dt_mask label erosion fp idx).
  set (b := edt temp2 resolution).
  assert (Hnorm : Forall unit_energy
                    (map (fun d => (d / (amax_value b + eps))%Qc) (data b))).
  { apply Forall_map, Forall_forall. intros d Hd.
    apply normalized_unit; [|now apply amax_value_ge].
    pose proof (Hnn temp2 resolution) as H. rewrite Forall_forall in H.
    now apply H. }
  revert Hnorm. generalize (map (fun d => (d / (amax_value b + eps))%Qc) (data b)).
  generalize (data temp2). intros mask.
  induction mask as [|m mask IH]; intros l Hl.
  - destruct l; constructor.
  - destruct Hl as [|v l Hv Hl]; [constructor|].
    cbn [map zip_with]. constructor; [now apply unit_energy_masked | now apply IH].
Qed.

(** The state after the loop is the fold of the pure merge. *)
Lemma distance_transform_loop_result label resolution erosion fp d0 s0 ids st :
  shape d0 = shape label -> shape s0 = shape label -> data label <> [] ->
  foldM (distance_transform_step label resolution erosion fp) ids (d0, s0)
  = OK st ->
  st = fold_left (dt_merge label resolution erosion fp) ids (d0, s0).
Proof.
  intros Hd Hs Hne Hrun.
  destruct (dt_step_error label resolution erosion fp) as [e|] eqn:Herr.
  - destruct ids as [|a ids]; [now injection Hrun as <-|].
    rewrite foldM_cons, distance_transform_step_spec in Hrun by assumption.
    rewrite Herr in Hrun. discriminate.
  - set (Inv := fun st : ndarray Qc * ndarray Z =>
                  shape (fst st) = shape label /\ shape (snd st) = shape label).
    assert (Hstep : forall st a, Inv st ->
              distance_transform_step label resolution erosion fp st a
              = OK (dt_merge label resolution erosion fp st a)
              /\ Inv (dt_merge label resolution erosion fp st a)).
    { intros [d1 s1] a [H1 H2]. cbn [fst snd] in H1, H2. split.
      - rewrite distance_transform_step_spec by assumption. now rewrite Herr.
      - split; assumption. }
    destruct (foldM_ok _ _ Inv Hstep ids (d0, s0)) as [E _]; [now split|].
    rewrite E in Hrun. now injection Hrun as <-.
Qed.

Lemma dt_fold_values label resolution erosion fp ids st :
  edt_nonnegative P ->
  Forall unit_energy (data (fst st)) -> Forall uint8_value (data (snd st)) ->
  Forall unit_energy
    (data (fst (fold_left (dt_merge label resolution erosion fp) ids st)))
  /\ Forall uint8_value
       (data (snd (fold_left (dt_merge label resolution erosion fp) ids st))).
Proof.
  intros Hnn. revert st. induction ids as [|a ids IH]; intros st Hd Hs;
    [now split|].
  cbn [fold_left]. apply IH; unfold dt_merge; cbn [fst snd data].
  - apply (Forall_zip_with maximum unit_energy unit_energy);
      [apply unit_energy_maximum | exact Hd | now apply dt_energy_unit].
  - apply (Forall_zip_with uint8_add uint8_value (fun _ => True));
      [intros; apply uint8_add_value | exact Hs |].
    apply Forall_forall. intros; exact I.
Qed.

Lemma dt_fold_shape label resolution erosion fp ids st :
  shape (fst (fold_left (dt_merge label resolution erosion fp) ids st))
  = shape (fst st)
  /\ shape (snd (fold_left (dt_merge label resolution erosion fp) ids st))
     = shape (snd st).
Proof.
  revert st. induction ids as [|a ids IH]; intros st; [now split|].
  cbn [fold_left]. destruct (IH (dt_merge label resolution erosion fp st a))
    as [H1 H2]. now rewrite H1, H2.
Qed.

Lemma unit_energy_zero : unit_energy 0%Qc.
Proof. split; [apply Qcle_refl | now apply Qcltb_true]. Qed.

Lemma uint8_value_zero : uint8_value 0.
Proof. unfold uint8_value. lia. Qed.

(** The cells of what [distance_transform] returns: the distance map
    holds [bg_value] or energies of the open unit interval, the semantic
    mask holds [uint8] values. *)
Lemma distance_transform_cells
  label bg relabel padding resolution erosion d s :
  edt_nonnegative P ->
  distance_transform label bg relabel padding resolution erosion = OK (d, s) ->
  Forall (distance_value bg) (data d) /\ Forall uint8_value (data s).
Proof.
  intros Hnn. unfold distance_transform, distance_transform_in_order.
  set (L := prepare_label label relabel padding).
  destruct (select_indices (np_unique L)) as [[ids all_bg]|e] eqn:Hsel;
    [|discriminate].
  cbn [bind].
  assert (Hne : data L <> [])
    by (apply np_unique_empty; eapply select_indices_nonempty; exact Hsel).
  assert (Hst : forall st,
             (if negb all_bg
              then foldM (distance_transform_step L resolution erosion
                            (erosion_footprint erosion (ndim L)))
                         ids (full (shape L) 0%Qc, full (shape L) 0)
              else OK (full (shape L) 0%Qc, full (shape L) 0)) = OK st ->
             Forall unit_energy (data (fst st))
             /\ Forall uint8_value (data (snd st))).
  { intros st Hrun. destruct all_bg; cbn [negb] in Hrun.
    - injection Hrun as <-. cbn [fst snd full data].
      split; apply Forall_repeat;
        [apply unit_energy_zero | apply uint8_value_zero].
    - apply distance_transform_loop_result in Hrun;
        [|reflexivity|reflexivity|exact Hne].
      subst st. apply dt_fold_values; [exact Hnn| |]; cbn [fst snd full data];
        apply Forall_repeat;
        [apply unit_energy_zero | apply uint8_value_zero]. }
  destruct (if negb all_bg then _ else _) as [[d1 s1]|e]; [|discriminate].
  cbn [bind]. destruct (Hst (d1, s1) eq_refl) as [Hd Hs].
  cbn [fst snd] in Hd, Hs. intros Hfin. injection Hfin as Hfin.
  unfold finish_transform in Hfin. destruct padding; injection Hfin as <- <-.
  - split; apply Forall_array_unpad;
      [now apply fill_background_values | exact Hs].
  - split; [now apply fill_background_values | exact Hs].
Qed.

(** X11.  Whatever [distance_transform] returns, for a distance
    transform without negative distances: every cell of the distance map
    is [bg_value] or an energy strictly between 0 and 1 (the division by
    [max + eps] keeps every energy below 1), and every cell of the
    semantic mask is a [uint8]. *)
Theorem distance_transform_values
  label bg relabel padding resolution erosion d s :
  edt_nonnegative P ->
  distance_transform label bg relabel padding resolution erosion = OK (d, s) ->
  Forall (distance_value bg) (data d) /\ Forall uint8_value (data s).
Proof. apply distance_transform_cells. Qed.

Lemma prepare_label_shape (label : ndarray Z) (relabel padding : bool) :
  shape (prepare_label label relabel padding)
  = if padding then map (fun k => k + 2 * pad_size)%nat (shape label)
    else shape label.
Proof.
  destruct padding; [apply prepare_label_padded_shape|].
  now destruct (prepare_label_unpadded label relabel).
Qed.

Lemma prepare_label_nonempty (label : ndarray Z) (relabel padding : bool) :
  wf label -> padding = true \/ data label <> [] ->
  data (prepare_label label relabel padding) <> [].
Proof.
  intros Hwf Hne. destruct padding.
  - now apply prepare_label_padded_nonempty.
  - destruct Hne as [H|H]; [discriminate|].
    destruct (prepare_label_unpadded label relabel) as [_ Hl].
    intros E. apply H. apply length_zero_iff_nil. now rewrite <- Hl, E.
Qed.

Lemma prepare_label_ndim (label : ndarray Z) (relabel padding : bool) :
  ndim (prepare_label label relabel padding) = ndim label.
Proof.
  unfold ndim. rewrite prepare_label_shape.
  destruct padding; [apply length_map | reflexivity].
Qed.

Lemma finish_transform_shape (bg : Qc) (padding : bool) (d : ndarray Qc)
  (s : ndarray Z) (sh : list nat) :
  shape d = (if padding then map (fun k => k + 2 * pad_size)%nat sh else sh) ->
  shape s = (if padding then map (fun k => k + 2 * pad_size)%nat sh else sh) ->
  shape (fst (finish_transform bg padding (d, s))) = sh
  /\ shape (snd (finish_transform bg padding (d, s))) = sh.
Proof.
  destruct padding; [apply finish_transform_padded_shape|].
  intros Hd Hs. unfold finish_transform. cbn [fst snd].
  now rewrite fill_background_shape.
Qed.

Lemma distance_transform_returns label bg relabel padding resolution erosion :
  wf label ->
  ndim label <> O ->
  length resolution = ndim label ->
  erosion <= 0 \/ ndim label = 2%nat \/ ndim label = 3%nat ->
  padding = true \/ data label <> [] ->
  exists d s,
    distance_transform label bg relabel padding resolution erosion = OK (d, s)
    /\ shape d = shape label /\ shape s = shape label.
Proof.
  intros Hwf Hnz Hres Her Hcell.
  unfold distance_transform, distance_transform_in_order.
  set (L := prepare_label label relabel padding).
  pose proof (prepare_label_shape label relabel padding) as HL. fold L in HL.
  assert (Hne : data L <> []) by now apply prepare_label_nonempty.
  assert (Hnd : ndim L = ndim label) by apply prepare_label_ndim.
  destruct (select_indices_ok (np_unique L) (np_unique_nonempty L Hne))
    as [[indices all_bg] Hsel].
  rewrite Hsel. cbn [bind].
  assert (Hst : exists d s,
    (if negb all_bg
     then foldM (distance_transform_step L resolution erosion
                   (erosion_footprint erosion (ndim L)))
                indices (full (shape L) 0%Qc, full (shape L) 0)
     else OK (full (shape L) 0%Qc, full (shape L) 0)) = OK (d, s)
    /\ shape d = shape L /\ shape s = shape L).
  { destruct all_bg; cbn [negb].
    - do 2 eexists. split; [reflexivity|]. now split.
    - set (Inv := fun st : ndarray Qc * ndarray Z =>
                    shape (fst st) = shape L /\ shape (snd st) = shape L).
      assert (Hstep : forall st a, Inv st ->
                distance_transform_step L resolution erosion
                  (erosion_footprint erosion (ndim L)) st a
                = OK (dt_merge L resolution erosion
                        (erosion_footprint erosion (ndim L)) st a)
                /\ Inv (dt_merge L resolution erosion
                          (erosion_footprint erosion (ndim L)) st a)).
      { intros [d0 s0] a [H1 H2]. cbn [fst snd] in H1, H2. split.
        - rewrite distance_transform_step_spec by assumption.
          rewrite dt_step_error_none; [reflexivity| | |]; now rewrite Hnd.
        - split; assumption. }
      destruct (foldM_ok _ _ Inv Hstep indices
                  (full (shape L) 0%Qc, full (shape L) 0))
        as [E [H1 H2]]; [now split|].
      rewrite E.
      destruct (fold_left _ indices _) as [d s]. exists d, s.
      split; [reflexivity|]. now split. }
  destruct Hst as [d [s [-> [Hd Hs]]]]. cbn [bind].
  rewrite HL in Hd, Hs.
  destruct (finish_transform_shape bg padding d s (shape label) Hd Hs)
    as [H1 H2].
  destruct (finish_transform bg padding (d, s)) as [d' s'].
  exists d', s'. split; [reflexivity|]. now split.
Qed.



End InstanceMaps.

Lemma stand_in_edt_nonnegative : edt_nonnegative stand_in.
Proof.
  intros m sampling. cbn [edt stand_in amap data].
  apply Forall_map, Forall_forall. intros b _.
  destruct b; cbn [b2f]; now apply Qcleb_true.
Qed.


Lemma distance_transform_values_witness :
  exists d s,
    distance_transform (P := stand_in) (NdArray [2%nat; 2%nat] [1; 0; 0; 2])
      (lit (-1) 1) true false [1%Qc; 1%Qc] 0 = OK (d, s)
    /\ Forall (distance_value (lit (-1) 1)) (data d)
    /\ Forall uint8_value (data s).
Proof.
  destruct (distance_transform_returns (P := stand_in) (PS := stand_in_spec)
              (NdArray [2%nat; 2%nat] [1; 0; 0; 2]) (lit (-1) 1) true false
              [1%Qc; 1%Qc] 0)
    as [d [s [E _]]];
    [reflexivity | discriminate | reflexivity | left; lia
     | right; discriminate |].
  exists d, s. split; [exact E|].
  exact (distance_transform_values (P := stand_in) (PS := stand_in_spec)
           _ _ _ _ _ _ d s stand_in_edt_nonnegative E).
Defined.

(** ** The classes [edt_instance] returns *)

Lemma mapM_Forall2 {A B : Type} (f : A -> result B) (l : list A) (ys : list B) :
  mapM f l = OK ys -> Forall2 (fun x y => f x = OK y) l ys.
Proof.
  revert ys. induction l as [|x l IH]; intros ys H.
  - injection H as <-. constructor.
  - cbn [mapM] in H. destruct (f x) as [y|e] eqn:Ey; [|discriminate].
    cbn [bind] in H. destruct (mapM f l) as [ys'|e]; [|discriminate].
    injection H as <-. constructor; [exact Ey | now apply IH].
Qed.

Lemma np_stack_data {A : Type} (arrays : list (ndarray A)) (a : ndarray A) :
  np_stack arrays = OK a -> data a = concat (map data arrays).
Proof.
  unfold np_stack. destruct arrays as [|b rest]; [discriminate|].
  destruct (forallb _ _); [|discriminate]. now injection 1 as <-.
Qed.

(** The class of one cell of a distance map with background -1: within
    [0, levels], and 0 exactly on the background. *)
Lemma energy_quantize_distance_value (v : Qc) :
  distance_value (lit (-1) 1) v ->
  exists c, energy_quantize v default_levels = OK c
            /\ 0 <= c <= default_levels
            /\ (c = 0 <-> v = lit (-1) 1).
Proof.
  intros [->|[H0 H1]].
  - exists 0. rewrite energy_quantize_bottom. unfold default_levels.
    split; [reflexivity|]. split; [lia|]. split; reflexivity.
  - destruct (energy_quantize_in_range default_levels v) as [c [Hc Hr]].
    + unfold default_levels. lia.
    + apply Qclt_le_weak. eapply Qcle_lt_trans; [apply minus_one_le_zero|].
      exact H0.
    + eapply Qclt_le_trans; [exact H1 | apply one_le_top].
    + exists c. split; [exact Hc|]. split; [exact Hr|].
      assert (H1c : 1 <= c).
      { apply (energy_quantize_foreground default_levels v c);
          [unfold default_levels; lia | now apply Qclt_le_weak | exact Hc]. }
      split; [lia|]. intros ->. exfalso.
      assert (Hneg : (lit (-1) 1 < 0)%Qc) by now apply Qcltb_true.
      exact (Qclt_not_le _ _ (Qclt_trans _ _ _ Hneg H0) (Qcle_refl _)).
Qed.

Lemma Forall2_quantized (l : list Qc) (qs : list Z) :
  Forall (distance_value (lit (-1) 1)) l ->
  Forall2 (fun x y => energy_quantize x default_levels = OK y) l qs ->
  Forall2 (fun v c => energy_quantize v default_levels = OK c
                      /\ 0 <= c <= default_levels
                      /\ (c = 0 <-> v = lit (-1) 1)) l qs.
Proof.
  intros Hl H2. induction H2 as [|v c l qs Hvc _ IH]; [constructor|].
  pose proof (Forall_inv Hl) as Hv. pose proof (Forall_inv_tail Hl) as Hl'.
  constructor; [|exact (IH Hl')].
  destruct (energy_quantize_distance_value v Hv) as [c' [Hc' [Hr Hz]]].
  rewrite Hvc in Hc'. injection Hc' as <-.
  split; [exact Hvc|]. split; [exact Hr | exact Hz].
Qed.

Lemma quantize_out_classes (vol_distance : ndarray Qc) (out : energy_out) :
  Forall (distance_value (lit (-1) 1)) (data vol_distance) ->
  quantize_out true vol_distance = OK out ->
  exists q,
    out = Quantized q
    /\ shape q = shape vol_distance
    /\ Forall2 (fun v c => energy_quantize v default_levels = OK c
                           /\ 0 <= c <= default_levels
                           /\ (c = 0 <-> v = lit (-1) 1))
               (data vol_distance) (data q).
Proof.
  intros Hv. unfold quantize_out, energy_quantize_array.
  destruct (mapM _ (data vol_distance)) as [qs|e] eqn:Hq; [|discriminate].
  cbn [bind]. injection 1 as <-. eexists. split; [reflexivity|].
  split; [reflexivity|]. cbn [data].
  apply Forall2_quantized; [exact Hv | now apply mapM_Forall2].
Qed.

Section QuantizedInstances.

Context {P : Primitives} {PS : PrimitivesSpec P}.

(** X12.  What [edt_instance] returns with [quantize] set, for a
    distance transform without negative distances: the call without
    [quantize] returns an energy map [e], and the quantized result has
    the shape of [e] and holds, cell by cell, the class of [e] for 10
    levels; every class lies in [0, 10] and the class 0 marks exactly the
    cells where [e] is the background value -1. *)
Theorem edt_instance_quantized_classes
  (label : ndarray Z) (mode : string) (resolution : list Qc) (padding : bool)
  (erosion : Z) (out : energy_out)
  (Hnn : edt_nonnegative P)
  (Hrun : edt_instance label mode true resolution padding erosion = OK out) :
  exists e q,
    edt_instance label mode false resolution padding erosion
    = OK (Continuous e)
    /\ out = Quantized q
    /\ shape q = shape e
    /\ Forall2 (fun v c => energy_quantize v default_levels = OK c
                           /\ 0 <= c <= default_levels
                           /\ (c = 0 <-> v = lit (-1) 1))
               (data e) (data q).
Proof.
  revert Hrun. unfold edt_instance.
  destruct (assert (str_in mode ["2d"; "3d"]%string)) as [[]|e];
    [|discriminate].
  cbn [bind]. destruct (String.eqb mode "3d").
  - destruct (distance_transform label (lit (-1) 1) true padding resolution
                                 erosion) as [[vd vs]|e] eqn:Hdt;
      [|discriminate].
    cbn [bind]. intros Hrun.
    destruct (distance_transform_cells _ _ _ _ _ _ vd vs Hnn Hdt) as [Hv _].
    destruct (quantize_out_classes vd out Hv Hrun) as [q [-> [Hs Hq]]].
    exists vd, q. repeat split; assumption.
  - destruct (shape0 label) as [n|e]; [|discriminate]. cbn [bind].
    destruct (mapM _ (seq 0 n)) as [slices|e] eqn:Hsl; [|discriminate].
    cbn [bind].
    destruct (np_stack (map fst slices)) as [vd|e] eqn:Hvd; [|discriminate].
    cbn [bind].
    destruct (np_stack (map snd slices)) as [vs|e]; [|discriminate].
    cbn [bind]. intros Hrun.
    assert (Hv : Forall (distance_value (lit (-1) 1)) (data vd)).
    { rewrite (np_stack_data _ _ Hvd). apply Forall_concat.
      apply Forall_map, Forall_map.
      apply mapM_Forall2 in Hsl. clear Hvd Hrun.
      induction Hsl as [|i [d s] l sl Hi _ IH]; constructor; [|exact IH].
      cbn [fst]. now destruct (distance_transform_cells _ _ _ _ _ _ d s Hnn Hi). }
    destruct (quantize_out_classes vd out Hv Hrun) as [q [-> [Hs Hq]]].
    exists vd, q. repeat split; assumption.
Qed.

End QuantizedInstances.

Lemma edt_instance_quantized_classes_witness :
  exists e q,
    edt_instance (P := stand_in) (NdArray [1%nat; 2%nat; 2%nat] [1; 1; 0; 2])
                 "2d" false [1%Qc; 1%Qc; 1%Qc] false 0
    = OK (Continuous e)
    /\ Quantized (NdArray [1%nat; 2%nat; 2%nat] [10; 10; 0; 10]) = Quantized q
    /\ shape q = shape e
    /\ Forall2 (fun v c => energy_quantize v default_levels = OK c
                           /\ 0 <= c <= default_levels
                           /\ (c = 0 <-> v = lit (-1) 1))
               (data e) (data q).
Proof.
  apply (edt_instance_quantized_classes (P := stand_in) (PS := stand_in_spec)
           (NdArray [1%nat; 2%nat; 2%nat] [1; 1; 0; 2]) "2d"
           [1%Qc; 1%Qc; 1%Qc] false 0
           (Quantized (NdArray [1%nat; 2%nat; 2%nat] [10; 10; 0; 10]))
           stand_in_edt_nonnegative).
  vm_compute. reflexivity.
Defined.

(** ** The ids the instance loop visits *)

Lemma in_insert_unique (z x : Z) (l : list Z) :
  In x (insert_unique z l) <-> x = z \/ In x l.
Proof.
  induction l as [|h t IH]; cbn [insert_unique].
  - cbn [In]. intuition.
  - destruct (Z.ltb_spec z h).
    + cbn [In]. intuition.
    + destruct (Z.eqb_spec z h) as [->|Hne].
      * cbn [In]. intuition.
      * cbn [In]. rewrite IH. intuition.
Qed.

Lemma in_np_unique (a : ndarray Z) (x : Z) :
  In x (np_unique a) <-> In x (data a).
Proof.
  unfold np_unique. induction (data a) as [|z l IH]; [reflexivity|].
  cbn [fold_right]. rewrite in_insert_unique, IH. cbn [In]. intuition.
Qed.

Lemma sorted_insert_unique (z : Z) (l : list Z) :
  StronglySorted Z.lt l -> StronglySorted Z.lt (insert_unique z l).
Proof.
  induction 1 as [|h t Ht IH Hh]; cbn [insert_unique].
  - repeat constructor.
  - destruct (Z.ltb_spec z h).
    + constructor; [now constructor|]. constructor; [exact H|].
      eapply Forall_impl; [|exact Hh]. intros y Hy. cbv beta in *. lia.
    + destruct (Z.eqb_spec z h) as [->|Hne]; [now constructor|].
      constructor; [exact IH|]. apply Forall_forall. intros y Hy.
      apply in_insert_unique in Hy. destruct Hy as [->|Hy]; [lia|].
      rewrite Forall_forall in Hh. now apply Hh.
Qed.

(** [np.unique] returns the ids in strictly ascending order. *)
Lemma sorted_np_unique (a : ndarray Z) : StronglySorted Z.lt (np_unique a).
Proof.
  unfold np_unique. induction (data a) as [|z l IH]; [constructor|].
  cbn [fold_right]. now apply sorted_insert_unique.
Qed.

(** X13.  The ids the instance loop works on, for a label map with a
    cell and without negative ids: the map counts as all background
    exactly when every cell is 0, and otherwise the loop visits, in
    strictly ascending order, exactly the ids of the map other than 0. *)
Theorem visited_ids_exclude_background (label : ndarray Z)
  (Hcell : data label <> [])
  (Hids : Forall (fun x => 0 <= x) (data label)) :
  exists ids all_bg_sample,
    select_indices (np_unique label) = OK (ids, all_bg_sample)
    /\ (all_bg_sample = true <-> Forall (fun x => x = 0) (data label))
    /\ (all_bg_sample = false ->
        forall x, In x ids <-> (In x (data label) /\ x <> 0))
    /\ StronglySorted Z.lt ids.
Proof.
  pose proof (sorted_np_unique label) as Hsorted.
  pose proof (in_np_unique label) as Hin.
  pose proof (np_unique_nonempty label Hcell) as Hne.
  rewrite Forall_forall in Hids.
  destruct (np_unique label) as [|i0 rest] eqn:Hu; [contradiction|].
  apply StronglySorted_inv in Hsorted. destruct Hsorted as [Hrest Hlt].
  rewrite Forall_forall in Hlt.
  assert (Hi0 : 0 <= i0) by (apply Hids, Hin; now left).
  cbn [select_indices]. destruct (Z.eqb_spec i0 0) as [->|Hnz].
  - destruct rest as [|i1 rest'].
    + exists [0], true. split; [reflexivity|]. split; [|split].
      * split; [intros _|reflexivity]. apply Forall_forall. intros x Hx.
        apply Hin in Hx. destruct Hx as [<-|[]]. reflexivity.
      * discriminate.
      * repeat constructor.
    + exists (i1 :: rest'), false. split; [reflexivity|]. split; [|split].
      * split; [discriminate|]. intros Hz. exfalso.
        rewrite Forall_forall in Hz.
        assert (i1 = 0) by (apply Hz, Hin; right; now left).
        assert (0 < i1) by (apply Hlt; now left). lia.
      * intros _ x. split.
        -- intros Hx. split; [apply Hin; now right|].
           apply Hlt in Hx. lia.
        -- intros [Hx Hx0]. apply Hin in Hx. destruct Hx as [<-|Hx];
             [contradiction | exact Hx].
      * exact Hrest.
  - exists (i0 :: rest), false. split; [reflexivity|]. split; [|split].
    + split; [discriminate|]. intros Hz. exfalso.
      rewrite Forall_forall in Hz. apply Hnz. apply Hz, Hin. now left.
    + intros _ x. split.
      * intros Hx. split; [now apply Hin|].
        destruct Hx as [<-|Hx]; [exact Hnz|]. apply Hlt in Hx. lia.
      * intros [Hx _]. now apply Hin.
    + now constructor; [|apply Forall_forall].
Qed.

(** X14.  With a negative id in the label map the smallest id is not 0,
    so the background is not set apart: the loop visits every distinct
    value of the map, the id 0 included when the map has it. *)
Theorem negative_id_keeps_background (label : ndarray Z) (x : Z)
  (Hx : In x (data label)) (Hneg : x < 0) :
  select_indices (np_unique label) = OK (np_unique label, false)
  /\ (In 0 (data label) -> In 0 (np_unique label)).
Proof.
  pose proof (sorted_np_unique label) as Hsorted.
  pose proof (in_np_unique label) as Hin.
  split; [|intros H0; now apply Hin].
  destruct (np_unique label) as [|i0 rest] eqn:Hu.
  - apply Hin in Hx. contradiction.
  - apply StronglySorted_inv in Hsorted. destruct Hsorted as [_ Hlt].
    rewrite Forall_forall in Hlt.
    assert (Hi0 : i0 <= x).
    { apply Hin in Hx. destruct Hx as [->|Hx]; [lia|]. apply Hlt in Hx. lia. }
    cbn [select_indices]. destruct (Z.eqb_spec i0 0) as [->|_]; [lia|].
    reflexivity.
Qed.

Lemma visited_ids_exclude_background_witness :
  exists ids all_bg_sample,
    select_indices (np_unique (NdArray [2%nat; 2%nat] [3; 0; 0; 1]))
    = OK (ids, all_bg_sample)
    /\ (all_bg_sample = true
        <-> Forall (fun x => x = 0) (data (NdArray [2%nat; 2%nat] [3; 0; 0; 1])))
    /\ (all_bg_sample = false ->
        forall x, In x ids
                  <-> (In x (data (NdArray [2%nat; 2%nat] [3; 0; 0; 1]))
                       /\ x <> 0))
    /\ StronglySorted Z.lt ids.
Proof.
  apply (visited_ids_exclude_background (NdArray [2%nat; 2%nat] [3; 0; 0; 1])).
  - discriminate.
  - repeat constructor; lia.
Defined.

Lemma negative_id_keeps_background_witness :
  select_indices (np_unique (NdArray [3%nat] [0; -1; 2]))
  = OK ([-1; 0; 2], false)
  /\ (In 0 [0; -1; 2] -> In 0 [-1; 0; 2]).
Proof.
  apply (negative_id_keeps_background (NdArray [3%nat] [0; -1; 2]) (-1)).
  - right. now left.
  - lia.
Defined.

(** ** The shape of the semantic distance map *)

Lemma mapM_returns {A B : Type} (f : A -> result B) (Q : B -> Prop) (l : list A) :
  (forall x, In x l -> exists y, f x = OK y /\ Q y) ->
  exists ys, mapM f l = OK ys /\ Forall Q ys /\ length ys = length l.
Proof.
  induction l as [|x l IH]; intros H.
  - exists []. repeat split. constructor.
  - destruct (H x (or_introl eq_refl)) as [y [Hy HQ]].
    destruct IH as [ys [Hys [HF Hl]]]; [intros z Hz; apply H; now right|].
    exists (y :: ys). cbn [mapM]. rewrite Hy. cbn [bind]. rewrite Hys.
    cbn [bind length]. repeat split; [now constructor | now rewrite Hl].
Qed.

Lemma shape_eqb_eq (s t : list nat) : s = t -> shape_eqb s t = true.
Proof. intros ->. apply shape_eqb_refl. Qed.

Lemma np_stack_returns {A : Type} (arrays : list (ndarray A)) (sh : list nat) :
  arrays <> [] ->
  Forall (fun a => shape a = sh) arrays ->
  exists a, np_stack arrays = OK a /\ shape a = length arrays :: sh.
Proof.
  intros Hne Hsh. destruct arrays as [|b rest]; [contradiction|].
  pose proof (Forall_inv Hsh) as Hb. pose proof (Forall_inv_tail Hsh) as Hrest.
  cbv beta in Hb. unfold np_stack. rewrite forallb_all.
  - eexists. split; [reflexivity|]. cbn [shape]. now rewrite Hb.
  - intros c Hc. rewrite Forall_forall in Hrest.
    apply shape_eqb_eq. rewrite Hb. symmetry. now apply Hrest.
Qed.

Section SemanticShape.

Context {P : Primitives} {PS : PrimitivesSpec P}.

Lemma _edt_binary_mask_returns (mask : ndarray bool) resolution alpha :
  ndim mask <> O -> length resolution = ndim mask ->
  exists e, _edt_binary_mask mask resolution alpha = OK e
            /\ shape e = shape mask.
Proof.
  intros Hnd Hres. unfold _edt_binary_mask.
  destruct (forallb _ _).
  - eexists. split; [reflexivity|]. reflexivity.
  - unfold distance_transform_edt. cbv zeta.
    rewrite atleast_1d_id by assumption. rewrite Hres, Nat.eqb_refl.
    cbn [bind]. eexists. split; [reflexivity|]. cbn [amap shape].
    now destruct (edt_shape mask resolution).
Qed.

Lemma edt_semantic_join (fore_edt back_edt : ndarray Qc) (sh : list nat) :
  shape fore_edt = sh -> shape back_edt = sh ->
  exists e,
    (distance <- azip Qcminus fore_edt back_edt ;; OK (amap np_tanh distance))
    = OK e
    /\ shape e = sh.
Proof.
  intros Hf Hb. rewrite azip_same by congruence. cbn [bind].
  eexists. split; [reflexivity|]. exact Hf.
Qed.

(** X15.  [edt_semantic] returns an array of the shape of the label
    array: for every label array of 2 axes in both modes, for every
    label array of 3 axes in mode '3d', and in mode '2d' for every stack
    of at least one slice. *)
Theorem edt_semantic_returns label mode alpha_fore alpha_back :
  In mode ["2d"; "3d"]%string ->
  ndim label = 2%nat
  \/ (ndim label = 3%nat /\ (mode = "2d"%string -> shape0 label <> OK O)) ->
  exists e,
    edt_semantic label mode alpha_fore alpha_back = OK e
    /\ shape e = shape label.
Proof.
  intros Hmode Hnd. unfold edt_semantic.
  apply str_in_true in Hmode. rewrite Hmode. cbn [assert bind].
  apply str_in_true in Hmode.
  set (fore := amap (fun l => negb (l =? 0)) label).
  set (back := amap (fun l => l =? 0) label).
  assert (Hwhole : forall resolution,
             length resolution = ndim label ->
             exists e,
               (' (fore_edt, back_edt) <-
                  (fore_edt <- _edt_binary_mask fore resolution alpha_fore ;;
                   back_edt <- _edt_binary_mask back resolution alpha_back ;;
                   OK (fore_edt, back_edt)) ;;
                distance <- azip Qcminus fore_edt back_edt ;;
                OK (amap np_tanh distance)) = OK e
               /\ shape e = shape label).
  { intros resolution Hres.
    assert (Hn0 : ndim label <> O) by (destruct Hnd as [->|[-> _]]; discriminate).
    destruct (_edt_binary_mask_returns fore resolution alpha_fore)
      as [fe [-> Hfe]]; [exact Hn0 | exact Hres |].
    destruct (_edt_binary_mask_returns back resolution alpha_back)
      as [be [-> Hbe]]; [exact Hn0 | exact Hres |].
    cbn [bind]. now apply edt_semantic_join. }
  destruct Hnd as [Hnd|[Hnd Hstack]].
  - rewrite Hnd. cbn [Nat.eqb]. rewrite !orb_true_r.
    apply Hwhole. now rewrite Hnd.
  - rewrite Hnd. cbn [Nat.eqb]. rewrite !orb_false_r.
    destruct Hmode as [<-|[<-|[]]];
      cbn [String.eqb Ascii.eqb Bool.eqb].
    + unfold shape0, ndim in *.
      destruct (shape label) as [|n0 sh'] eqn:Hsh; [discriminate|].
      cbn [bind].
      assert (Hn0 : n0 <> O) by (intros ->; now apply Hstack).
      assert (Hsh' : length sh' = 2%nat) by (cbn [length] in Hnd; lia).
      destruct (mapM_returns
                  (fun i => _edt_binary_mask (slice0 fore i) [1%Qc; 1%Qc]
                                             alpha_fore)
                  (fun e => shape e = sh') (seq 0 n0))
        as [fs [-> [Hfs Hlf]]].
      { intros i _. destruct (_edt_binary_mask_returns (slice0 fore i)
                                [1%Qc; 1%Qc] alpha_fore) as [e [He Hse]].
        - unfold ndim, slice0, fore. cbn [amap shape tl]. rewrite Hsh.
          cbn [tl]. now rewrite Hsh'.
        - unfold ndim, slice0, fore. cbn [amap shape tl]. rewrite Hsh.
          cbn [tl]. now rewrite Hsh'.
        - exists e. split; [exact He|]. rewrite Hse.
          unfold slice0, fore. cbn [amap shape]. now rewrite Hsh. }
      cbn [bind].
      destruct (mapM_returns
                  (fun i => _edt_binary_mask (slice0 back i) [1%Qc; 1%Qc]
                                             alpha_back)
                  (fun e => shape e = sh') (seq 0 n0))
        as [bs [-> [Hbs Hlb]]].
      { intros i _. destruct (_edt_binary_mask_returns (slice0 back i)
                                [1%Qc; 1%Qc] alpha_back) as [e [He Hse]].
        - unfold ndim, slice0, back. cbn [amap shape tl]. rewrite Hsh.
          cbn [tl]. now rewrite Hsh'.
        - unfold ndim, slice0, back. cbn [amap shape tl]. rewrite Hsh.
          cbn [tl]. now rewrite Hsh'.
        - exists e. split; [exact He|]. rewrite Hse.
          unfold slice0, back. cbn [amap shape]. now rewrite Hsh. }
      cbn [bind]. rewrite length_seq in Hlf, Hlb.
      destruct (np_stack_returns fs sh') as [fe [-> Hfe]];
        [intros ->; cbn [length] in Hlf; lia | exact Hfs |].
      cbn [bind].
      destruct (np_stack_returns bs sh') as [be [-> Hbe]];
        [intros ->; cbn [length] in Hlb; lia | exact Hbs |].
      cbn [bind]. apply edt_semantic_join; congruence.
    + apply Hwhole. now rewrite Hnd.
Qed.

End SemanticShape.

Lemma edt_semantic_returns_witness :
  exists e,
    edt_semantic (P := stand_in) (NdArray [2%nat; 1%nat; 2%nat] [1; 1; 0; 2])
                 "2d" (lit 8 1) (lit 50 1) = OK e
    /\ shape e = [2%nat; 1%nat; 2%nat].
Proof.
  apply (edt_semantic_returns (P := stand_in) (PS := stand_in_spec)
           (NdArray [2%nat; 1%nat; 2%nat] [1; 1; 0; 2])).
  - left. reflexivity.
  - right. split; [reflexivity | discriminate].
Defined.

(** ** What the 'mean' policy can return *)

Lemma qsum_from (l : list Qc) (a : Qc) :
  fold_left Qcplus l a = (a + qsum l)%Qc.
Proof.
  unfold qsum. revert a. induction l as [|x l IH]; intros a; cbn [fold_left].
  - ring.
  - rewrite (IH (a + x)%Qc), (IH (0 + x)%Qc). ring.
Qed.

Lemma qsum_cons (x : Qc) (l : list Qc) : qsum (x :: l) = (x + qsum l)%Qc.
Proof. unfold qsum at 1. cbn [fold_left]. rewrite qsum_from. ring. Qed.

Lemma qsum_nil : qsum [] = 0%Qc.
Proof. reflexivity. Qed.

Lemma qsum_scaled (l : list Qc) (k : Qc) :
  qsum (map (fun v => (v / k)%Qc) l) = (qsum l / k)%Qc.
Proof.
  induction l as [|x l IH]; cbn [map].
  - rewrite qsum_nil. unfold Qcdiv. ring.
  - rewrite !qsum_cons, IH. unfold Qcdiv. ring.
Qed.

Lemma qsum_nonneg (l : list Qc) :
  Forall (fun v => (0 <= v)%Qc) l -> (0 <= qsum l)%Qc.
Proof.
  induction 1 as [|x l Hx _ IH]; [apply Qcle_refl|].
  rewrite qsum_cons. qc_lra.
Qed.

Lemma qsum_positive (l : list Qc) (w : Qc) :
  Forall (fun v => (0 <= v)%Qc) l -> In w l -> (0 < w)%Qc -> (0 < qsum l)%Qc.
Proof.
  intros H Hin Hw. induction H as [|x l Hx Hl IH]; [contradiction|].
  rewrite qsum_cons. pose proof (qsum_nonneg l Hl) as Hq.
  destruct Hin as [->|Hin]; [qc_lra|].
  specialize (IH Hin). qc_lra.
Qed.

Lemma Qcminus_nonpos (v m : Qc) : (v <= m)%Qc -> (v - m <= 0)%Qc.
Proof. intros H. qc_lra. Qed.

Lemma fold_maximum_in (t : list Qc) (x : Qc) :
  In (fold_left maximum t x) (x :: t).
Proof.
  revert x. induction t as [|y t IH]; intros x; [now left|].
  cbn [fold_left]. unfold maximum at 2. destruct (Qcltb x y).
  - right. apply IH.
  - destruct (IH x) as [H|H]; [now left | right; now right].
Qed.

Lemma fold_maximum_ge (t : list Qc) (x v : Qc) :
  In v (x :: t) -> (v <= fold_left maximum t x)%Qc.
Proof.
  intros [->|H].
  - apply (fold_max_ge_init t v).
  - now apply (fold_max_ge_in t x v).
Qed.

Lemma Qcmult_between (p b lo hi : Qc) :
  (0 <= p)%Qc -> (lo <= b)%Qc -> (b <= hi)%Qc ->
  (lo * p <= p * b)%Qc /\ (p * b <= hi * p)%Qc.
Proof.
  intros Hp Hlo Hhi. rewrite (Qcmult_comm p b).
  split; now apply Qcmult_le_compat_r.
Qed.

(** A sum of values between [lo] and [hi], weighted by non-negative
    weights, lies between [lo] and [hi] times the sum of the weights. *)
Lemma weighted_sum_between (lo hi : Qc) (p b : list Qc) :
  Forall (fun v => (0 <= v)%Qc) p ->
  Forall (fun v => (lo <= v)%Qc /\ (v <= hi)%Qc) b ->
  length p = length b ->
  (lo * qsum p <= qsum (zip_with Qcmult p b))%Qc
  /\ (qsum (zip_with Qcmult p b) <= hi * qsum p)%Qc.
Proof.
  intros Hp. revert b. induction Hp as [|x p Hx _ IH]; intros b Hb Hlen.
  - destruct b; [|discriminate]. cbn [zip_with]. rewrite qsum_nil.
    replace (lo * 0)%Qc with 0%Qc by ring.
    replace (hi * 0)%Qc with 0%Qc by ring.
    split; apply Qcle_refl.
  - destruct b as [|y b]; [discriminate|].
    pose proof (Forall_inv Hb) as [Hlo Hhi].
    pose proof (Forall_inv_tail Hb) as Hb'.
    destruct (IH b Hb' ltac:(cbn [length] in Hlen; lia)) as [IHlo IHhi].
    destruct (Qcmult_between x y lo hi Hx Hlo Hhi) as [Hxlo Hxhi].
    cbn [zip_with]. rewrite !qsum_cons.
    replace (lo * (x + qsum p))%Qc with (lo * x + lo * qsum p)%Qc by ring.
    replace (hi * (x + qsum p))%Qc with (hi * x + hi * qsum p)%Qc by ring.
    split; now apply Qcplus_le_compat.
Qed.

Lemma mean_bins_between :
  Forall (fun v => (lit (-1) 10 <= v)%Qc /\ (v <= lit 9 10)%Qc) mean_bins.
Proof.
  unfold mean_bins. cbn [range map seq Z.to_nat Pos.to_nat Pos.iter_op Nat.add].
  repeat constructor; now apply Qcleb_true.
Qed.

Lemma map_nth_pair (p b : list Qc) (n : nat) :
  length p = n -> length b = n ->
  map (fun c => (nth c p 0 * nth c b 0)%Qc) (seq 0 n) = zip_with Qcmult p b.
Proof.
  revert b n. induction p as [|x p IH]; intros b n Hp Hb.
  - cbn [length] in Hp. subst n. reflexivity.
  - destruct b as [|y b]; [cbn [length] in *; lia|].
    cbn [length] in Hp, Hb. destruct n as [|n]; [lia|].
    cbn [seq map zip_with nth]. f_equal.
    rewrite <- seq_shift, map_map. cbn [nth].
    apply IH; lia.
Qed.

Lemma nth_flat_map_rows (C N : nat) (g : nat -> nat -> Qc) (c j : nat) :
  (c < C)%nat -> (j < N)%nat ->
  nth (c * N + j)
      (flat_map (fun r => map (fun k => g r k) (seq 0 N)) (seq 0 C)) 0%Qc
  = g c j.
Proof.
  intros Hc Hj. rewrite flat_map_concat_map.
  rewrite (nth_concat_block N); [| |exact Hj].
  - rewrite (nth_indep _ [] (map (fun k => g O k) (seq 0 N)))
      by (rewrite length_map, length_seq; exact Hc).
    rewrite (map_nth (fun r => map (fun k => g r k) (seq 0 N)) (seq 0 C) O c).
    rewrite seq_nth by exact Hc. cbn [Nat.add].
    rewrite (nth_indep _ 0%Qc (g c O)) by (rewrite length_map, length_seq; exact Hj).
    rewrite (map_nth (fun k => g c k) (seq 0 N) O j).
    now rewrite seq_nth.
  - apply Forall_forall. intros b Hb. apply in_map_iff in Hb.
    destruct Hb as [r [<- _]]. now rewrite length_map, length_seq.
Qed.

Section MeanRange.

Context {P : Primitives}.

Hypothesis exp_ok : exp_contract P.

Lemma length_softmax (l : list Qc) : length (softmax l) = length l.
Proof.
  unfold softmax. destruct l as [|x t]; [reflexivity|].
  now rewrite !length_map.
Qed.

(** The softmax of a class vector: non-negative weights that sum to 1. *)
Lemma softmax_weights (l : list Qc) :
  l <> [] ->
  Forall (fun v => (0 <= v)%Qc) (softmax l) /\ qsum (softmax l) = 1%Qc.
Proof.
  intros Hne. unfold softmax. destruct l as [|x t]; [contradiction|].
  destruct exp_ok as [Hexp Hexp0].
  set (m := fold_left maximum t x).
  set (e := map (fun v => np_exp (v - m)%Qc) (x :: t)).
  assert (He : Forall (fun v => (0 <= v)%Qc) e).
  { unfold e. apply Forall_map, Forall_forall. intros v Hv. apply Hexp.
    apply Qcminus_nonpos. exact (fold_maximum_ge t x v Hv). }
  assert (HS : (0 < qsum e)%Qc).
  { apply (qsum_positive e (np_exp (m - m)%Qc)); [exact He | |].
    - unfold e. apply in_map_iff. exists m. split; [reflexivity|].
      apply fold_maximum_in.
    - replace (m - m)%Qc with 0%Qc by ring. exact Hexp0. }
  pose proof (Qcinv_pos _ HS) as Hinv.
  split.
  - apply Forall_map. eapply Forall_impl; [|exact He]. intros v Hv. cbv beta.
    unfold Qcdiv. replace 0%Qc with (0 * / qsum e)%Qc by ring.
    apply Qcmult_le_compat_r; [exact Hv | now apply Qclt_le_weak].
  - rewrite qsum_scaled. unfold Qcdiv. apply Qcmult_inv_r.
    intros E. rewrite E in HS. exact (Qclt_not_le _ _ HS (Qcle_refl _)).
Qed.

(** The expectation of the bin centers under the softmax of one class
    vector of 11 entries. *)
Lemma mean_of_column_between (l : list Qc) :
  length l = 11%nat ->
  (lit (-1) 10 <= qsum (zip_with Qcmult (softmax l) mean_bins))%Qc
  /\ (qsum (zip_with Qcmult (softmax l) mean_bins) <= lit 9 10)%Qc.
Proof.
  intros Hl.
  assert (Hne : l <> []) by (intros ->; discriminate).
  destruct (softmax_weights l Hne) as [Hw Hs].
  destruct (weighted_sum_between (lit (-1) 10) (lit 9 10) (softmax l) mean_bins
              Hw mean_bins_between) as [Hlo Hhi].
  { now rewrite length_softmax, Hl, length_mean_bins. }
  rewrite Hs in Hlo, Hhi.
  replace (lit (-1) 10 * 1)%Qc with (lit (-1) 10) in Hlo by ring.
  replace (lit 9 10 * 1)%Qc with (lit 9 10) in Hhi by ring.
  now split.
Qed.

Lemma mean_column (N : nat) (d : list Qc) (j : nat) :
  (j < N)%nat ->
  column 11 N
    (broadcast_mul 11 N (along_axis0 softmax 11 N d) mean_bins 11) j
  = zip_with Qcmult (softmax (column 11 N d j)) mean_bins.
Proof.
  intros Hj.
  rewrite <- (map_nth_pair (softmax (column 11 N d j)) mean_bins 11)
    by (first [ now rewrite length_softmax, length_column
              | apply length_mean_bins ]).
  unfold column at 1. apply map_ext_in. intros c Hc. apply in_seq in Hc.
  unfold broadcast_mul. rewrite length_mean_bins. cbn [Nat.eqb].
  rewrite (nth_flat_map_rows 11 N
             (fun r k => (nth (r * N + k) (along_axis0 softmax 11 N d) 0
                          * nth r mean_bins 0)%Qc)) by lia.
  f_equal. unfold along_axis0.
  now rewrite (nth_flat_map_rows 11 N
                 (fun r k => nth r (softmax (column 11 N d k)) 0%Qc)) by lia.
Qed.

Lemma mean_block_between (N : nat) (d : list Qc) :
  Forall (fun v => (lit (-1) 10 <= v)%Qc /\ (v <= lit 9 10)%Qc)
    (reduce_axis0 qsum 11 N
       (broadcast_mul 11 N (along_axis0 softmax 11 N d) mean_bins 11)).
Proof.
  unfold reduce_axis0. apply Forall_forall. intros v Hv.
  apply in_map_iff in Hv. destruct Hv as [j [<- Hj]]. apply in_seq in Hj.
  rewrite mean_column by lia.
  apply mean_of_column_between. apply length_column.
Qed.

(** X16.  With a class axis of 11 entries, and an exponential that is
    not negative up to 0 and positive at 0, the 'mean' policy returns an
    array of the remaining axes whose every value lies between the
    smallest and the largest bin center, -0.1 and 0.9: for a numpy array
    (class axis first) and for a torch tensor with at least one batch
    entry (class axis second). *)
Theorem decode_mean_range (rest : list nat) (d : list Qc) :
  (exists e,
      decode_quantize (NumpyArray (NdArray (11%nat :: rest) d)) "mean"
      = OK (NdArray rest e)
      /\ length e = size_of rest
      /\ Forall (fun v => (lit (-1) 10 <= v)%Qc /\ (v <= lit 9 10)%Qc) e)
  /\ (forall B, B <> O ->
      exists e,
        decode_quantize (TorchTensor (NdArray (B :: 11%nat :: rest) d)) "mean"
        = OK (NdArray (B :: rest) e)
        /\ length e = (B * size_of rest)%nat
        /\ Forall (fun v => (lit (-1) 10 <= v)%Qc /\ (v <= lit 9 10)%Qc) e).
Proof.
  split.
  - unfold decode_quantize.
    cbn [assert bind str_in existsb String.eqb Ascii.eqb Bool.eqb orb].
    unfold _decode_quant_numpy.
    cbn [String.eqb Ascii.eqb Bool.eqb shape data Nat.eqb].
    rewrite length_mean_bins. cbn [broadcast_rows Nat.eqb].
    rewrite length_broadcast_mul, size_of_cons, Nat.eqb_refl.
    eexists. split; [reflexivity|]. split.
    + unfold reduce_axis0. now rewrite length_map, length_seq.
    + apply mean_block_between.
  - intros B HB. unfold decode_quantize.
    cbn [assert bind str_in existsb String.eqb Ascii.eqb Bool.eqb orb].
    unfold _decode_quant_torch.
    cbn [String.eqb Ascii.eqb Bool.eqb shape data].
    destruct (Nat.eqb_spec (B * 11) 0) as [E|_]; [lia|].
    rewrite length_mean_bins. cbn [broadcast_rows Nat.eqb].
    set (N := size_of rest).
    set (block := fun b => broadcast_mul 11 N
                             (along_axis0 softmax 11 N (chunk (11 * N) d b))
                             mean_bins 11).
    assert (Hblocks : Forall (fun b => length b = (11 * N)%nat)
                        (map block (seq 0 B))).
    { apply Forall_forall. intros b Hb. apply in_map_iff in Hb.
      destruct Hb as [i [<- _]]. apply length_broadcast_mul. }
    rewrite (length_flat_map_const _ (11 * N))
      by (intros b _; apply length_broadcast_mul).
    rewrite length_seq, !size_of_cons. fold N. rewrite Nat.eqb_refl.
    assert (Heq : flat_map (fun b => reduce_axis0 qsum 11 N
                                       (chunk (11 * N)
                                              (flat_map block (seq 0 B)) b))
                           (seq 0 B)
                  = flat_map (fun b => reduce_axis0 qsum 11 N (block b))
                             (seq 0 B)).
    { rewrite (flat_map_concat_map block (seq 0 B)).
      pose proof (flat_map_chunks (reduce_axis0 qsum 11 N) (11 * N)
                    (map block (seq 0 B)) Hblocks) as H.
      rewrite length_map, length_seq in H. rewrite H.
      now rewrite !flat_map_concat_map, map_map. }
    eexists. split; [reflexivity|]. fold block. rewrite Heq. split.
    + rewrite (length_flat_map_const _ N).
      * now rewrite length_seq.
      * intros b _. unfold reduce_axis0. now rewrite length_map, length_seq.
    + apply Forall_forall. intros v Hv. apply in_flat_map in Hv.
      destruct Hv as [i [_ Hv]].
      pose proof (mean_block_between N (chunk (11 * N) d i)) as H.
      rewrite Forall_forall in H. now apply H.
Qed.

End MeanRange.

Lemma stand_in_exp_contract : exp_contract stand_in.
Proof.
  split.
  - intros x Hx. cbn [np_exp stand_in]. unfold Qcdiv.
    replace 0%Qc with (0 * / (1 - x))%Qc by ring.
    apply Qcmult_le_compat_r; [now apply Qcleb_true|].
    apply Qclt_le_weak, Qcinv_pos.
    assert (H1 : (0 < 1)%Qc) by now apply Qcltb_true. qc_lra.
  - now apply Qcltb_true.
Qed.

Lemma decode_mean_range_witness :
  exists e,
    decode_quantize (P := stand_in)
      (NumpyArray (NdArray [11%nat; 1%nat]
                     (map py_float [0; 5; 1; 0; 0; 1; 0; 0; 0; 0; 0]))) "mean"
    = OK (NdArray [1%nat] e)
    /\ length e = size_of [1%nat]
    /\ Forall (fun v => (lit (-1) 10 <= v)%Qc /\ (v <= lit 9 10)%Qc) e.
Proof.
  exact (proj1 (decode_mean_range (P := stand_in) stand_in_exp_contract
                  [1%nat] (map py_float [0; 5; 1; 0; 0; 1; 0; 0; 0; 0; 0]))).
Defined.

(** ** The entry points on stacks and volumes *)





Section EntryPointsReturn.

Context {P : Primitives} {PS : PrimitivesSpec P}.


Lemma mask_sum_from (l : list bool) (a : Z) :
  a <= fold_left Z.add (map b2u8 l) a <= a + Z.of_nat (length l).
Proof.
  revert a. induction l as [|b l IH]; intros a; cbn [map fold_left length].
  - lia.
  - specialize (IH (a + b2u8 b)). destruct b; cbn [b2u8] in *; lia.
Qed.

(** A mask cannot have more foreground cells than cells. *)
Lemma mask_sum_le (m : ndarray bool) :
  mask_sum m <= Z.of_nat (length (data m)).
Proof. unfold mask_sum. pose proof (mask_sum_from (data m) 0). lia. Qed.

Lemma smooth_round_length sigma threshold (b : ndarray bool) :
  length (data (smooth_round sigma threshold b)) = length (data b).
Proof.
  unfold smooth_round. cbn [amap data]. rewrite length_map.
  destruct (gaussian_shape (amap b2f b) sigma) as [_ Hl].
  rewrite Hl. cbn [amap data]. apply length_map.
Qed.

Lemma smooth_edge_length (b : ndarray bool) sigma threshold :
  length (data (smooth_edge b sigma threshold)) = length (data b).
Proof. unfold smooth_edge. now rewrite !smooth_round_length. Qed.

Lemma foldM_ext {S A : Type} (f g : S -> A -> result S) (l : list A) (s : S) :
  (forall s a, f s a = g s a) -> foldM f l s = foldM g l s.
Proof.
  intros H. revert s. induction l as [|a l IH]; intros s; [reflexivity|].
  rewrite !foldM_cons, H. destruct (g s a); cbn [bind]; [apply IH | reflexivity].
Qed.

(** X18.  Smoothing is undone when it leaves a mask of at most 32
    cells, so on a label map that has, after padding, at most 32 cells
    the flags [smooth] and [smooth_skeleton_only] change nothing:
    [skeleton_aware_distance_transform] returns what it returns without
    smoothing. *)
Theorem small_label_maps_are_not_smoothed
  (label : ndarray Z) (relabel padding : bool)
  (Hsmall : (length (data (prepare_label label relabel padding)) <= 32)%nat) :
  forall bg_value resolution alpha smooth_skeleton_only skeleton_only',
    skeleton_aware_distance_transform label bg_value relabel padding
      resolution alpha true smooth_skeleton_only
    = skeleton_aware_distance_transform label bg_value relabel padding
        resolution alpha false skeleton_only'.
Proof.
  intros bg resolution alpha sso sso'.
  unfold skeleton_aware_distance_transform,
    skeleton_aware_distance_transform_in_order.
  set (L := prepare_label label relabel padding) in *.
  destruct (select_indices (np_unique L)) as [[ids all_bg]|e]; [|reflexivity].
  cbn [bind]. destruct (negb all_bg); [|reflexivity].
  rewrite (foldM_ext (skeleton_aware_step L resolution alpha true sso)
                     (skeleton_aware_step L resolution alpha false sso'));
    [reflexivity|].
  intros [[sk d] s] idx. unfold skeleton_aware_step. cbv zeta.
  set (temp2 := remove_small_holes (amap (fun l => l =? idx) L) 16 1).
  assert (Hsum : (mask_sum (smooth_edge temp2 (lit 2 1) (lit 1 2)) <=? 32)
                 = true).
  { apply Z.leb_le.
    pose proof (mask_sum_le (smooth_edge temp2 (lit 2 1) (lit 1 2))) as H.
    rewrite smooth_edge_length in H.
    destruct (remove_small_holes_shape (amap (fun l => l =? idx) L) 16 1)
      as [_ Hl]. fold temp2 in Hl. rewrite Hl in H.
    cbn [amap data] in H. rewrite length_map in H. lia. }
  now rewrite Hsum.
Qed.

End EntryPointsReturn.


Lemma small_label_maps_are_not_smoothed_witness :
  skeleton_aware_distance_transform (P := stand_in)
    (NdArray [2%nat; 2%nat] [1; 0; 0; 2]) (lit (-1) 1) true false
    [1%Qc; 1%Qc] (lit 8 10) true true
  = skeleton_aware_distance_transform (P := stand_in)
      (NdArray [2%nat; 2%nat] [1; 0; 0; 2]) (lit (-1) 1) true false
      [1%Qc; 1%Qc] (lit 8 10) false false.
Proof.
  apply (small_label_maps_are_not_smoothed (P := stand_in)
           (PS := stand_in_spec) (NdArray [2%nat; 2%nat] [1; 0; 0; 2])
           true false).
  cbn. lia.
Defined.
